(** * sth-deploy-tool: registry distribution client and GitOps manifest updater

    A shallow embedding of [src/utils/registry.js] (class [RegistryClient])
    and of the deployment handler of the Electron main process
    ([run-deploy], [findYamlFile], [getAllFiles], [updateYaml]), with the
    properties of the design document stated and settled against it. *)

From Stdlib Require Import List String Ascii NArith ZArith Lia Bool.
From stdpp Require Import base option list strings gmap pretty.
Import ListNotations.

Set Warnings "-register-all".

Open Scope string_scope.
Open Scope list_scope.

(* ===================================================================== *)
(** * Tag Patcher: the text substitution of [updateYaml] *)
(* ===================================================================== *)

(** The text read with [fs.readFileSync(filePath, 'utf8')] is a JavaScript
    string: a sequence of UTF-16 code units.  The regular expression of
    [updateYaml] distinguishes white space ([\s]) and line terminators
    (which [.] does not match), so the code units are kept as numbers. *)

Module TagPatcher.

Definition of_string (s : string) : list N :=
  map N_of_ascii (list_ascii_of_string s).

Definition c_colon : N := 58.
Definition c_dollar : N := 36.
Definition c_amp : N := 38.
Definition c_quote : N := 39.
Definition c_backtick : N := 96.

(** ECMAScript LineTerminator: LF, CR, LS, PS.  [.] matches every code unit
    but these. *)
Definition is_line_terminator (c : N) : bool :=
  (c =? 10)%N || (c =? 13)%N || (c =? 8232)%N || (c =? 8233)%N.

(** ECMAScript [\s]: WhiteSpace and LineTerminator. *)
Definition is_white_space (c : N) : bool :=
  (c =? 9)%N || (c =? 11)%N || (c =? 12)%N || (c =? 32)%N || (c =? 160)%N
  || (c =? 5760)%N || ((8192 <=? c)%N && (c <=? 8202)%N)
  || (c =? 8239)%N || (c =? 8287)%N || (c =? 12288)%N || (c =? 65279)%N
  || is_line_terminator c.

Definition is_dot (c : N) : bool := negb (is_line_terminator c).

Definition is_digit (c : N) : bool := (48 <=? c)%N && (c <=? 57)%N.

(** The characters with a meaning of their own in a pattern given to
    [new RegExp].  [updateYaml] splices the identifier into the pattern
    unescaped; the embedding reads the identifier as literal text, which is
    what the pattern means when none of these occurs in it. *)
Definition is_regex_special (c : N) : bool :=
  existsb (N.eqb c) (of_string "\^$.*+?()[]{}|").

Definition regex_literal (identifier : list N) : bool :=
  forallb (fun c => negb (is_regex_special c)) identifier.

(** The code units of [image:]. *)
Definition image_kw : list N := [105; 109; 97; 103; 101; 58]%N.

Fixpoint strip_prefix (p s : list N) : option (list N) :=
  match p with
  | [] => Some s
  | a :: p' =>
      match s with
      | [] => None
      | b :: s' => if (a =? b)%N then strip_prefix p' s' else None
      end
  end.

(** [.*] followed by the literal [lit]: greedy, so the longest run of
    non-terminators is tried first and the matcher backtracks towards the
    start.  Returns the text taken by [.*] and what follows [lit]. *)
Fixpoint dot_star_lit (lit s : list N) : option (list N * list N) :=
  let here := (fun r => ([], r)) <$> strip_prefix lit s in
  match s with
  | [] => here
  | c :: s' =>
      if is_dot c then
        match dot_star_lit lit s' with
        | Some (m, r) => Some (c :: m, r)
        | None => here
        end
      else here
  end.

(** [\s+] followed by the continuation [k]: greedy, one character at
    least, giving characters back one at a time when [k] fails. *)
Fixpoint ws_plus {R} (k : list N -> option R) (s : list N)
  : option (list N * R) :=
  match s with
  | [] => None
  | c :: s' =>
      if is_white_space c then
        match ws_plus k s' with
        | Some (w, r) => Some (c :: w, r)
        | None => (fun r => ([c], r)) <$> k s'
        end
      else None
  end.

(** The second group, [.*] in parentheses: the rest of the line. *)
Fixpoint dot_star (s : list N) : list N * list N :=
  match s with
  | [] => ([], [])
  | c :: s' =>
      if is_dot c then let '(m, r) := dot_star s' in (c :: m, r)
      else ([], s)
  end.

(** One attempt of the pattern, group 1 [image:\s+.*ID:] followed by
    group 2 [.*], at the start of [s]: the first group, the second group
    and the text after the match. *)
Definition match_at (identifier s : list N)
  : option (list N * list N * list N) :=
  match strip_prefix image_kw s with
  | None => None
  | Some s1 =>
      match ws_plus (dot_star_lit (identifier ++ [c_colon])) s1 with
      | None => None
      | Some (ws, (mid, s2)) =>
          let '(g2, rest) := dot_star s2 in
          Some (image_kw ++ ws ++ mid ++ identifier ++ [c_colon], g2, rest)
      end
  end.

(** The replacement text of [String.prototype.replace] (GetSubstitution)
    for a pattern with two groups and no named group. *)
Section Substitution.
Variables (matched g1 g2 before after : list N).

Definition capture (i : N) : option (list N) :=
  if (i =? 1)%N then Some g1 else if (i =? 2)%N then Some g2 else None.

Definition one_digit (d : N) (k : list N) : list N :=
  match capture (d - 48) with
  | Some g => g ++ k
  | None => c_dollar :: d :: k
  end.

Fixpoint substitute (tpl : list N) : list N :=
  match tpl with
  | [] => []
  | c :: t =>
      if negb (c =? c_dollar)%N then c :: substitute t
      else
        match t with
        | [] => [c]
        | d :: t' =>
            if (d =? c_dollar)%N then c_dollar :: substitute t'
            else if (d =? c_amp)%N then matched ++ substitute t'
            else if (d =? c_backtick)%N then before ++ substitute t'
            else if (d =? c_quote)%N then after ++ substitute t'
            else if is_digit d then
              match t' with
              | e :: t'' =>
                  if is_digit e then
                    let index := (10 * (d - 48) + (e - 48))%N in
                    if (2 <? index)%N then one_digit d (substitute t')
                    else
                      match capture index with
                      | Some g => g ++ substitute t''
                      | None => c_dollar :: d :: e :: substitute t''
                      end
                  else one_digit d (substitute t')
              | [] => one_digit d (substitute t')
              end
            else c :: substitute t
        end
  end.
End Substitution.

(** [content.replace(pattern, `$1${newTag}`)] with the [g] flag: the
    matches are looked for from left to right, each search starting where
    the last match ended.  A match is never empty, so [length s] steps are
    enough. *)
Fixpoint replace_from (fuel : nat) (identifier tpl before s : list N)
  : list N :=
  match fuel with
  | O => s
  | S fuel' =>
      match match_at identifier s with
      | Some (g1, g2, rest) =>
          substitute (g1 ++ g2) g1 g2 before rest tpl
          ++ replace_from fuel' identifier tpl (before ++ g1 ++ g2) rest
      | None =>
          match s with
          | [] => []
          | c :: s' =>
              c :: replace_from fuel' identifier tpl (before ++ [c]) s'
          end
      end
  end.

Definition replacement (newTag : list N) : list N :=
  c_dollar :: 49%N :: newTag.

(** The new content written back by [updateYaml]. *)
Definition newContent (content identifier newTag : list N) : list N :=
  replace_from (S (length content)) identifier (replacement newTag) [] content.

(** The lines of a text: the maximal runs without a line terminator. *)
Fixpoint lines (s : list N) : list (list N) :=
  match s with
  | [] => [[]]
  | c :: s' =>
      if is_line_terminator c then [] :: lines s'
      else
        match lines s' with
        | l :: ls => (c :: l) :: ls
        | [] => [[c]]
        end
  end.

Definition line (k : nat) (s : list N) : list N := nth k (lines s) [].

Definition count_lt (s : list N) : nat :=
  length (filter (fun c => is_line_terminator c = true) s).

(** [image:] followed eventually by [ID:], as the design document words
    the pattern. *)
Definition image_then_id (identifier l : list N) : Prop :=
  exists a mid b, l = a ++ image_kw ++ mid ++ identifier ++ [c_colon] ++ b.

(** The pattern of the code inside one line: [image:], white space, any
    text, [ID:]. *)
Definition line_matches (identifier l : list N) : Prop :=
  exists a ws mid b,
    l = a ++ image_kw ++ ws ++ mid ++ identifier ++ [c_colon] ++ b
    /\ ws <> [] /\ forallb is_white_space ws = true.

(** A match of the first group whose [ID:] lies on line [k] of the text:
    the white space after [image:] may run over line breaks, the text
    before [ID:] may not. *)
Definition match_ends (identifier content : list N) (k : nat) : Prop :=
  exists pre ws mid post,
    content = pre ++ image_kw ++ ws ++ mid ++ identifier ++ [c_colon] ++ post
    /\ ws <> [] /\ forallb is_white_space ws = true
    /\ forallb is_dot mid = true
    /\ count_lt (pre ++ image_kw ++ ws) = k.

(** A line whose text after an [ID:] was replaced by the new tag. *)
Definition retagged (identifier newTag l l' : list N) : Prop :=
  exists pre old,
    l = pre ++ identifier ++ [c_colon] ++ old
    /\ l' = pre ++ identifier ++ [c_colon] ++ newTag.

(** The text after the replacement, match by match: a position without
    a match keeps its character, a match keeps its first group and gets
    the new tag for its second. *)
Inductive rewrites (identifier newTag : list N) : list N -> list N -> Prop :=
  | rw_nil : rewrites identifier newTag [] []
  | rw_skip c s o :
      match_at identifier (c :: s) = None ->
      rewrites identifier newTag s o ->
      rewrites identifier newTag (c :: s) (c :: o)
  | rw_hit s g1 g2 rest o :
      match_at identifier s = Some (g1, g2, rest) ->
      rewrites identifier newTag rest o ->
      rewrites identifier newTag s (g1 ++ newTag ++ o).

(** A tag without [$], which the replacement text takes as it is. *)
Definition no_dollar (newTag : list N) : bool :=
  forallb (fun c => negb (c =? c_dollar)%N) newTag.

End TagPatcher.

(* ===================================================================== *)
(** * JavaScript strings and paths *)
(* ===================================================================== *)

(** Host names, URLs, header values and file names are kept as strings of
    the standard library. *)

Module Js.

Definition to_lower_ascii (a : ascii) : ascii :=
  let n := N_of_ascii a in
  if ((65 <=? n)%N && (n <=? 90)%N)%bool then ascii_of_N (n + 32) else a.

Fixpoint toLowerCase (s : string) : string :=
  match s with
  | EmptyString => EmptyString
  | String a s' => String (to_lower_ascii a) (toLowerCase s')
  end.

Definition startsWith (s p : string) : bool := String.prefix p s.

Fixpoint includes (s sub : string) : bool :=
  String.prefix sub s ||
  match s with
  | EmptyString => false
  | String _ s' => includes s' sub
  end.

Fixpoint endsWith (s p : string) : bool :=
  String.eqb s p ||
  match s with
  | EmptyString => false
  | String _ s' => endsWith s' p
  end.

(** [s.split(sep)] for a separator of one character: the pieces between
    the separators, one piece at least. *)
Fixpoint split (sep : ascii) (s : string) : list string :=
  match s with
  | EmptyString => [EmptyString]
  | String a s' =>
      if Ascii.eqb a sep then EmptyString :: split sep s'
      else
        match split sep s' with
        | p :: ps => String a p :: ps
        | [] => [String a EmptyString]
        end
  end.

Fixpoint join (sep : string) (l : list string) : string :=
  match l with
  | [] => EmptyString
  | [p] => p
  | p :: ps => p +:+ sep +:+ join sep ps
  end.

(** [l.pop()] on a fresh array: its last element. *)
Definition pop (l : list string) : option string := last l.

Fixpoint drop_string (n : nat) (s : string) : string :=
  match n, s with
  | O, _ => s
  | S n', String _ s' => drop_string n' s'
  | S _, EmptyString => EmptyString
  end.

Definition dquote : ascii := ascii_of_N 34.

(** The run of characters other than the double quote at the start of
    [s], and the rest. *)
Fixpoint unquoted_run (s : string) : string * string :=
  match s with
  | EmptyString => (EmptyString, EmptyString)
  | String a s' =>
      if Ascii.eqb a dquote then (EmptyString, s)
      else let '(r, t) := unquoted_run s' in (String a r, t)
  end.

(** [s.match] with the pattern: [key], an equals sign, a double quote, one
    or more characters other than the double quote (the group), a double
    quote.  The first group of the leftmost match. *)
Fixpoint quoted_param (key s : string) : option string :=
  let here :=
    if String.prefix (key +:+ String "="%char (String dquote "")) s then
      let '(v, t) := unquoted_run (drop_string (String.length key + 2) s) in
      if (negb (String.eqb v "") && String.prefix (String dquote "") t)%bool
      then Some v else None
    else None in
  match here with
  | Some v => Some v
  | None =>
      match s with
      | EmptyString => None
      | String _ s' => quoted_param key s'
      end
  end.

End Js.

Module Path.

(** A path is the list of its segments, from the root. *)
Definition path := list string.

(** [path.normalize] on segments: empty and [.] segments are dropped,
    [..] removes the segment before it. *)
Fixpoint normalize_onto (acc : list string) (segs : list string) : path :=
  match segs with
  | [] => rev acc
  | s :: segs' =>
      if String.eqb s "" || String.eqb s "." then normalize_onto acc segs'
      else if String.eqb s ".." then normalize_onto (tl acc) segs'
      else normalize_onto (s :: acc) segs'
  end.

(** [path.join(base, rel)] for an absolute, normalised [base]. *)
Definition join (base : path) (rel : string) : path :=
  normalize_onto (rev base) (Js.split "/"%char rel).

Definition dirname (p : path) : path := removelast p.

Definition show (p : path) : string := "/" +:+ Js.join "/" p.

(** [path.relative(base, p)] for absolute, normalised paths: the common
    leading segments are dropped, then one [..] climbs out of each segment
    of [base] that is left, and the rest of [p] follows. *)
Fixpoint relative (base p : path) : path :=
  match base, p with
  | b :: base', s :: p' =>
      if String.eqb b s then relative base' p'
      else repeat ".." (length base) ++ p
  | [], _ => p
  | _ :: _, [] => repeat ".." (length base)
  end.

End Path.

(* ===================================================================== *)
(** * The file system *)
(* ===================================================================== *)

Module Fs.
Import Path.

(** A directory keeps its entries in the order [readdirSync] lists them. *)
Inductive node : Type :=
  | File (content : string)
  | Dir (entries : list (string * node)).

Fixpoint assoc {A} (k : string) (l : list (string * A)) : option A :=
  match l with
  | [] => None
  | (k', v) :: l' => if String.eqb k k' then Some v else assoc k l'
  end.

(** Replaces the entry in place, or adds it at the end. *)
Fixpoint assoc_set {A} (k : string) (v : A) (l : list (string * A))
  : list (string * A) :=
  match l with
  | [] => [(k, v)]
  | (k', v') :: l' =>
      if String.eqb k k' then (k, v) :: l' else (k', v') :: assoc_set k v l'
  end.

Definition assoc_del {A} (k : string) (l : list (string * A))
  : list (string * A) :=
  List.filter (fun e => negb (String.eqb k (fst e))) l.

Fixpoint lookup (p : path) (n : node) : option node :=
  match p with
  | [] => Some n
  | s :: p' =>
      match n with
      | Dir es =>
          match assoc s es with
          | Some c => lookup p' c
          | None => None
          end
      | File _ => None
      end
  end.

Definition exists_at (p : path) (root : node) : bool :=
  match lookup p root with Some _ => true | None => false end.

Definition is_dir_at (p : path) (root : node) : bool :=
  match lookup p root with Some (Dir _) => true | _ => false end.

Definition read_at (p : path) (root : node) : option string :=
  match lookup p root with Some (File c) => Some c | _ => None end.

(** [ensureDirSync(p)]: creates the missing directories; fails when a
    segment of [p] is a file. *)
Fixpoint ensureDir (p : path) (n : node) : option node :=
  match n with
  | File _ => None
  | Dir es =>
      match p with
      | [] => Some n
      | s :: p' =>
          match ensureDir p' (default (Dir []) (assoc s es)) with
          | Some c => Some (Dir (assoc_set s c es))
          | None => None
          end
      end
  end.

(** Writing the file at [p], created or overwritten: fails when [p] is a
    directory or when its parent is not one. *)
Fixpoint writeFile (p : path) (content : string) (n : node) : option node :=
  match p with
  | [] =>
      match n with
      | File _ => Some (File content)
      | Dir _ => None
      end
  | s :: p' =>
      match n with
      | File _ => None
      | Dir es =>
          match assoc s es with
          | Some c =>
              match writeFile p' content c with
              | Some c' => Some (Dir (assoc_set s c' es))
              | None => None
              end
          | None =>
              match p' with
              | [] => Some (Dir (assoc_set s (File content) es))
              | _ :: _ => None
              end
          end
      end
  end.

(** Putting a whole tree at [p], whose parent exists (the clone of a
    repository into its directory). *)
Fixpoint graft (p : path) (t : node) (n : node) : option node :=
  match p with
  | [] => Some t
  | s :: p' =>
      match n with
      | File _ => None
      | Dir es =>
          match p' with
          | [] => Some (Dir (assoc_set s t es))
          | _ :: _ =>
              match assoc s es with
              | Some c =>
                  match graft p' t c with
                  | Some c' => Some (Dir (assoc_set s c' es))
                  | None => None
                  end
              | None => None
              end
          end
      end
  end.

(** [fs.remove(p)] and [rmSync(p, recursive, force)]: the entry and all
    below it; nothing when it is not there. *)
Fixpoint remove (p : path) (n : node) : node :=
  match p, n with
  | [], _ => n
  | _, File _ => n
  | [s], Dir es => Dir (assoc_del s es)
  | s :: p', Dir es =>
      match assoc s es with
      | Some c => Dir (assoc_set s (remove p' c) es)
      | None => n
      end
  end.

End Fs.

(* ===================================================================== *)
(** * Registry client ([src/utils/registry.js]) *)
(* ===================================================================== *)

Module Registry.
Import Path Fs.

Inductive method : Type := GET | HEAD | POST | PUT.

(** An axios request configuration, as far as the client sets it. *)
Record axiosConfig : Type := mkRequest {
  req_method : method;
  req_url : string;
  req_headers : gmap string string;
  req_data : option string
}.

(** An HTTP response: header names are lower-case, [data] is the parsed
    body as far as the client reads it (the [token] field). *)
Record response : Type := mkResponse {
  status : N;
  headers : gmap string string;
  data : gmap string string
}.

(** A thrown JavaScript error; [err_response] is set by axios when the
    server answered. *)
Record error : Type := mkError {
  message : string;
  err_response : option response
}.

Inductive tar_type : Type := file | directory | other_type.

Record tar_entry : Type := mkEntry {
  name : string;
  type : tar_type;
  body : string
}.

(** One descriptor of the index [manifest.json] of a [docker save]
    archive. *)
Record imageMeta : Type := mkImageMeta {
  Config : string;
  Layers : list string
}.

Record descriptor : Type := mkDescriptor {
  mediaType : string;
  size : nat;
  digest : string
}.

Record manifestPayload : Type := mkManifest {
  schemaVersion : N;
  manifest_mediaType : string;
  config : descriptor;
  layers : list descriptor
}.

(** What the client takes from its libraries and from the network.  [net]
    is the registry and the token service seen from the client: the answer
    to a request after the requests sent so far, [None] when no answer
    arrives. *)
Class Platform : Type := {
  sha256_hex : string -> string;
  base64 : string -> string;
  tar_entries : string -> option (list tar_entry);
  readJson : string -> option (list imageMeta);
  stringify : manifestPayload -> string;
  stringify_data : gmap string string -> string;
  toFixed2 : nat -> string;
  net : list axiosConfig -> axiosConfig -> option response
}.

(** The client object, its logger's output, the requests sent so far and
    the disk. *)
Record state : Type := mkState {
  registryUrl : string;
  authHeader : option string;
  token : option string;
  logs : list string;
  trace : list axiosConfig;
  disk : node
}.

Definition set_registryUrl (u : string) (st : state) : state :=
  mkState u (authHeader st) (token st) (logs st) (trace st) (disk st).
Definition set_authHeader (h : option string) (st : state) : state :=
  mkState (registryUrl st) h (token st) (logs st) (trace st) (disk st).
Definition set_token (t : option string) (st : state) : state :=
  mkState (registryUrl st) (authHeader st) t (logs st) (trace st) (disk st).
Definition add_log (msg : string) (st : state) : state :=
  mkState (registryUrl st) (authHeader st) (token st) (logs st ++ [msg])
    (trace st) (disk st).
Definition add_request (r : axiosConfig) (st : state) : state :=
  mkState (registryUrl st) (authHeader st) (token st) (logs st)
    (trace st ++ [r]) (disk st).
Definition set_disk (d : node) (st : state) : state :=
  mkState (registryUrl st) (authHeader st) (token st) (logs st) (trace st) d.

(** An [async] function: it reads and changes the state, and returns or
    throws. *)
Inductive result (A : Type) : Type :=
  | Ok (a : A)
  | Throw (e : error).
Arguments Ok {A} a.
Arguments Throw {A} e.

Definition M (A : Type) : Type := state -> result A * state.

Definition ret {A} (a : A) : M A := fun st => (Ok a, st).
Definition throw {A} (e : error) : M A := fun st => (Throw e, st).
Definition bind {A B} (m : M A) (k : A -> M B) : M B :=
  fun st =>
    match m st with
    | (Ok a, st') => k a st'
    | (Throw e, st') => (Throw e, st')
    end.
Definition try_catch {A} (m : M A) (h : error -> M A) : M A :=
  fun st =>
    match m st with
    | (Ok a, st') => (Ok a, st')
    | (Throw e, st') => h e st'
    end.
Definition get : M state := fun st => (Ok st, st).
Definition modify (f : state -> state) : M unit := fun st => (Ok tt, f st).
Definition log (msg : string) : M unit := modify (add_log msg).

Notation "'let*' x ':=' m 'in' k" := (bind m (fun x => k))
  (at level 10, x pattern, m at level 100, k at level 200).
Notation "'run' m 'then' k" := (bind m (fun _ => k))
  (at level 10, m at level 100, k at level 200).

Definition plain_error (msg : string) : error := mkError msg None.

(** A value used as a condition: [null], [undefined] and the empty string
    count as false. *)
Definition truthy (o : option string) : option string :=
  match o with
  | Some s => if String.eqb s "" then None else Some s
  | None => None
  end.

Section Client.
Context `{Platform}.

(** What axios makes of the answer: a status outside 2xx and a missing
    answer are thrown. *)
Definition ok_status (r : response) : bool :=
  ((200 <=? status r)%N && (status r <? 300)%N)%bool.

Definition status_error (r : response) : error :=
  mkError ("Request failed with status code " +:+ pretty (status r)) (Some r).

Definition settle (o : option response) : result response :=
  match o with
  | None => Throw (plain_error "Network Error")
  | Some resp => if ok_status resp then Ok resp else Throw (status_error resp)
  end.

(** [axios(config)]: the request is sent and its answer settled. *)
Definition axios (r : axiosConfig) : M response :=
  fun st => (settle (net (trace st) r), add_request r st).

Definition with_auth (h : option string) (hs : gmap string string)
  : gmap string string :=
  match truthy h with
  | Some a => <["Authorization" := a]> hs
  | None => hs
  end.

(** [request(method, endpoint, data, headers)].  The handler of the first
    failure answers a 401 that carries a Bearer challenge with a realm:
    it asks the realm for a token with the credentials it has, keeps the
    token as the new [authHeader], and sends the request of [config] once
    more.  Whatever else happens, the first error is thrown again; an
    error of the token request or of the second attempt leaves the
    handler as it is. *)
Definition request (m : method) (endpoint : string) (payload : option string)
    (hs : gmap string string) : M response :=
  let* st := get in
  let url := registryUrl st +:+ endpoint in
  let config := mkRequest m url (with_auth (authHeader st) hs) payload in
  try_catch (axios config) (fun err =>
    match err_response err with
    | Some r =>
        if (status r =? 401)%N then
          match truthy (headers r !! "www-authenticate") with
          | Some authChallenge =>
              if Js.startsWith (Js.toLowerCase authChallenge) "bearer" then
                run log "Attempting Bearer token retrieval..." then
                match Js.quoted_param "realm" authChallenge with
                | Some realm =>
                    let service :=
                      default "" (Js.quoted_param "service" authChallenge) in
                    let scope :=
                      default "" (Js.quoted_param "scope" authChallenge) in
                    let tokenUrl :=
                      realm +:+ "?service=" +:+ service
                            +:+ "&scope=" +:+ scope in
                    let* st1 := get in
                    let* tokenResp :=
                      axios (mkRequest GET tokenUrl
                               (with_auth (authHeader st1) ∅) None) in
                    match truthy (data tokenResp !! "token") with
                    | Some tok =>
                        let bearer := "Bearer " +:+ tok in
                        run modify (set_token (Some tok)) then
                        run modify (set_authHeader (Some bearer)) then
                        axios (mkRequest m url
                                 (<["Authorization" := bearer]>
                                    (req_headers config))
                                 payload)
                    | None => throw err
                    end
                | None => throw err
                end
              else throw err
          | None => throw err
          end
        else throw err
    | None => throw err
    end).

(** The base URL [login] keeps: the host as it was given, behind [http://]
    unless it starts with [http] already. *)
Definition base_url (url : string) : string :=
  if Js.startsWith url "http" then url else "http://" +:+ url.

(** [login(username, password, registryUrl)]. *)
Definition login (username password : option string) (url : string)
  : M unit :=
  run modify (set_registryUrl (base_url url)) then
  run modify (set_authHeader
                match truthy username, truthy password with
                | Some u, Some p => Some ("Basic " +:+ base64 (u +:+ ":" +:+ p))
                | _, _ => None
                end)
  then
  try_catch
    (run request GET "/v2/" None ∅ then
     log "Registry login successful (checked /v2/)")
    (fun err => log ("Registry login check warning: " +:+ message err)).

Definition short (digest : string) : string := String.substring 0 12 digest.

(** The helper [pushBlob] of [pushTarball], in its three parts.  First
    the existence check: [true] when the HEAD request went through; an
    error is swallowed, with a warning when it carries a status other than
    404. *)
Definition checkBlob (repository digest : string) : M bool :=
  try_catch
    (run request HEAD ("/v2/" +:+ repository +:+ "/blobs/" +:+ digest)
           None ∅ then
     run log ("Blob " +:+ short digest +:+ " already exists.") then
     ret true)
    (fun err =>
       run match err_response err with
           | Some r =>
               if negb (status r =? 404)%N
               then log ("Warning checking blob: " +:+ message err)
               else ret tt
           | None => ret tt
           end then
       ret false).

(** Where the bytes are put: the location of the upload session, made
    absolute, with the digest as a query parameter. *)
Definition finalUploadUrl (registryUrl uploadLocation digest : string)
  : string :=
  let uploadUrl :=
    if Js.startsWith uploadLocation "http" then uploadLocation
    else registryUrl
         +:+ (if Js.startsWith uploadLocation "/" then "" else "/")
         +:+ uploadLocation in
  let separator := if Js.includes uploadUrl "?" then "&" else "?" in
  uploadUrl +:+ separator +:+ "digest=" +:+ digest.

Definition uploadConfig (auth : option string) (url fileBuffer : string)
    (size : nat) : axiosConfig :=
  mkRequest PUT url
    (with_auth auth
       (<["Content-Length" := pretty size]>
          (<["Content-Type" := "application/octet-stream"]> ∅)))
    (Some fileBuffer).

(** Then the upload in one piece: POST for a location, PUT of the bytes
    to it. *)
Definition uploadBlob (repository fileBuffer digest : string) (size : nat)
  : M (string * nat) :=
  run log ("Uploading blob " +:+ short digest +:+ " ("
           +:+ toFixed2 size +:+ " MB)...") then
  let* initResp :=
    request POST ("/v2/" +:+ repository +:+ "/blobs/uploads/") None ∅ in
  match headers initResp !! "location" with
  | None =>
      throw (plain_error
               "Cannot read properties of undefined (reading 'startsWith')")
  | Some uploadLocation =>
      let* st1 := get in
      run axios (uploadConfig (authHeader st1)
                   (finalUploadUrl (registryUrl st1) uploadLocation digest)
                   fileBuffer size) then
      run log ("Upload complete: " +:+ short digest) then
      ret (digest, size)
  end.

Definition pushBlob (repository : string) (filePath : path)
  : M (string * nat) :=
  let* st := get in
  match read_at filePath (disk st) with
  | None => throw (plain_error "ENOENT: no such file or directory")
  | Some fileBuffer =>
      let hash := sha256_hex fileBuffer in
      let digest := "sha256:" +:+ hash in
      let size := String.length fileBuffer in
      run log ("Checking blob " +:+ short digest +:+ "...") then
      let* found := checkBlob repository digest in
      if found : bool then ret (digest, size)
      else uploadBlob repository fileBuffer digest size
  end.

(** One [entry] event of the extraction: a directory entry creates the
    directory, every other entry is written as a file below its parent
    directory. *)
Definition extract_entry (tempDir : path) (e : tar_entry) (root : node)
  : option node :=
  let outPath := Path.join tempDir (name e) in
  match type e with
  | directory => ensureDir outPath root
  | _ =>
      match ensureDir (dirname outPath) root with
      | Some root' => writeFile outPath (body e) root'
      | None => None
      end
  end.

Fixpoint extract_entries (tempDir : path) (es : list tar_entry) (root : node)
  : option node :=
  match es with
  | [] => Some root
  | e :: es' =>
      match extract_entry tempDir e root with
      | Some root' => extract_entries tempDir es' root'
      | None => None
      end
  end.

(** The promise around the extraction stream.  The code rejects it when
    the archive cannot be parsed or the stream of an entry cannot be
    written, and resolves it when every entry is written.  An archive that
    cannot be read, and a directory of an entry that cannot be made, leave
    the promise of the code unsettled; the embedding has no such outcome
    and ends the call with an error there as well, and it leaves the disk
    as it was whenever the extraction fails, where the code leaves the
    entries written before the failure.  What is stated of a failed
    extraction is therefore only that the call does not return and that
    nothing is sent. *)
Definition extract (tarPath tempDir : path) : M unit :=
  let* st := get in
  match read_at tarPath (disk st) with
  | None => throw (plain_error "ENOENT: no such file or directory")
  | Some bytes =>
      match tar_entries bytes with
      | None => throw (plain_error "Invalid tar header")
      | Some es =>
          match extract_entries tempDir es (disk st) with
          | Some root' => modify (set_disk root')
          | None => throw (plain_error "EEXIST: file already exists")
          end
      end
  end.

(** The loop over [layerFilenames]. *)
Fixpoint pushLayers (repository : string) (tempDir : path)
    (layerFilenames : list string) : M (list (string * nat)) :=
  match layerFilenames with
  | [] => ret []
  | layerFile :: more =>
      let* res := pushBlob repository (Path.join tempDir layerFile) in
      let* rest := pushLayers repository tempDir more in
      ret (res :: rest)
  end.

Definition manifest_type : string :=
  "application/vnd.docker.distribution.manifest.v2+json".

Definition buildManifest (configResult : string * nat)
    (layerResults : list (string * nat)) : manifestPayload :=
  mkManifest 2 manifest_type
    (mkDescriptor "application/vnd.docker.container.image.v1+json"
       (snd configResult) (fst configResult))
    (map (fun l =>
            mkDescriptor "application/vnd.docker.image.rootfs.diff.tar.gzip"
              (snd l) (fst l))
         layerResults).

(** [pushTarball(tarPath, repository, tag)]; [tempDir] is the directory
    named after the clock below [os.tmpdir()]. *)
Definition pushTarball (tempDir : path) (tarPath : path)
    (repository tag : string) : M unit :=
  run log ("Reading tarball from " +:+ Path.show tarPath +:+ "...") then
  let* st := get in
  match ensureDir tempDir (disk st) with
  | None => throw (plain_error "EEXIST: file already exists")
  | Some root =>
      run modify (set_disk root) then
      run log ("Extracting to temporary directory: " +:+ Path.show tempDir)
      then
      run extract tarPath tempDir then
      let* st1 := get in
      let manifestPath := Path.join tempDir "manifest.json" in
      if negb (exists_at manifestPath (disk st1)) then
        throw (plain_error
          "manifest.json not found in tarball. Is this a valid docker save archive?")
      else
        match read_at manifestPath (disk st1) ≫= readJson with
        | None => throw (plain_error "Unexpected token in JSON")
        | Some [] => throw (plain_error "Empty manifest.json")
        | Some (imageMeta :: _) =>
            let configFilename := Config imageMeta in
            let layerFilenames := Layers imageMeta in
            run log ("Found image config: " +:+ configFilename) then
            run log ("Found " +:+ pretty (length layerFilenames)
                     +:+ " layers.") then
            let* configResult :=
              pushBlob repository (Path.join tempDir configFilename) in
            let* layerResults :=
              pushLayers repository tempDir layerFilenames in
            run log "Constructing manifest..." then
            let manifestPayload := buildManifest configResult layerResults in
            run log ("Pushing manifest to " +:+ repository +:+ ":" +:+ tag
                     +:+ "...") then
            let finalManifestData := stringify manifestPayload in
            let manifestUrl :=
              "/v2/" +:+ repository +:+ "/manifests/" +:+ tag in
            let* st2 := get in
            let manifestHeaders : gmap string string :=
              with_auth (authHeader st2)
                (<["Content-Length" :=
                     pretty (String.length finalManifestData)]>
                   (<["Content-Type" := manifest_type]> ∅)) in
            run log ("Manifest payload: " +:+ finalManifestData) then
            run try_catch
                  (run request PUT manifestUrl (Some finalManifestData)
                         manifestHeaders then
                   log ("Successfully pushed manifest. Digest: sha256:"
                        +:+ sha256_hex finalManifestData))
                  (fun err =>
                     run log ("Error pushing manifest: " +:+ message err) then
                     run match err_response err with
                         | Some r =>
                             log ("Server responded: "
                                  +:+ stringify_data (data r))
                         | None => ret tt
                         end then
                     throw err) then
            let* st3 := get in
            modify (set_disk (remove tempDir (disk st3)))
        end
  end.

End Client.
End Registry.

(* ===================================================================== *)
(** * Deployment handler ([run-deploy] of the main process) *)
(* ===================================================================== *)

Module Deploy.
Import Path Fs Registry.

Record globalConfig : Type := mkConfig {
  reg_username : option string;
  reg_password : option string;
  git_repo_url : string;
  username : option string;
  password : option string
}.

(** The message of the renderer. *)
Record deployRequest : Type := mkDeploy {
  serviceName : string;
  tag : string;
  registryCoordinate : string;
  settings : globalConfig;
  tarPath : option path;
  manifestPath : option string
}.

(** The [deploy-complete] event. *)
Record deployComplete : Type := mkComplete {
  dc_serviceName : string;
  success : bool;
  dc_tag : option string
}.

(** Where the process runs: its working directory, the two temporary
    roots and the two readings of the clock. *)
Record host : Type := mkHost {
  cwd : path;
  os_tmpdir : path;
  app_temp : path;
  now_push : nat;
  now_clone : nat
}.

(** isomorphic-git and the text codec.  [git_clone] gives the working tree
    of the remote or fails; the object database below [.git] is part of
    that tree.  [add] and [commit] of the library write below [.git] (the
    index, the objects, the branch) and nowhere else; the embedding keeps
    their outcome only and leaves the files below [.git] as the clone made
    them, so what is stated of the files of the clone after a commit is
    stated of the files outside [.git]. *)
Class Workstation : Type := {
  utf8_decode : string -> list N;
  utf8_encode : list N -> string;
  git_clone : string -> option string -> option string -> error + node;
  git_add : node -> string -> option error;
  git_commit : node -> string -> string -> option error;
  git_push : node -> option string -> option string -> option error
}.

(** The heuristic that splits host and repository. *)
Definition split_coordinate (registryUrl serviceName : string)
  : string * string :=
  match Js.split "/"%char registryUrl with
  | regHost :: ((_ :: _) as rest) => (regHost, Js.join "/" rest)
  | _ => (registryUrl, serviceName)
  end.

(** [repoName.split('/').pop()]. *)
Definition identifier_of (repoName : string) : string :=
  default "" (Js.pop (Js.split "/"%char repoName)).

Fixpoint includes_units (s sub : list N) : bool :=
  match TagPatcher.strip_prefix sub s with
  | Some _ => true
  | None =>
      match s with
      | [] => false
      | _ :: s' => includes_units s' sub
      end
  end.

(** [getAllFiles(dirPath, arrayOfFiles)]: the files below [dirPath], the
    entries of a directory in their order, a directory entered where it
    stands unless its name includes [.git]. *)
Fixpoint getAllFiles (dirPath : path) (n : node) (arrayOfFiles : list path)
  : list path :=
  match n with
  | File _ => arrayOfFiles
  | Dir es =>
      (fix each (es : list (string * node)) (acc : list path) : list path :=
         match es with
         | [] => acc
         | (f, File _) :: es' => each es' (acc ++ [dirPath ++ [f]])
         | (f, (Dir _) as d) :: es' =>
             if negb (Js.includes f ".git")
             then each es' (getAllFiles (dirPath ++ [f]) d acc)
             else each es' acc
         end) es arrayOfFiles
  end.

Section Handler.
Context `{Platform} `{Workstation}.

Definition is_manifest (identifier : string) (root : node) (f : path) : bool :=
  (Js.endsWith (Path.show f) ".yaml" || Js.endsWith (Path.show f) ".yml")
  && match read_at f root with
     | Some content =>
         includes_units (utf8_decode content) (TagPatcher.of_string identifier)
     | None => false
     end.

(** [findYamlFile(dir, identifier, baseDir)] on the disk [root]. *)
Definition findYamlFile (root : node) (dir : path) (identifier : string)
    (baseDir : path) : option string :=
  match lookup dir root with
  | Some d =>
      match List.find (is_manifest identifier root) (getAllFiles dir d []) with
      | Some f => Some (Js.join "/" (Path.relative baseDir f))
      | None => None
      end
  | None => None
  end.

Definition is_blank (s : string) : bool :=
  forallb (fun a => TagPatcher.is_white_space (N_of_ascii a))
    (list_ascii_of_string s).

(** The block that identifies the file to modify: the hint when it is a
    file, the search below the hint when it is a directory, and the search
    over the whole clone whenever that left no target. *)
Definition locate (repoDir : path) (manifestPath : option string)
    (repoName : string) : M (option string) :=
  let* st := get in
  let identifier := identifier_of repoName in
  let* hinted :=
    match truthy manifestPath with
    | Some hint =>
        if negb (is_blank hint) then
          let candidate := Path.join repoDir hint in
          if exists_at candidate (disk st) then
            if is_dir_at candidate (disk st) then
              run log ("Searching provided directory: " +:+ hint) then
              ret (findYamlFile (disk st) candidate identifier repoDir)
            else ret (Some hint)
          else
            run log ("Warning: Configured manifest path '" +:+ hint
                     +:+ "' not found in repo. Falling back to search.") then
            ret None
        else ret None
    | None => ret None
    end in
  match truthy hinted with
  | Some t => ret (Some t)
  | None =>
      run log ("Looking for YAML containing " +:+ String Js.dquote identifier
               +:+ String Js.dquote "...") then
      ret (truthy (findYamlFile (disk st) repoDir identifier repoDir))
  end.

(** [updateYaml(filePath, identifier, newTag)].  The file is read before
    the pattern is built.  The pattern holds the identifier unescaped; the
    embedding reads it as literal text, which is what the code does for an
    identifier without a character special to [new RegExp]
    ([TagPatcher.regex_literal]), and what is stated of the text written
    is stated for such identifiers. *)
Definition updateYaml (filePath : path) (identifier newTag : string)
  : M unit :=
  let* st := get in
  match read_at filePath (disk st) with
  | None => throw (plain_error "ENOENT: no such file or directory")
  | Some bytes =>
      let newContent :=
        TagPatcher.newContent (utf8_decode bytes)
          (TagPatcher.of_string identifier) (TagPatcher.of_string newTag) in
      match writeFile filePath (utf8_encode newContent) (disk st) with
      | Some root => modify (set_disk root)
      | None => throw (plain_error "EISDIR: illegal operation on a directory")
      end
  end.

Definition lift_git (r : option error) : M unit :=
  match r with
  | Some e => throw e
  | None => ret tt
  end.

Definition tempDir_of (h : host) : path :=
  Path.join (os_tmpdir h) ("sth-deploy-" +:+ pretty (now_push h)).

Definition repoDir_of (h : host) (serviceName : string) : path :=
  Path.join (app_temp h)
    ("repo_" +:+ serviceName +:+ "_" +:+ pretty (now_clone h)).

(** The third part of the handler, the Git operations: the clone into a
    fresh directory, the target file, the new tag, the commit and the
    push. *)
Definition gitops_steps (repoDir : path) (rq : deployRequest)
    (repoName : string) : M bool :=
  let cfg := settings rq in
  run modify (fun st =>
                if exists_at repoDir (disk st)
                then set_disk (remove repoDir (disk st)) st else st) then
  let* st1 := get in
  match ensureDir repoDir (disk st1) with
  | None => throw (plain_error "EEXIST: file already exists")
  | Some root =>
      run modify (set_disk root) then
      run log "--- Cloning Git Repo (isomorphic-git) ---" then
      run log ("Clone URL: " +:+ git_repo_url cfg) then
      match git_clone (git_repo_url cfg) (username cfg) (password cfg) with
      | inl e => throw e
      | inr tree =>
          match graft repoDir tree root with
          | None => throw (plain_error "ENOTDIR: not a directory")
          | Some cloned =>
              run modify (set_disk cloned) then
              let* target := locate repoDir (manifestPath rq) repoName in
              match target with
              | None =>
                  run log ("Error: Could not find YAML for "
                           +:+ serviceName rq) then
                  throw (plain_error "YAML not found")
              | Some targetFilePathRelative =>
                  run log ("Modifying file: " +:+ targetFilePathRelative)
                  then
                  let fullYamlPath :=
                    Path.join repoDir targetFilePathRelative in
                  let identifier := identifier_of repoName in
                  run updateYaml fullYamlPath identifier (tag rq) then
                  run log ("Updated image tag to " +:+ tag rq +:+ " in "
                           +:+ targetFilePathRelative) then
                  run log "--- Committing and Pushing ---" then
                  let* st2 := get in
                  let work := default (Dir []) (lookup repoDir (disk st2)) in
                  let commitMessage :=
                    "Deploy " +:+ serviceName rq +:+ ":" +:+ tag rq in
                  run lift_git (git_add work targetFilePathRelative) then
                  run lift_git
                        (git_commit work commitMessage
                           (default "STH Deployer" (truthy (username cfg))))
                  then
                  run log ("Committed: " +:+ commitMessage) then
                  run lift_git
                        (git_push work (username cfg) (password cfg)) then
                  run log "--- DEPLOYMENT SUCCESSFUL ---" then
                  ret true
              end
          end
      end
  end.

(** The body of the handler inside its [try]: [true] when the deployment
    went through, [false] when the archive is not there. *)
Definition deploy_steps (h : host) (rq : deployRequest) : M bool :=
  let cfg := settings rq in
  let finalTarPath :=
    match tarPath rq with
    | Some p => p
    | None =>
        Path.join (Path.join (cwd h) "images") (serviceName rq +:+ ".tar")
    end in
  let* st := get in
  if negb (exists_at finalTarPath (disk st)) then
    run log ("Error: Tar file not found at " +:+ Path.show finalTarPath) then
    ret false
  else
    let '(regHost, repoName) :=
      split_coordinate (registryCoordinate rq) (serviceName rq) in
    run log "--- Authenticating with Registry ---" then
    run log ("Registry: " +:+ regHost) then
    run log ("Repository: " +:+ repoName) then
    run login (reg_username cfg) (reg_password cfg) regHost then
    run log "--- Pushing Image to Registry (Docker-less) ---" then
    run pushTarball (tempDir_of h) finalTarPath repoName (tag rq) then
    gitops_steps (repoDir_of h (serviceName rq)) rq repoName.

(** The handler of [run-deploy]: the steps, the [catch] around them and
    the [deploy-complete] event it sends. *)
Definition run_deploy (h : host) (rq : deployRequest) (st : state)
  : deployComplete * state :=
  let st0 :=
    add_log ("--- Initiating deployment: " +:+ serviceName rq +:+ ":"
             +:+ tag rq +:+ " ---") st in
  match deploy_steps h rq st0 with
  | (Ok true, st') => (mkComplete (serviceName rq) true (Some (tag rq)), st')
  | (Ok false, st') => (mkComplete (serviceName rq) false None, st')
  | (Throw err, st') =>
      let st1 := add_log ("Error during deployment: " +:+ message err) st' in
      let st2 :=
        match err_response err with
        | Some r => add_log ("Details: " +:+ stringify_data (data r)) st1
        | None => st1
        end in
      (mkComplete (serviceName rq) false None, st2)
  end.

End Handler.
End Deploy.

(* ===================================================================== *)
(** * Vocabulary of the properties *)
(* ===================================================================== *)

Import Path Fs Registry Deploy.

Definition is_bearer (h : option string) : Prop :=
  exists tok, h = Some ("Bearer " +:+ tok).

Definition carries_bearer (r : axiosConfig) : Prop :=
  exists tok, req_headers r !! "Authorization" = Some ("Bearer " +:+ tok).

(** The requests sent between two states of one client. *)
Definition sent_since (st st' : state) : list axiosConfig :=
  drop (length (trace st)) (trace st').

(** The configuration [request] sends first. *)
Definition first_config (m : method) (endpoint : string)
    (payload : option string) (hs : gmap string string) (st : state)
  : axiosConfig :=
  mkRequest m (registryUrl st +:+ endpoint) (with_auth (authHeader st) hs)
    payload.

(** A 401 that carries a Bearer challenge with a realm, and the URL the
    token is asked from. *)
Definition challenge_token_url (r : response) : option string :=
  if (status r =? 401)%N then
    match truthy (headers r !! "www-authenticate") with
    | Some ch =>
        if Js.startsWith (Js.toLowerCase ch) "bearer" then
          match Js.quoted_param "realm" ch with
          | Some realm =>
              Some (realm +:+ "?service="
                    +:+ default "" (Js.quoted_param "service" ch)
                    +:+ "&scope="
                    +:+ default "" (Js.quoted_param "scope" ch))
          | None => None
          end
        else None
    | None => None
    end
  else None.

Definition token_request (tokenUrl : string) (auth : option string)
  : axiosConfig :=
  mkRequest GET tokenUrl (with_auth auth ∅) None.

(** The requests [request] may send after its first one: the request for
    a token, and the second attempt with the Bearer header. *)
Inductive follow_up (m : method) (ep : string) (payload : option string)
    (hs : gmap string string) (st : state) : axiosConfig -> Prop :=
  | fu_token turl :
      follow_up m ep payload hs st (token_request turl (authHeader st))
  | fu_retry tok :
      follow_up m ep payload hs st
        (mkRequest m (registryUrl st +:+ ep)
           (<["Authorization" := "Bearer " +:+ tok]>
              (with_auth (authHeader st) hs))
           payload).

(** The requests of a push to the repository [repo] of the registry at
    [U]: every path the client builds holds [repo]; the upload goes where
    the registry said, and a GET is the probe of [login] or the request
    for a token. *)
Inductive traffic (U repo tag : string) (r : axiosConfig) : Prop :=
  | t_get : req_method r = GET -> traffic U repo tag r
  | t_head d :
      req_method r = HEAD ->
      req_url r = U +:+ "/v2/" +:+ repo +:+ "/blobs/" +:+ d ->
      traffic U repo tag r
  | t_post :
      req_method r = POST ->
      req_url r = U +:+ "/v2/" +:+ repo +:+ "/blobs/uploads/" ->
      traffic U repo tag r
  | t_upload location bytes :
      req_method r = PUT ->
      req_url r = location ->
      req_data r = Some bytes ->
      traffic U repo tag r
  | t_manifest :
      req_method r = PUT ->
      req_url r = U +:+ "/v2/" +:+ repo +:+ "/manifests/" +:+ tag ->
      traffic U repo tag r.

(** What a push may send, seen from the session it started with. *)
Definition client_sends (U repo tag : string) (auth0 : option string)
    (r : axiosConfig) : Prop :=
  traffic U repo tag r /\ (is_bearer auth0 -> carries_bearer r).

(** How a push moves the client: the base URL stays, the session header
    stays or becomes a Bearer header, and the requests sent are those of
    [client_sends]. *)
Definition push_frame (repo tag : string) (st st' : state) : Prop :=
  registryUrl st' = registryUrl st
  /\ (authHeader st' = authHeader st \/ is_bearer (authHeader st'))
  /\ exists new,
       trace st' = trace st ++ new
       /\ Forall (client_sends (registryUrl st) repo tag (authHeader st)) new.

(** The calls made on one client after [login]. *)
Inductive call : Type :=
  | call_request (m : method) (endpoint : string) (payload : option string)
      (hs : gmap string string)
  | call_pushTarball (tempDir tarPath : path) (repository tag : string).

Section Calls.
Context `{Platform}.

Definition run_call (c : call) (st : state) : state :=
  match c with
  | call_request m ep payload hs => snd (request m ep payload hs st)
  | call_pushTarball tempDir tarPath repo tag =>
      snd (pushTarball tempDir tarPath repo tag st)
  end.

Definition run_calls (cs : list call) (st : state) : state :=
  fold_left (fun st c => run_call c st) cs st.

(** Digest and size of the file at [p]. *)
Definition blob_of (root : node) (p : path) : option (string * nat) :=
  match read_at p root with
  | Some c => Some ("sha256:" +:+ sha256_hex c, String.length c)
  | None => None
  end.

(** The disk after the extraction of the archive at [tarPath]. *)
Definition unpacked (tempDir tarPath : path) (root : node) : option node :=
  match ensureDir tempDir root with
  | Some root0 =>
      match read_at tarPath root0 with
      | Some bytes =>
          match tar_entries bytes with
          | Some es => extract_entries tempDir es root0
          | None => None
          end
      | None => None
      end
  | None => None
  end.

(** The first descriptor of the index of the unpacked archive. *)
Definition index_of (tempDir : path) (root : node) : option imageMeta :=
  match read_at (Path.join tempDir "manifest.json") root ≫= readJson with
  | Some (meta :: _) => Some meta
  | _ => None
  end.

End Calls.

(** Where an entry of the archive is written. *)
Definition outPath (tempDir : path) (e : tar_entry) : path :=
  Path.join tempDir (name e).

(** A relative path the traversal of a directory may add: not empty, and
    no directory on the way down has [.git] in its name. *)
Definition below_without_git (rel : path) : Prop :=
  rel <> [] /\ Forall (fun s => Js.includes s ".git" = false) (removelast rel).

(** What the requests of a push are when every existence check is
    accepted: checks, requests for a token, and the manifest. *)
Definition check_or_manifest (url : string) (q : axiosConfig) : Prop :=
  req_method q = HEAD \/ req_method q = GET
  \/ (req_method q = PUT /\ req_url q = url).

(** An entry name that does not climb: none of its segments is [..]. *)
Definition stays_below (name : string) : Prop :=
  ~ In ".." (Js.split "/"%char name).

(** A name as [readdirSync] gives it: not empty, not [.] or [..], and
    without [/]. *)
Definition plain_name (s : string) : bool :=
  negb (String.eqb s "") && negb (String.eqb s ".")
  && negb (String.eqb s "..") && negb (Js.includes s "/").

(** A tree all of whose entries have such names. *)
Fixpoint plain_tree (n : node) : bool :=
  match n with
  | File _ => true
  | Dir es =>
      forallb (fun e => let '(f, c) := e in plain_name f && plain_tree c) es
  end.

(** A line whose text after its last [ID:] was replaced by the new tag. *)
Definition retagged_last (identifier newTag l l' : list N) : Prop :=
  exists pre old,
    l = pre ++ identifier ++ [TagPatcher.c_colon] ++ old
    /\ l' = pre ++ identifier ++ [TagPatcher.c_colon] ++ newTag
    /\ forall x y, old <> x ++ identifier ++ [TagPatcher.c_colon] ++ y.

(** A registry that holds no blob and takes every upload: it answers a
    HEAD with 404, a POST with a location, and accepts a PUT. *)
Definition empty_registry `{Platform} : Prop :=
  forall h q,
    match req_method q with
    | HEAD => exists r, net h q = Some r /\ status r = 404%N
    | POST =>
        exists r, net h q = Some r /\ ok_status r = true
                  /\ headers r !! "location" <> None
    | PUT => exists r, net h q = Some r /\ ok_status r = true
    | GET => True
    end.

(** The paths of the object database of the clone at [repoDir]: the
    directory [.git] and what is below it, where [add] and [commit] write. *)
Definition in_git_dir (repoDir q : path) : Prop :=
  exists rel, q = repoDir ++ ".git" :: rel.

(** The text [value] stands in [s] as a quoted value of [key], between
    [pre] and [post]: it is not empty, holds no double quote, and [s] is
    [pre], then [key], an equals sign and [value] between double quotes,
    then [post]. *)
Definition quoted_at (key value pre post s : string) : Prop :=
  value <> ""
  /\ (forall a b, value <> a +:+ String Js.dquote b)
  /\ s = pre +:+ key +:+ String "="%char (String Js.dquote value)
         +:+ String Js.dquote post.

(** [value] is the first quoted value of [key] in [s]: no other stands
    further to the left. *)
Definition first_quoted (key value s : string) : Prop :=
  exists pre post,
    quoted_at key value pre post s
    /\ forall value' pre' post',
         quoted_at key value' pre' post' s ->
         String.length pre <= String.length pre'.

(** The parameter [key] of a challenge as the client reads it: its first
    quoted value, and the empty text when [s] holds no quoted value of
    [key] at all. *)
Definition param_of (key s value : string) : Prop :=
  first_quoted key value s
  \/ (value = "" /\ forall v pre post, ~ quoted_at key v pre post s).

(** What [quoted_param] tries at the start of [s]. *)
Definition quoted_here (key s : string) : option string :=
  if String.prefix (key +:+ String "="%char (String Js.dquote "")) s then
    let '(v, t) :=
      Js.unquoted_run (Js.drop_string (String.length key + 2) s) in
    if negb (String.eqb v "") && String.prefix (String Js.dquote "") t
    then Some v else None
  else None.

Section RegistryRequests.
Context `{Platform}.

(** The registry at [U] named [turl] as the place to ask for a token: it
    answered a request below [U] with a Bearer challenge whose token URL
    is [turl]. *)
Definition challenged_at (U turl : string) : Prop :=
  exists h ep first r,
    req_url first = U +:+ ep
    /\ net h first = Some r
    /\ challenge_token_url r = Some turl.

(** The registry at [U] named [loc] as the place of an upload to [repo]:
    [loc] is the [location] header of an answer it gave, with a status it
    accepts, to a POST of the upload endpoint of [repo]. *)
Definition upload_location (U repo loc : string) : Prop :=
  exists h post resp,
    req_method post = POST
    /\ req_url post = U +:+ "/v2/" +:+ repo +:+ "/blobs/uploads/"
    /\ net h post = Some resp
    /\ ok_status resp = true
    /\ headers resp !! "location" = Some loc.

(** The requests of a run that deploys to the repository [repo] of the
    registry at [U] under [tag], one clause for each request the client
    has.  The probe, the existence check, the start of an upload and the
    manifest go to the paths the client builds below [U], the last three
    with [repo] as the repository; the blob of the existence check is
    named by the digest of its bytes.  The request for a token goes where
    a challenge of the registry said, and the bytes of a blob go, with
    their digest as a query parameter, where the registry said in its
    answer to the start of an upload to [repo]; the two PUTs are told
    apart by their content type. *)
Inductive registry_request (U repo tag : string) (q : axiosConfig) : Prop :=
  | rr_probe :
      req_method q = GET ->
      req_url q = U +:+ "/v2/" ->
      registry_request U repo tag q
  | rr_token :
      req_method q = GET ->
      challenged_at U (req_url q) ->
      registry_request U repo tag q
  | rr_head bytes :
      req_method q = HEAD ->
      req_url q
      = U +:+ "/v2/" +:+ repo +:+ "/blobs/" +:+ "sha256:"
        +:+ sha256_hex bytes ->
      registry_request U repo tag q
  | rr_post :
      req_method q = POST ->
      req_url q = U +:+ "/v2/" +:+ repo +:+ "/blobs/uploads/" ->
      registry_request U repo tag q
  | rr_upload loc bytes :
      req_method q = PUT ->
      req_headers q !! "Content-Type" = Some "application/octet-stream" ->
      req_data q = Some bytes ->
      upload_location U repo loc ->
      req_url q = finalUploadUrl U loc ("sha256:" +:+ sha256_hex bytes) ->
      registry_request U repo tag q
  | rr_manifest :
      req_method q = PUT ->
      req_headers q !! "Content-Type" = Some manifest_type ->
      req_url q = U +:+ "/v2/" +:+ repo +:+ "/manifests/" +:+ tag ->
      registry_request U repo tag q.

(** How a push to [repo] moves the client, request by request: the base
    URL stays, and the requests sent are those of [registry_request]. *)
Definition repository_frame (repo tag : string) (st st' : state) : Prop :=
  registryUrl st' = registryUrl st
  /\ exists new,
       trace st' = trace st ++ new
       /\ Forall (registry_request (registryUrl st) repo tag) new.

End RegistryRequests.

(* ===================================================================== *)
(** * The renderer ([renderer.js]) and the configuration file *)
(* ===================================================================== *)

(** The renderer as far as its variables and its messages to the main
    process go; what it draws is left out.  An [async] function that waits
    for [saveConfig] is cut at its [await]: the call is kept in [waiting]
    until the answer arrives, and other events may come in between. *)
Module Renderer.

Record serviceConfig : Type := mkService {
  registry_url : option string;
  last_tag : option string;
  manifest_path : option string
}.

(** The configuration object: the settings of the side bar and the
    settings of each service. *)
Record appConfig : Type := mkApp {
  app_settings : Deploy.globalConfig;
  service_configs : gmap string serviceConfig
}.

Record logEntry : Type := mkLog {
  msg : string;
  type : string;
  time : string
}.

(** What the renderer asks of the main process through [window.api]. *)
Inductive message : Type :=
  | saveConfig (c : appConfig)
  | runDeploy (serviceName tag registryUrl : string) (c : appConfig)
      (tarPath : option string) (manifestPath : string)
  | showPopup (type title message : string).

(** What is left to do when [saveConfig] has answered. *)
Inductive continuation : Type :=
  | after_save_global
  | after_save_deploy (name registryUrl tag manifestPath : string).

Record renderer : Type := mkRenderer {
  globalConfig : appConfig;
  activeService : option string;
  serviceLogs : gmap string (list logEntry);
  serviceFiles : gmap string string;
  waiting : list continuation;
  sent : list message
}.

Definition set_globalConfig (c : appConfig) (r : renderer) : renderer :=
  mkRenderer c (activeService r) (serviceLogs r) (serviceFiles r) (waiting r)
    (sent r).
Definition set_activeService (a : option string) (r : renderer) : renderer :=
  mkRenderer (globalConfig r) a (serviceLogs r) (serviceFiles r) (waiting r)
    (sent r).
Definition set_serviceLogs (l : gmap string (list logEntry)) (r : renderer)
  : renderer :=
  mkRenderer (globalConfig r) (activeService r) l (serviceFiles r) (waiting r)
    (sent r).
Definition set_serviceFiles (f : gmap string string) (r : renderer)
  : renderer :=
  mkRenderer (globalConfig r) (activeService r) (serviceLogs r) f (waiting r)
    (sent r).
Definition set_waiting (w : list continuation) (r : renderer) : renderer :=
  mkRenderer (globalConfig r) (activeService r) (serviceLogs r)
    (serviceFiles r) w (sent r).
Definition send (m : message) (r : renderer) : renderer :=
  mkRenderer (globalConfig r) (activeService r) (serviceLogs r)
    (serviceFiles r) (waiting r) (sent r ++ [m]).

(** The renderer when its script starts. *)
Definition start : renderer :=
  mkRenderer (mkApp (Deploy.mkConfig None None "" None None) ∅) None ∅ ∅ [] [].

(** [init], from the answer of [loadConfig] on, with the part of
    [renderServices] that prepares the logs. *)
Definition init (loaded : appConfig) (r : renderer) : renderer :=
  set_serviceLogs
    (serviceLogs r ∪ ((fun _ => []) <$> service_configs loaded))
    (set_globalConfig loaded r).

Definition selectService (name : string) (r : renderer) : renderer :=
  if decide (activeService r = Some name) then r
  else set_activeService (Some name) r.

(** [log(serviceName, msg, type)]; [time] is the reading of the clock. *)
Definition log (serviceName msg type time : string) (r : renderer)
  : renderer :=
  set_serviceLogs
    (<[serviceName :=
         default [] (serviceLogs r !! serviceName) ++ [mkLog msg type time]]>
       (serviceLogs r)) r.

(** The name shown for a chosen file. *)
Definition fileName_of (fullPath : string) : string :=
  match Registry.truthy (Js.pop (Js.split "/"%char fullPath)) with
  | Some n => n
  | None => default "" (Js.pop (Js.split "\"%char fullPath))
  end.

Definition handleFileSelection (serviceName fullPath time : string)
    (r : renderer) : renderer :=
  if negb (Js.endsWith fullPath ".tar") then
    log serviceName ("Error: Please select a .tar file for " +:+ serviceName)
      "system" time r
  else
    log serviceName
      ("Selected image for " +:+ serviceName +:+ ": " +:+ fileName_of fullPath)
      "" time
      (set_serviceFiles (<[serviceName := fullPath]> (serviceFiles r)) r).

(** [triggerFilePicker], from the answer of [selectFile] on. *)
Definition triggerFilePicker (serviceName : string) (filePath : option string)
    (time : string) (r : renderer) : renderer :=
  match Registry.truthy filePath with
  | Some p => handleFileSelection serviceName p time r
  | None => r
  end.

(** The click on [save_global], up to its [await]. *)
Definition save_global (git_repo_url username password reg_username
    reg_password : string) (r : renderer) : renderer :=
  let c :=
    mkApp (Deploy.mkConfig (Some reg_username) (Some reg_password)
             git_repo_url (Some username) (Some password))
      (service_configs (globalConfig r)) in
  set_waiting (waiting r ++ [after_save_global])
    (send (saveConfig c) (set_globalConfig c r)).

(** [deployService(name)], up to its [await]; the three texts are the
    values of the fields of the card.  A service without settings ends
    the call with a [TypeError], after its log was emptied. *)
Definition deployService (name registryUrl tag manifestPath : string)
    (r : renderer) : renderer :=
  if String.eqb registryUrl "" || String.eqb tag "" then
    send (showPopup "error" "Missing Info"
            ("Registry URL and Tag required for " +:+ name)) r
  else
    let r1 := selectService name r in
    let r2 := set_serviceLogs (<[name := []]> (serviceLogs r1)) r1 in
    match service_configs (globalConfig r2) !! name with
    | None => r2
    | Some _ =>
        let c :=
          mkApp (app_settings (globalConfig r2))
            (<[name := mkService (Some registryUrl) (Some tag)
                         (Some manifestPath)]>
               (service_configs (globalConfig r2))) in
        set_waiting
          (waiting r2 ++ [after_save_deploy name registryUrl tag manifestPath])
          (send (saveConfig c) (set_globalConfig c r2))
    end.

(** What follows the [await] when [saveConfig] has answered. *)
Definition resume (k : continuation) (r : renderer) : renderer :=
  match k with
  | after_save_global =>
      send (showPopup "info" "Saved" "Global settings saved.") r
  | after_save_deploy name registryUrl tag manifestPath =>
      send (runDeploy name tag registryUrl (globalConfig r)
              (Registry.truthy (serviceFiles r !! name)) manifestPath) r
  end.

(** The answer to the [i]-th call that waits: a failure of [saveConfig]
    ends the call. *)
Definition settled (i : nat) (ok : bool) (r : renderer) : renderer :=
  match waiting r !! i with
  | None => r
  | Some k =>
      let r' := set_waiting (delete i (waiting r)) r in
      if ok then resume k r' else r'
  end.

Definition clearLogs (r : renderer) : renderer :=
  match Registry.truthy (activeService r) with
  | Some a => set_serviceLogs (<[a := []]> (serviceLogs r)) r
  | None => r
  end.

(** What arrives on [log-output]: a text, or an object that names its
    service. *)
Inductive payload : Type :=
  | text (s : string)
  | entry (serviceName message type : string).

Definition onLog (p : payload) (time : string) (r : renderer) : renderer :=
  match p with
  | text s =>
      match Registry.truthy (activeService r) with
      | Some a => log a s "" time r
      | None => r
      end
  | entry serviceName message type => log serviceName message type time r
  end.

Definition onDeployComplete (d : Deploy.deployComplete) (time : string)
    (r : renderer) : renderer :=
  let serviceName := Deploy.dc_serviceName d in
  let tag := default "undefined" (Deploy.dc_tag d) in
  if Deploy.success d then
    send (showPopup "info" "Deployment Successful"
            (serviceName +:+ ":" +:+ tag
             +:+ " has been successfully deployed."))
      (log serviceName
         ("SUCCESS: " +:+ serviceName +:+ ":" +:+ tag
          +:+ " deployed flawlessly.") "system" time r)
  else
    send (showPopup "error" "Deployment Failed"
            ("Deployment of " +:+ serviceName
             +:+ " failed. Check logs for details."))
      (log serviceName
         ("FAILURE: Deployment of " +:+ serviceName
          +:+ " encountered an error.") "system" time r).

(** What happens to the renderer, one event at a time. *)
Inductive event : Type :=
  | ev_init (loaded : appConfig)
  | ev_select (name : string)
  | ev_drop (name path time : string)
  | ev_picked (name : string) (filePath : option string) (time : string)
  | ev_save_global (git_repo_url username password reg_username
      reg_password : string)
  | ev_deploy (name registryUrl tag manifestPath : string)
  | ev_settled (i : nat) (ok : bool)
  | ev_clear
  | ev_log (p : payload) (time : string)
  | ev_complete (d : Deploy.deployComplete) (time : string).

Definition step (r : renderer) (e : event) : renderer :=
  match e with
  | ev_init loaded => init loaded r
  | ev_select name => selectService name r
  | ev_drop name path time => handleFileSelection name path time r
  | ev_picked name filePath time => triggerFilePicker name filePath time r
  | ev_save_global g u p ru rp => save_global g u p ru rp r
  | ev_deploy name registryUrl tag manifestPath =>
      deployService name registryUrl tag manifestPath r
  | ev_settled i ok => settled i ok r
  | ev_clear => clearLogs r
  | ev_log p time => onLog p time r
  | ev_complete d time => onDeployComplete d time r
  end.

Definition play (es : list event) (r : renderer) : renderer :=
  fold_left step es r.

(** A request for a deployment that is in order after the messages
    [before]: host and tag are not empty, the archive, when one is named,
    has a name that ends in [.tar], and the settings of the service with
    these values were handed to [saveConfig] before. *)
Definition in_order (before : list message) (m : message) : Prop :=
  match m with
  | runDeploy name tag registryUrl _ tarPath manifestPath =>
      registryUrl <> "" /\ tag <> ""
      /\ (forall p, tarPath = Some p -> Js.endsWith p ".tar" = true)
      /\ exists c,
           In (saveConfig c) before
           /\ service_configs c !! name
              = Some (mkService (Some registryUrl) (Some tag)
                        (Some manifestPath))
  | _ => True
  end.

(** A call that waits is in order: it was checked for host and tag, and
    its settings were handed to [saveConfig]. *)
Definition call_in_order (before : list message) (k : continuation) : Prop :=
  match k with
  | after_save_global => True
  | after_save_deploy name registryUrl tag manifestPath =>
      registryUrl <> "" /\ tag <> ""
      /\ exists c,
           In (saveConfig c) before
           /\ service_configs c !! name
              = Some (mkService (Some registryUrl) (Some tag)
                        (Some manifestPath))
  end.

(** What holds of the renderer after every event. *)
Definition invariant (r : renderer) : Prop :=
  (forall n p, serviceFiles r !! n = Some p -> Js.endsWith p ".tar" = true)
  /\ Forall (call_in_order (sent r)) (waiting r)
  /\ forall i m, sent r !! i = Some m -> in_order (take i (sent r)) m.

End Renderer.

(** The handlers [load-config] and [save-config] of the main process; the
    JSON codec is a parameter. *)
Module ConfigFile.
Import Renderer.

Class Codec : Type := {
  stringify_config : appConfig -> string;
  parse_config : string -> option appConfig
}.

Definition default_config : appConfig :=
  mkApp (Deploy.mkConfig (Some "") (Some "") "" (Some "") (Some ""))
    (list_to_map
       [ ("sth-local-api",
          mkService (Some "uat-tsn-harbor.xuatnhapcanh.bca:80/sth/sth-api")
            (Some "v2.0.1") None);
         ("sth-local-worker",
          mkService (Some "uat-tsn-harbor.xuatnhapcanh.bca:80/sth/sth-worker")
            (Some "v2.0.1") None);
         ("sth-portal-api", mkService (Some "") (Some "") None);
         ("sth-portal-worker", mkService (Some "") (Some "") None);
         ("sth-portal-fe", mkService (Some "") (Some "") None) ]).

Section Handlers.
Context `{Codec}.

Definition load_config (CONFIG_PATH : Path.path) (root : Fs.node)
  : Registry.error + appConfig :=
  if Fs.exists_at CONFIG_PATH root then
    match Fs.read_at CONFIG_PATH root with
    | Some s =>
        match parse_config s with
        | Some c => inr c
        | None => inl (Registry.plain_error "Unexpected token in JSON")
        end
    | None =>
        inl (Registry.plain_error
               "EISDIR: illegal operation on a directory, read")
    end
  else inr default_config.

Definition save_config (CONFIG_PATH : Path.path) (c : appConfig)
    (root : Fs.node) : Registry.error + Fs.node :=
  match Fs.writeFile CONFIG_PATH (stringify_config c) root with
  | Some root' => inr root'
  | None => inl (Registry.plain_error "ENOENT: no such file or directory")
  end.

End Handlers.
End ConfigFile.

(** The log window of the web front end ([App.jsx]): a message from the
    socket is put after the last hundred lines. *)
Module LogWindow.

Definition slice_last (n : nat) (l : list string) : list string :=
  drop (length l - n) l.

Definition onmessage (prev : list string) (data : string) : list string :=
  slice_last 100 prev ++ [data].

End LogWindow.

(* ===================================================================== *)
(** * Scenarios *)
(* ===================================================================== *)

(** Small concrete worlds on which the statements are run: a digest that
    only marks its input, an archive reader that knows one archive, and
    registries with scripted answers. *)
Module Scenario.

Definition archive : list tar_entry :=
  [ mkEntry "manifest.json" file "INDEX";
    mkEntry "abc.json" file "config-bytes";
    mkEntry "l1/" directory "";
    mkEntry "l1/layer.tar" file "layer-one";
    mkEntry "l2.tar" file "layer-2";
    mkEntry ".git/config" file "[core]" ].

Definition platform (answers : list axiosConfig -> axiosConfig -> option response)
  : Platform :=
  {| sha256_hex := fun s => "#" +:+ s;
     base64 := fun s => s;
     tar_entries := fun s =>
       if String.eqb s "TAR" then Some archive else None;
     readJson := fun s =>
       if String.eqb s "INDEX"
       then Some [mkImageMeta "abc.json" ["l1/layer.tar"; "l2.tar"]]
       else None;
     stringify := fun m =>
       digest (config m) +:+ "|" +:+ Js.join "," (map digest (layers m));
     stringify_data := fun _ => "{}";
     toFixed2 := fun _ => "0.00";
     net := answers |}.

Definition answer (code : N) (hs : list (string * string))
    (fields : list (string * string)) : option response :=
  Some (mkResponse code (list_to_map hs) (list_to_map fields)).

(** A registry that has no blob yet and accepts everything. *)
Definition open_registry (h : list axiosConfig) (r : axiosConfig)
  : option response :=
  match req_method r with
  | HEAD => answer 404 [] []
  | _ => answer 200 [("location", "/v2/uploads/1")] []
  end.

(** A registry that already holds every blob. *)
Definition full_registry (h : list axiosConfig) (r : axiosConfig)
  : option response :=
  answer 200 [] [].

(** A registry that does not know the HEAD method. *)
Definition headless_registry (h : list axiosConfig) (r : axiosConfig)
  : option response :=
  match req_method r with
  | HEAD => answer 405 [] []
  | _ => answer 200 [("location", "http://uploads.example/1?session=7")] []
  end.

Definition challenge : string :=
  "Bearer realm=" +:+ String Js.dquote "http://auth.example/token"
  +:+ String Js.dquote ",service="
  +:+ String Js.dquote "registry.example"
  +:+ String Js.dquote "".

(** A registry behind a token service: the token is handed out at the
    realm, and only requests that carry it are served. *)
Definition token_registry (h : list axiosConfig) (r : axiosConfig)
  : option response :=
  if String.eqb (req_url r)
       "http://auth.example/token?service=registry.example&scope="
  then answer 200 [] [("token", "T0")]
  else
    match req_headers r !! "Authorization" with
    | Some a =>
        if String.eqb a "Bearer T0"
        then answer 200 [("location", "/v2/uploads/1")] []
        else answer 401 [("www-authenticate", challenge)] []
    | None => answer 401 [("www-authenticate", challenge)] []
    end.

Definition fresh (root : node) : state :=
  mkState "" None None [] [] root.

Definition logged_in (url : string) (auth : option string) (root : node)
  : state :=
  mkState url auth None [] [] root.

Definition images : node :=
  Dir [("images", Dir [("svc.tar", File "TAR")]); ("tmp", Dir [])].

(** A workstation whose text is plain ASCII and whose remote holds the
    tree [remote]; [pushed] tells whether the remote takes the push. *)
Definition workstation (remote : node) (pushed : bool) : Workstation :=
  {| utf8_decode := TagPatcher.of_string;
     utf8_encode := fun l =>
       string_of_list_ascii (map ascii_of_N l);
     git_clone := fun _ _ _ => inr remote;
     git_add := fun _ _ => None;
     git_commit := fun _ _ _ => None;
     git_push := fun _ _ _ =>
       if pushed then None
       else Some (plain_error "Push rejected because it was not a simple fast-forward") |}.

(** A repository whose [k8s] directory does not mention the service, with
    a manifest that does next to it. *)
Definition gitops : node :=
  Dir [ (".git", Dir [("HEAD", File "ref: refs/heads/main")]);
        ("k8s", Dir [("other.yaml", File "image: host/ns/other:v1")]);
        ("values.yaml", File "image: host/ns/svc:v1.0.0") ].

Definition machine : host :=
  mkHost ["home"; "op"] ["tmp"] ["tmp"] 1 2.

Definition order : deployRequest :=
  mkDeploy "svc" "v2.0.0" "myhost/ns/svc"
    (mkConfig None None "http://git.example/ops.git" (Some "op") (Some "pw"))
    (Some ["images"; "svc.tar"]) (Some "k8s").

End Scenario.

(* ===================================================================== *)
(** * Proofs *)
(* ===================================================================== *)

(* ===================================================================== *)
(** * The transport: [request] *)
(* ===================================================================== *)

Section Transport.
Context `{Platform}.

Lemma sent_since_app st st' new :
  trace st' = trace st ++ new -> sent_since st st' = new.
Proof. intros E. unfold sent_since. rewrite E. by rewrite drop_app_length. Qed.

Lemma request_frame m ep payload hs st :
  let st' := snd (request m ep payload hs st) in
  disk st' = disk st
  /\ registryUrl st' = registryUrl st
  /\ (authHeader st' = authHeader st \/ is_bearer (authHeader st'))
  /\ exists more,
       trace st' = trace st ++ first_config m ep payload hs st :: more
       /\ Forall (follow_up m ep payload hs st) more.
Proof.
  unfold request, bind, try_catch, get, axios.
  fold (first_config m ep payload hs st).
  destruct (settle (net (trace st) _)) as [r|err]; cbn.
  { repeat split; eauto. }
  destruct (err_response err) as [r|]; [|cbn; repeat split; eauto].
  destruct (status r =? 401)%N; [|cbn; repeat split; eauto].
  destruct (truthy _) as [ch|]; [|cbn; repeat split; eauto].
  destruct (Js.startsWith _ _); [|cbn; repeat split; eauto].
  unfold log, modify.
  destruct (Js.quoted_param "realm" ch) as [realm|]; [|cbn; repeat split; eauto].
  cbn.
  match goal with |- context [settle (net ?h ?q)] =>
    assert (Hq : follow_up m ep payload hs st q) by apply fu_token;
    destruct (settle (net h q)) as [tr|e] end; cbn.
  2:{ repeat split; eauto. eexists. split; [by rewrite <- !app_assoc|]. eauto. }
  destruct (truthy (data tr !! "token")) as [tok|]; cbn.
  2:{ repeat split; eauto. eexists. split; [by rewrite <- !app_assoc|]. eauto. }
  repeat split; eauto.
  - right. by eexists.
  - eexists. split; [by rewrite <- !app_assoc|].
    constructor; [exact Hq|]. constructor; [apply fu_retry|constructor].
Qed.

(** [request] when the first answer is accepted. *)
Lemma request_accepted m ep payload hs st r :
  net (trace st) (first_config m ep payload hs st) = Some r ->
  ok_status r = true ->
  request m ep payload hs st
  = (Ok r, add_request (first_config m ep payload hs st) st).
Proof.
  intros Hnet Hok. unfold request, bind, try_catch, get, axios.
  fold (first_config m ep payload hs st).
  unfold settle. by rewrite Hnet, Hok.
Qed.

(** [request] when the first answer is a challenge: what happens next is
    decided by the answer of the token service. *)
Lemma request_challenged m ep payload hs st r1 turl :
  let cfg := first_config m ep payload hs st in
  let treq := token_request turl (authHeader st) in
  let st1 :=
    add_request treq
      (add_log "Attempting Bearer token retrieval..." (add_request cfg st)) in
  net (trace st) cfg = Some r1 ->
  challenge_token_url r1 = Some turl ->
  request m ep payload hs st =
    match settle (net (trace st ++ [cfg]) treq) with
    | Throw e => (Throw e, st1)
    | Ok tr =>
        match truthy (data tr !! "token") with
        | Some tok =>
            let retry :=
              mkRequest m (registryUrl st +:+ ep)
                (<["Authorization" := "Bearer " +:+ tok]> (req_headers cfg))
                payload in
            (settle (net (trace st ++ [cfg; treq]) retry),
             add_request retry
               (set_authHeader (Some ("Bearer " +:+ tok))
                  (set_token (Some tok) st1)))
        | None => (Throw (status_error r1), st1)
        end
    end.
Proof.
  intros cfg treq st1 Hnet Hch. subst cfg treq st1.
  unfold challenge_token_url in Hch.
  destruct (status r1 =? 401)%N eqn:Hst; [|done].
  destruct (truthy (headers r1 !! "www-authenticate")) as [ch|] eqn:Hh; [|done].
  destruct (Js.startsWith (Js.toLowerCase ch) "bearer") eqn:Hb; [|done].
  destruct (Js.quoted_param "realm" ch) as [realm|] eqn:Hrealm; [|done].
  injection Hch as <-.
  assert (Hno : ok_status r1 = false).
  { unfold ok_status. apply N.eqb_eq in Hst. by rewrite Hst. }
  unfold request, bind, try_catch, get, axios.
  fold (first_config m ep payload hs st).
  unfold settle at 1. rewrite Hnet, Hno. cbn [err_response status_error].
  rewrite Hst, Hh, Hb. unfold log, modify. rewrite Hrealm.
  cbn [trace add_log add_request authHeader].
  unfold token_request.
  destruct (settle _) as [tr|e]; [|done].
  destruct (truthy (data tr !! "token")) as [tok|]; [|done].
  cbn [trace add_log add_request authHeader set_token set_authHeader registryUrl req_headers].
  by rewrite <- app_assoc.
Qed.

(** C3.  A 401 with a Bearer challenge that names a realm makes [request]
    ask the realm for a token with the credentials it has.  When the token
    arrives, the session header becomes the Bearer header, the request is
    sent once more with it, and what that second attempt gives (its
    response, or its failure, a second 401 included) is the outcome: three
    requests are sent and no more.  A later call with that session sends
    its request with the Bearer header at once, and when the registry
    accepts it no token is asked for again. *)
Theorem bearer_challenge_retried_once m ep payload hs st r1 turl :
  let cfg := first_config m ep payload hs st in
  let treq := token_request turl (authHeader st) in
  net (trace st) cfg = Some r1 ->
  challenge_token_url r1 = Some turl ->
  (exists more,
     sent_since st (snd (request m ep payload hs st)) = cfg :: treq :: more)
  /\ forall tr tok,
       net (trace st ++ [cfg]) treq = Some tr ->
       ok_status tr = true ->
       data tr !! "token" = Some tok -> tok <> "" ->
       let bearer := "Bearer " +:+ tok in
       let retry :=
         mkRequest m (registryUrl st +:+ ep)
           (<["Authorization" := bearer]> (req_headers cfg)) payload in
       let st' := snd (request m ep payload hs st) in
       fst (request m ep payload hs st)
         = settle (net (trace st ++ [cfg; treq]) retry)
       /\ authHeader st' = Some bearer
       /\ trace st' = trace st ++ [cfg; treq; retry]
       /\ forall m2 ep2 payload2 hs2 st2,
            authHeader st2 = Some bearer ->
            let cfg2 :=
              mkRequest m2 (registryUrl st2 +:+ ep2)
                (<["Authorization" := bearer]> hs2) payload2 in
            (exists more,
               sent_since st2 (snd (request m2 ep2 payload2 hs2 st2))
               = cfg2 :: more)
            /\ forall r2,
                 net (trace st2) cfg2 = Some r2 -> ok_status r2 = true ->
                 request m2 ep2 payload2 hs2 st2
                 = (Ok r2, add_request cfg2 st2).
Proof.
  intros cfg treq Hnet Hch.
  pose proof (request_challenged m ep payload hs st r1 turl Hnet Hch) as E.
  fold cfg treq in E. cbv zeta in E.
  split.
  - rewrite E. destruct (settle (net (trace st ++ [cfg]) treq)) as [tr|e].
    + destruct (truthy (data tr !! "token")) as [tok|].
      * eexists. apply sent_since_app. cbn. rewrite <- !app_assoc. reflexivity.
      * exists []. apply sent_since_app. cbn. by rewrite <- !app_assoc.
    + exists []. apply sent_since_app. cbn. by rewrite <- !app_assoc.
  - intros tr tok Htr Hok Htok Hne bearer retry st'. subst st'.
    assert (Hs : settle (net (trace st ++ [cfg]) treq) = Ok tr)
      by (unfold settle; by rewrite Htr, Hok).
    assert (Ht : truthy (data tr !! "token") = Some tok)
      by (rewrite Htok; unfold truthy; by destruct (String.eqb_spec tok "")).
    rewrite Hs, Ht in E. rewrite E.
    cbn [fst snd authHeader set_authHeader add_request trace set_token add_log].
    split; [done|]. split; [done|]. split; [by rewrite <- !app_assoc|].
    intros m2 ep2 payload2 hs2 st2 Hauth. cbv zeta.
    assert (Hcfg2 : first_config m2 ep2 payload2 hs2 st2
                    = mkRequest m2 (registryUrl st2 +:+ ep2)
                        (<["Authorization" := bearer]> hs2) payload2).
    { unfold first_config, with_auth. rewrite Hauth. by subst bearer. }
    rewrite <- Hcfg2. split.
    + destruct (request_frame m2 ep2 payload2 hs2 st2)
        as (_ & _ & _ & more & E2 & _).
      exists more. by apply sent_since_app.
    + intros r2 Hr2 Hok2. by apply request_accepted.
Qed.
End Transport.

(** A run of the theorem [bearer_challenge_retried_once]: a client with
    Basic credentials in front of the registry of
    [Scenario.token_registry]. *)
Lemma bearer_challenge_witness :
  let P := Scenario.platform Scenario.token_registry in
  let st :=
    Scenario.logged_in "http://registry.example" (Some "Basic dTpw") (Dir []) in
  let out := request (H := P) GET "/v2/" None ∅ st in
  (exists r1,
     net (trace st) (first_config GET "/v2/" None ∅ st) = Some r1
     /\ challenge_token_url r1
        = Some "http://auth.example/token?service=registry.example&scope=")
  /\ authHeader (snd out) = Some "Bearer T0"
  /\ length (trace (snd out)) = 3.
Proof.
  intros P st out.
  pose (r1 := mkResponse 401
                (list_to_map [("www-authenticate", Scenario.challenge)])
                (list_to_map [])).
  pose (tr := mkResponse 200 (list_to_map [])
                (list_to_map [("token", "T0")])).
  assert (H1 : net (trace st) (first_config GET "/v2/" None ∅ st) = Some r1)
    by (vm_compute; reflexivity).
  assert (H2 : challenge_token_url r1
               = Some "http://auth.example/token?service=registry.example&scope=")
    by (vm_compute; reflexivity).
  destruct (bearer_challenge_retried_once (H := P) GET "/v2/" None ∅ st r1 _
              H1 H2) as [_ Hc].
  destruct (Hc tr "T0") as (_ & Hauth & Htrace & _);
    [vm_compute; reflexivity | reflexivity | reflexivity | discriminate |].
  split; [exists r1; split; assumption|].
  split; [exact Hauth|].
  subst out. rewrite Htrace. reflexivity.
Defined.

Section TransportMore.
Context `{Platform}.

(** When [request] returns, the last request it sent is the one that was
    answered: the request of the caller, with the headers of the first or
    of the second attempt. *)
Lemma request_returns m ep payload hs st r :
  fst (request m ep payload hs st) = Ok r ->
  ok_status r = true
  /\ exists hs',
      last (trace (snd (request m ep payload hs st)))
      = Some (mkRequest m (registryUrl st +:+ ep) hs' payload)
      /\ net (removelast (trace (snd (request m ep payload hs st))))
           (mkRequest m (registryUrl st +:+ ep) hs' payload) = Some r.
Proof.
  assert (Hsettle : forall o, settle o = Ok r -> o = Some r /\ ok_status r = true).
  { intros [x|]; unfold settle; [|done].
    destruct (ok_status x) eqn:E; [|done]. by intros [= ->]. }
  unfold request, bind, try_catch, get, axios.
  fold (first_config m ep payload hs st).
  destruct (settle (net (trace st) _)) as [r0|err] eqn:E0; cbn.
  { intros [= ->]. apply Hsettle in E0 as [E0 Hok]. split; [done|].
    eexists. rewrite last_snoc, removelast_last. split; [reflexivity|exact E0]. }
  destruct (err_response err) as [r1|]; [|done].
  destruct (status r1 =? 401)%N; [|done].
  destruct (truthy _) as [ch|]; [|done].
  destruct (Js.startsWith _ _); [|done].
  unfold log, modify.
  destruct (Js.quoted_param "realm" ch) as [realm|]; [|done].
  cbn.
  match goal with |- context [settle (net ?h ?q)] =>
    destruct (settle (net h q)) as [tr|e] end; cbn; [|done].
  destruct (truthy (data tr !! "token")) as [tok|]; cbn; [|done].
  intros E1. apply Hsettle in E1 as [E1 Hok]. split; [done|].
  eexists. rewrite last_snoc, removelast_last. split; [reflexivity|exact E1].
Qed.

End TransportMore.

(* ===================================================================== *)
(** * Frames of the push *)
(* ===================================================================== *)

Section Frames.
Context `{Platform}.

Lemma is_bearer_step (a b : option string) :
  b = a \/ is_bearer b -> is_bearer a -> is_bearer b.
Proof. by intros [->|?]. Qed.

Lemma client_sends_weaken U repo tag a b r :
  (is_bearer a -> is_bearer b) ->
  client_sends U repo tag b r -> client_sends U repo tag a r.
Proof. intros Hab [Ht Hb]. split; auto. Qed.

Lemma push_frame_refl repo tag st : push_frame repo tag st st.
Proof.
  split; [done|]. split; [by left|]. exists []. by rewrite app_nil_r.
Qed.

Lemma push_frame_trans repo tag st1 st2 st3 :
  push_frame repo tag st1 st2 -> push_frame repo tag st2 st3 ->
  push_frame repo tag st1 st3.
Proof.
  intros (U1 & A1 & n1 & T1 & F1) (U2 & A2 & n2 & T2 & F2).
  split; [congruence|]. split.
  { destruct A2 as [->|]; auto. }
  exists (n1 ++ n2). split; [by rewrite T2, T1, app_assoc|].
  apply Forall_app. split; [done|].
  rewrite U1 in F2. eapply Forall_impl; [exact F2|].
  intros r. apply client_sends_weaken. by apply is_bearer_step.
Qed.

Lemma push_frame_quiet repo tag st st' :
  registryUrl st' = registryUrl st -> authHeader st' = authHeader st ->
  trace st' = trace st -> push_frame repo tag st st'.
Proof.
  intros U A T. split; [done|]. split; [by left|].
  exists []. by rewrite app_nil_r.
Qed.

Lemma with_auth_bearer a hs :
  is_bearer a -> exists tok,
    with_auth a hs !! "Authorization" = Some ("Bearer " +:+ tok).
Proof.
  intros [tok ->]. exists tok. unfold with_auth. cbn.
  apply lookup_insert_eq.
Qed.

Lemma with_auth_other a hs k :
  k <> "Authorization" -> with_auth a hs !! k = hs !! k.
Proof.
  intros Hk. unfold with_auth. destruct (truthy a); [|done].
  by apply lookup_insert_ne.
Qed.

(** The requests of one [request] are traffic of the push as soon as its
    first one is. *)
Lemma request_push_frame repo tag m ep payload hs st :
  (forall a, traffic (registryUrl st) repo tag
               (mkRequest m (registryUrl st +:+ ep) a payload)) ->
  push_frame repo tag st (snd (request m ep payload hs st)).
Proof.
  intros Hshape.
  destruct (request_frame m ep payload hs st) as (_ & U & A & more & T & F).
  split; [done|]. split; [done|].
  eexists. split; [exact T|]. constructor.
  - split; [apply Hshape|]. intros Hb. by apply with_auth_bearer.
  - eapply Forall_impl; [exact F|]. intros r [turl|tok].
    + split; [by apply t_get|]. intros Hb. by apply with_auth_bearer.
    + split; [apply Hshape|]. intros _. exists tok. apply lookup_insert_eq.
Qed.

Lemma checkBlob_frame repo tag digest st :
  let st' := snd (checkBlob repo digest st) in
  disk st' = disk st /\ push_frame repo tag st st'.
Proof.
  unfold checkBlob, try_catch, bind.
  pose proof (request_frame HEAD ("/v2/" +:+ repo +:+ "/blobs/" +:+ digest)
                None ∅ st) as (D & _).
  pose proof (request_push_frame repo tag HEAD
                ("/v2/" +:+ repo +:+ "/blobs/" +:+ digest) None ∅ st) as F.
  destruct (request HEAD _ None ∅ st) as [[r|err] st1]; cbn in *.
  - split; [done|]. eapply push_frame_trans.
    + apply F. intros a. by eapply t_head.
    + by apply push_frame_quiet.
  - assert (F1 : push_frame repo tag st st1).
    { apply F. intros a. by eapply t_head. }
    destruct (err_response err) as [r|]; [destruct (negb _)|]; cbn;
      (split; [done|]); try done;
      (eapply push_frame_trans; [exact F1|by apply push_frame_quiet]).
Qed.

Lemma uploadBlob_frame repo tag bytes digest size st :
  let out := uploadBlob repo bytes digest size st in
  disk (snd out) = disk st
  /\ push_frame repo tag st (snd out)
  /\ forall res, fst out = Ok res -> res = (digest, size).
Proof.
  unfold uploadBlob, bind, log, modify.
  set (st0 := add_log _ st).
  pose proof (request_frame POST ("/v2/" +:+ repo +:+ "/blobs/uploads/")
                None ∅ st0) as (D & _).
  pose proof (request_push_frame repo tag POST
                ("/v2/" +:+ repo +:+ "/blobs/uploads/") None ∅ st0) as F.
  assert (F0 : push_frame repo tag st st0) by by apply push_frame_quiet.
  destruct (request POST _ None ∅ st0) as [[r|err] st1]; cbn in *.
  2:{ split; [exact D|]. split; [|done].
      eapply push_frame_trans; [exact F0|]. apply F. intros a. by apply t_post. }
  assert (F1 : push_frame repo tag st st1).
  { eapply push_frame_trans; [exact F0|]. apply F. intros a. by apply t_post. }
  destruct (headers r !! "location") as [loc|]; cbn;
    [|by split; [exact D|split]].
  unfold get, axios. cbn.
  match goal with |- context [settle ?x] => destruct (settle x) end; cbn.
  all: split; [exact D|]; split; [|first [by intros ? [= <-] | done]].
  all: eapply push_frame_trans; [exact F1|].
  all: split; [done|]; split; [by left|].
  all: eexists; split; [reflexivity|]; constructor; [|constructor].
  all: split; [|intros Hb; by apply with_auth_bearer].
  all: by eapply t_upload.
Qed.

Lemma pushBlob_frame repo tag p st :
  let out := pushBlob repo p st in
  disk (snd out) = disk st
  /\ push_frame repo tag st (snd out)
  /\ forall res, fst out = Ok res -> blob_of (disk st) p = Some res.
Proof.
  unfold pushBlob, bind, get, blob_of.
  destruct (read_at p (disk st)) as [c|]; cbn; [|by split; [|split; [apply push_frame_refl|]]].
  unfold log, modify. cbn.
  set (digest := "sha256:" +:+ sha256_hex c).
  set (st0 := add_log _ st).
  assert (F0 : push_frame repo tag st st0) by by apply push_frame_quiet.
  pose proof (checkBlob_frame repo tag digest st0) as (D1 & F1).
  destruct (checkBlob repo digest st0) as [[[|]|err] st1];
    cbn -[uploadBlob] in *.
  - split; [exact D1|].
    split; [eapply push_frame_trans; [exact F0|exact F1]|]. by intros ? [= <-].
  - pose proof (uploadBlob_frame repo tag c digest (String.length c) st1)
      as (D2 & F2 & R2).
    destruct (uploadBlob repo c digest (String.length c) st1) as [res st2].
    cbn in *. split; [exact (eq_trans D2 D1)|].
    split; [eapply push_frame_trans; [|exact F2];
            eapply push_frame_trans; [exact F0|exact F1]|].
    intros res' ->. by rewrite (R2 _ eq_refl).
  - split; [exact D1|].
    split; [eapply push_frame_trans; [exact F0|exact F1]|done].
Qed.

Lemma pushLayers_frame repo tag tempDir files st :
  let out := pushLayers repo tempDir files st in
  disk (snd out) = disk st
  /\ push_frame repo tag st (snd out)
  /\ forall rs, fst out = Ok rs ->
       Forall2 (fun f r => blob_of (disk st) (Path.join tempDir f) = Some r)
         files rs.
Proof.
  revert st. induction files as [|f files IH]; intros st; cbn.
  { split; [done|]. split; [apply push_frame_refl|]. intros ? [= <-].
    constructor. }
  unfold bind.
  pose proof (pushBlob_frame repo tag (Path.join tempDir f) st) as (D1 & F1 & R1).
  destruct (pushBlob repo (Path.join tempDir f) st) as [[r|e] st1]; cbn in *.
  2:{ by split; [|split]. }
  specialize (IH st1). cbn in IH. destruct IH as (D2 & F2 & R2).
  destruct (pushLayers repo tempDir files st1) as [[rs|e] st2]; cbn in *.
  - split; [congruence|]. split; [by eapply push_frame_trans|].
    intros ? [= <-]. constructor; [by apply R1|].
    rewrite <- D1. by apply R2.
  - split; [congruence|]. split; [by eapply push_frame_trans|done].
Qed.

End Frames.

Section PushTarball.
Context `{Platform}.

Lemma extract_frame tarPath tempDir st :
  let out := extract tarPath tempDir st in
  registryUrl (snd out) = registryUrl st
  /\ authHeader (snd out) = authHeader st
  /\ trace (snd out) = trace st
  /\ (fst out = Ok tt ->
      exists bytes es,
        read_at tarPath (disk st) = Some bytes /\ tar_entries bytes = Some es
        /\ extract_entries tempDir es (disk st) = Some (disk (snd out))).
Proof.
  unfold extract, bind, get.
  destruct (read_at tarPath (disk st)) as [bytes|] eqn:E1; [|done].
  destruct (tar_entries bytes) as [es|] eqn:E2; [|done].
  destruct (extract_entries tempDir es (disk st)) as [root'|] eqn:E3; [|done].
  cbn. repeat split. intros _. exists bytes, es. by rewrite E2, E3.
Qed.

(** The whole push: its frame, and what a push that returns has done. *)
Lemma pushTarball_run tempDir tarPath repo tag st :
  let out := pushTarball tempDir tarPath repo tag st in
  push_frame repo tag st (snd out)
  /\ (fst out = Ok tt ->
      exists D meta cfg rs published,
        unpacked tempDir tarPath (disk st) = Some D
        /\ index_of tempDir D = Some meta
        /\ blob_of D (Path.join tempDir (Config meta)) = Some cfg
        /\ Forall2 (fun f r => blob_of D (Path.join tempDir f) = Some r)
             (Layers meta) rs
        /\ last (trace (snd out)) = Some published
        /\ req_method published = PUT
        /\ req_url published
           = registryUrl st +:+ "/v2/" +:+ repo +:+ "/manifests/" +:+ tag
        /\ req_data published = Some (stringify (buildManifest cfg rs))
        /\ disk (snd out) = remove tempDir D).
Proof.
  unfold pushTarball, unpacked, index_of, bind, get, log, modify.
  cbn [fst snd disk add_log].
  destruct (ensureDir tempDir (disk st)) as [root0|];
    [|split; [by apply push_frame_quiet|done]].
  cbn [fst snd disk add_log set_disk].
  set (st0 := add_log _ (set_disk root0 _)).
  pose proof (extract_frame tarPath tempDir st0) as (U0 & A0 & T0 & R0).
  destruct (extract tarPath tempDir st0) as [[[]|e] st1]; cbn [fst snd] in *;
    [|split; [by apply push_frame_quiet|done]].
  destruct (R0 eq_refl) as (bytes & es & Hb & Hes & Hex). clear R0.
  cbn [disk st0 add_log set_disk] in Hb, Hex. rewrite Hb, Hes, Hex.
  assert (F1 : push_frame repo tag st st1) by by apply push_frame_quiet.
  destruct (exists_at _ (disk st1)); cbn [negb]; [|by split].
  destruct (read_at _ (disk st1) ≫= readJson) as [[|meta metas]|] eqn:Hidx;
    [by split|..|by split].
  cbn [fst snd].
  set (st2 := add_log _ (add_log _ st1)).
  assert (F2 : push_frame repo tag st st2) by by apply push_frame_quiet.
  pose proof (pushBlob_frame repo tag (Path.join tempDir (Config meta)) st2)
    as (D3 & F3 & R3).
  destruct (pushBlob repo _ st2) as [[cfg|e] st3]; cbn [fst snd] in *;
    [|split; [by eapply push_frame_trans|done]].
  pose proof (pushLayers_frame repo tag tempDir (Layers meta) st3)
    as (D4 & F4 & R4).
  destruct (pushLayers repo tempDir (Layers meta) st3) as [[rs|e] st4];
    cbn [fst snd] in *;
    [|split; [eapply push_frame_trans; [|exact F4];
              by eapply push_frame_trans|done]].
  assert (F4' : push_frame repo tag st st4).
  { eapply push_frame_trans; [|exact F4]. by eapply push_frame_trans. }
  unfold try_catch, bind, log, modify. cbn [fst snd add_log].
  set (body := stringify (buildManifest cfg rs)).
  set (st5 := add_log _ (add_log _ (add_log _ st4))).
  assert (F5 : push_frame repo tag st st5).
  { eapply push_frame_trans; [exact F4'|]. by apply push_frame_quiet. }
  set (ep := "/v2/" +:+ repo +:+ "/manifests/" +:+ tag).
  match goal with |- context [request PUT ep (Some body) ?x st5] =>
    set (hs := x) end.
  pose proof (request_frame PUT ep (Some body) hs st5) as (D6 & U6 & _).
  pose proof (request_returns PUT ep (Some body) hs st5) as R6.
  assert (F6' : push_frame repo tag st5 (snd (request PUT ep (Some body) hs st5))).
  { apply request_push_frame. intros a. by apply t_manifest. }
  destruct (request PUT ep (Some body) hs st5) as [[r|e] st6];
    cbn [fst snd] in *.
  - split.
    { eapply push_frame_trans; [exact F5|].
      eapply push_frame_trans; [exact F6'|]. by apply push_frame_quiet. }
    intros _. destruct (R6 r eq_refl) as (_ & hs' & L6 & _).
    exists (disk st1), meta, cfg, rs. eexists.
    split; [done|]. split; [by rewrite Hidx|].
    assert (Dst2 : disk st2 = disk st1) by done.
    split; [by rewrite <- Dst2; apply R3|].
    split; [rewrite <- Dst2, <- D3; by apply R4|].
    cbn [trace set_disk add_log disk].
    split; [exact L6|]. split; [done|].
    split. { cbn. f_equal. by destruct F5 as (? & _). }
    split; [done|].
    rewrite D6. cbn. by rewrite D4, D3.
  - split; [|by destruct (err_response e)].
    eapply push_frame_trans; [exact F5|].
    eapply push_frame_trans; [exact F6'|].
    destruct (err_response e); by apply push_frame_quiet.
Qed.

End PushTarball.

(* ===================================================================== *)
(** * The published manifest *)
(* ===================================================================== *)

Section Manifest.
Context `{Platform}.

(** C1.  When a push returns, the last request it sent is the PUT of the
    manifest for [repository:tag]; the body is the serialised manifest
    whose [config] holds digest and size of the config file named by the
    index of the unpacked archive, and whose [layers] hold, one for one and
    in the order of the index, digest and size of its layer files. *)
Theorem manifest_lists_layers_in_order tempDir tarPath repo tag st :
  let out := pushTarball tempDir tarPath repo tag st in
  fst out = Ok tt ->
  exists D meta published payload,
    unpacked tempDir tarPath (disk st) = Some D
    /\ index_of tempDir D = Some meta
    /\ last (trace (snd out)) = Some published
    /\ req_method published = PUT
    /\ req_url published
       = registryUrl st +:+ "/v2/" +:+ repo +:+ "/manifests/" +:+ tag
    /\ req_data published = Some (stringify payload)
    /\ (exists c,
          read_at (Path.join tempDir (Config meta)) D = Some c
          /\ digest (config payload) = "sha256:" +:+ sha256_hex c
          /\ size (config payload) = String.length c)
    /\ Forall2
         (fun f l =>
            exists c,
              read_at (Path.join tempDir f) D = Some c
              /\ digest l = "sha256:" +:+ sha256_hex c
              /\ size l = String.length c)
         (Layers meta) (layers payload).
Proof.
  intros out Hok.
  destruct (pushTarball_run tempDir tarPath repo tag st) as [_ Hrun].
  destruct (Hrun Hok) as (D & meta & cfg & rs & published & HD & Hmeta & Hcfg
                          & Hrs & Hlast & Hm & Hu & Hd & _).
  exists D, meta, published, (buildManifest cfg rs).
  repeat (split; [assumption|]). split.
  - unfold blob_of in Hcfg.
    destruct (read_at _ D) as [c|]; [|done]. injection Hcfg as <-.
    by exists c.
  - cbn. clear -Hrs. induction Hrs as [|f r fs rs Hfr _ IH]; cbn.
    + constructor.
    + constructor; [|exact IH]. unfold blob_of in Hfr.
      destruct (read_at _ D) as [c|]; [|done]. injection Hfr as <-.
      by exists c.
Qed.

End Manifest.

(** A run of [manifest_lists_layers_in_order]: the archive of the scenario
    pushed to an empty registry. *)
Lemma manifest_lists_layers_witness :
  let P := Scenario.platform Scenario.open_registry in
  let st := Scenario.logged_in "http://myhost" None Scenario.images in
  let out :=
    pushTarball (H := P) ["tmp"; "sth-deploy-1"] ["images"; "svc.tar"]
      "ns/svc" "v1.2.3" st in
  fst out = Ok tt
  /\ exists published,
       last (trace (snd out)) = Some published
       /\ req_url published = "http://myhost/v2/ns/svc/manifests/v1.2.3"
       /\ req_data published
          = Some "sha256:#config-bytes|sha256:#layer-one,sha256:#layer-2".
Proof.
  intros P st out.
  assert (Hok : fst out = Ok tt) by (vm_compute; reflexivity).
  split; [exact Hok|].
  destruct (manifest_lists_layers_in_order (H := P) _ _ _ _ st Hok)
    as (D & meta & published & payload & _ & _ & Hlast & _ & Hurl & _).
  exists published. split; [exact Hlast|]. split; [exact Hurl|].
  assert (E : req_data <$> last (trace (snd out))
              = Some (Some "sha256:#config-bytes|sha256:#layer-one,sha256:#layer-2"))
    by (vm_compute; reflexivity).
  fold out in Hlast. rewrite Hlast in E. by injection E.
Defined.

(* ===================================================================== *)
(** * The session *)
(* ===================================================================== *)

Section Session.
Context `{Platform}.

Lemma run_call_frame c st :
  let st' := run_call c st in
  (authHeader st' = authHeader st \/ is_bearer (authHeader st'))
  /\ exists new,
       trace st' = trace st ++ new
       /\ (is_bearer (authHeader st) -> Forall carries_bearer new).
Proof.
  destruct c as [m ep payload hs|tempDir tarPath repo tag]; cbn.
  - destruct (request_frame m ep payload hs st) as (_ & _ & A & more & T & F).
    split; [exact A|]. eexists. split; [exact T|]. intros Hb.
    constructor; [by apply with_auth_bearer|].
    eapply Forall_impl; [exact F|]. intros r [turl|tok].
    + by apply with_auth_bearer.
    + exists tok. apply lookup_insert_eq.
  - destruct (pushTarball_run tempDir tarPath repo tag st)
      as [(_ & A & new & T & F) _].
    split; [exact A|]. exists new. split; [exact T|]. intros Hb.
    eapply Forall_impl; [exact F|]. intros r [_ Hr]. by apply Hr.
Qed.

(** C9.  After [login] the session header is changed by nothing but the
    upgrade to a Bearer header: a call leaves it as it is or leaves a
    Bearer header.  So from a state with a Bearer session on, through any
    sequence of calls, the session stays a Bearer session and every
    request sent carries a Bearer header. *)
Theorem session_never_reverts cs st :
  is_bearer (authHeader st) ->
  is_bearer (authHeader (run_calls cs st))
  /\ Forall carries_bearer (sent_since st (run_calls cs st))
  /\ forall c st0,
       authHeader (run_call c st0) = authHeader st0
       \/ is_bearer (authHeader (run_call c st0)).
Proof.
  intros Hb.
  assert (Hgen : is_bearer (authHeader (run_calls cs st))
                 /\ exists new, trace (run_calls cs st) = trace st ++ new
                                /\ Forall carries_bearer new).
  { revert st Hb. induction cs as [|c cs IH]; intros st Hb.
    - split; [done|]. exists []. by rewrite app_nil_r.
    - change (run_calls (c :: cs) st) with (run_calls cs (run_call c st)).
      destruct (run_call_frame c st) as (A & new & T & F).
      assert (Hb' : is_bearer (authHeader (run_call c st)))
        by by apply (is_bearer_step (authHeader st)).
      destruct (IH _ Hb') as (Hb'' & new' & T' & F').
      split; [exact Hb''|]. exists (new ++ new').
      split; [by rewrite T', T, app_assoc|].
      apply Forall_app. split; [by apply F|exact F']. }
  destruct Hgen as (Hb' & new & T & F).
  split; [exact Hb'|]. split.
  - by rewrite (sent_since_app _ _ _ T).
  - intros c st0. apply run_call_frame.
Qed.

End Session.

(** A run of [session_never_reverts]: a push followed by a request, by a
    client whose session is a Bearer session. *)
Lemma session_never_reverts_witness :
  let P := Scenario.platform Scenario.token_registry in
  let st :=
    Scenario.logged_in "http://registry.example" (Some "Bearer T0")
      Scenario.images in
  let cs :=
    [ call_pushTarball ["tmp"; "sth-deploy-1"] ["images"; "svc.tar"]
        "ns/svc" "v1";
      call_request GET "/v2/" None ∅ ] in
  is_bearer (authHeader st)
  /\ is_bearer (authHeader (run_calls (H := P) cs st))
  /\ Forall carries_bearer (sent_since st (run_calls (H := P) cs st))
  /\ length (sent_since st (run_calls (H := P) cs st)) = 5.
Proof.
  intros P st cs.
  assert (Hb : is_bearer (authHeader st)) by (by exists "T0").
  destruct (session_never_reverts (H := P) cs st Hb) as (H1 & H2 & _).
  split; [exact Hb|]. split; [exact H1|]. split; [exact H2|].
  vm_compute. reflexivity.
Defined.

(* ===================================================================== *)
(** * The blob pusher *)
(* ===================================================================== *)

Section BlobPusher.
Context `{Platform}.

Lemma checkBlob_eq repo digest st :
  checkBlob repo digest st =
  match request HEAD ("/v2/" +:+ repo +:+ "/blobs/" +:+ digest) None ∅ st with
  | (Ok _, st1) =>
      (Ok true, add_log ("Blob " +:+ short digest +:+ " already exists.") st1)
  | (Throw err, st1) =>
      (Ok false,
       match err_response err with
       | Some r =>
           if negb (status r =? 404)%N
           then add_log ("Warning checking blob: " +:+ message err) st1
           else st1
       | None => st1
       end)
  end.
Proof.
  unfold checkBlob, try_catch, bind.
  destruct (request HEAD _ None ∅ st) as [[r|err] st1]; [done|].
  destruct (err_response err) as [r|]; [|done]. by destruct (negb _).
Qed.

Lemma pushBlob_eq repo p st c :
  read_at p (disk st) = Some c ->
  let digest := "sha256:" +:+ sha256_hex c in
  pushBlob repo p st =
  match checkBlob repo digest
          (add_log ("Checking blob " +:+ short digest +:+ "...") st) with
  | (Ok true, st1) => (Ok (digest, String.length c), st1)
  | (Ok false, st1) => uploadBlob repo c digest (String.length c) st1
  | (Throw e, st1) => (Throw e, st1)
  end.
Proof.
  intros Hc digest. unfold pushBlob, bind, get. rewrite Hc. cbn -[checkBlob uploadBlob].
  destruct (checkBlob _ _ _) as [[[|]|e] st1]; done.
Qed.

Lemma request_methods m ep payload hs st :
  Forall (fun q => req_method q = m \/ req_method q = GET)
    (sent_since st (snd (request m ep payload hs st))).
Proof.
  destruct (request_frame m ep payload hs st) as (_ & _ & _ & more & T & F).
  rewrite (sent_since_app _ _ _ T). constructor; [by left|].
  eapply Forall_impl; [exact F|]. intros q [turl|tok]; [by right|by left].
Qed.

Lemma uploadBlob_posts repo bytes digest size st :
  exists more,
    sent_since st (snd (uploadBlob repo bytes digest size st))
    = first_config POST ("/v2/" +:+ repo +:+ "/blobs/uploads/") None ∅ st
      :: more.
Proof.
  unfold uploadBlob, bind, log, modify. cbn [fst snd].
  set (st0 := add_log _ st).
  destruct (request_frame POST ("/v2/" +:+ repo +:+ "/blobs/uploads/")
              None ∅ st0) as (_ & _ & _ & more & T & _).
  change (first_config POST ("/v2/" +:+ repo +:+ "/blobs/uploads/") None ∅ st0)
    with (first_config POST ("/v2/" +:+ repo +:+ "/blobs/uploads/") None ∅ st)
    in T.
  change (trace st0) with (trace st) in T.
  destruct (request POST _ None ∅ st0) as [[r|e] st1]; cbn [fst snd] in *.
  2:{ exists more. by apply sent_since_app. }
  destruct (headers r !! "location") as [loc|]; cbn.
  2:{ exists more. by apply sent_since_app. }
  unfold get, axios. cbn [fst snd].
  destruct (settle _); cbn [fst snd add_log add_request trace];
    (exists (more ++ [uploadConfig (authHeader st1)
                        (finalUploadUrl (registryUrl st1) loc digest) bytes size]);
     apply sent_since_app; cbn -[uploadConfig finalUploadUrl first_config]; rewrite T; by rewrite <- app_assoc).
Qed.

Lemma uploadBlob_puts repo bytes digest size st initResp location :
  let post :=
    request POST ("/v2/" +:+ repo +:+ "/blobs/uploads/") None ∅
      (add_log ("Uploading blob " +:+ short digest +:+ " ("
                +:+ toFixed2 size +:+ " MB)...") st) in
  fst post = Ok initResp ->
  headers initResp !! "location" = Some location ->
  let put :=
    uploadConfig (authHeader (snd post))
      (finalUploadUrl (registryUrl st) location digest) bytes size in
  let out := uploadBlob repo bytes digest size st in
  last (trace (snd out)) = Some put
  /\ fst out = match settle (net (trace (snd post)) put) with
               | Ok _ => Ok (digest, size)
               | Throw e => Throw e
               end.
Proof.
  intros post Hpost Hloc put out.
  assert (U : registryUrl (snd post) = registryUrl st).
  { by destruct (request_frame POST ("/v2/" +:+ repo +:+ "/blobs/uploads/")
                   None ∅ (add_log ("Uploading blob " +:+ short digest +:+ " ("
                     +:+ toFixed2 size +:+ " MB)...") st)) as (_ & U & _). }
  subst out put. unfold uploadBlob, bind, log, modify. cbn [fst snd].
  fold post.
  destruct post as [[r|e] st1]; cbn [fst snd] in *; [|done].
  injection Hpost as ->. rewrite Hloc. unfold get, axios. cbn [fst snd].
  rewrite U.
  destruct (settle _); cbn; by rewrite last_snoc.
Qed.

Lemma pushBlob_heads repo p st :
  (forall h q, req_method q = HEAD ->
     exists r, net h q = Some r /\ ok_status r = true) ->
  exists new,
    trace (snd (pushBlob repo p st)) = trace st ++ new
    /\ Forall (fun q => req_method q = HEAD) new.
Proof.
  intros Hnet. destruct (read_at p (disk st)) as [c|] eqn:Hc.
  - rewrite (pushBlob_eq repo p st c Hc). rewrite checkBlob_eq.
    set (st0 := add_log _ st).
    set (ep := "/v2/" +:+ repo +:+ "/blobs/" +:+ _).
    destruct (Hnet (trace st0) (first_config HEAD ep None ∅ st0) eq_refl)
      as (r & Hr & Hok).
    rewrite (request_accepted HEAD ep None ∅ st0 r Hr Hok). cbn [fst snd].
    exists [first_config HEAD ep None ∅ st0]. split; [done|].
    by constructor.
  - unfold pushBlob, bind, get. rewrite Hc. cbn. exists [].
    by rewrite app_nil_r.
Qed.

Lemma pushLayers_heads repo tempDir files st :
  (forall h q, req_method q = HEAD ->
     exists r, net h q = Some r /\ ok_status r = true) ->
  exists new,
    trace (snd (pushLayers repo tempDir files st)) = trace st ++ new
    /\ Forall (fun q => req_method q = HEAD) new.
Proof.
  intros Hnet. revert st. induction files as [|f files IH]; intros st.
  - exists []. cbn. by rewrite app_nil_r.
  - cbn [pushLayers]. unfold bind at 1.
    destruct (pushBlob_heads repo (Path.join tempDir f) st Hnet)
      as (n1 & T1 & F1).
    destruct (pushBlob repo (Path.join tempDir f) st) as [[res|e] st1];
      cbn [fst snd] in *; [|by exists n1].
    unfold bind at 1.
    destruct (IH st1) as (n2 & T2 & F2).
    destruct (pushLayers repo tempDir files st1) as [[rs|e] st2];
      cbn [fst snd ret] in *;
      (exists (n1 ++ n2); split; [by rewrite T2, T1, app_assoc|];
       by apply Forall_app).
Qed.

(** C7.  The push of one blob whose file holds [c].  When the existence
    check goes through, the push returns digest and size and has sent what
    the check sent and nothing else: HEAD requests and, at most, the GET of
    a token, no POST and no PUT.  When the check fails with a status other
    than 404, the warning is logged and the push goes on as the upload
    does: the POST for an upload location comes next, and once that
    returns a location the bytes are PUT there, the outcome of the PUT
    being the outcome of the push.  Under a registry that accepts every
    HEAD (as it does for blobs it holds) no push of a list of blobs sends
    anything but HEAD requests. *)
Theorem blob_check_decides_upload repo p st c :
  read_at p (disk st) = Some c ->
  let digest := "sha256:" +:+ sha256_hex c in
  let size := String.length c in
  let head :=
    request HEAD ("/v2/" +:+ repo +:+ "/blobs/" +:+ digest) None ∅
      (add_log ("Checking blob " +:+ short digest +:+ "...") st) in
  let out := pushBlob repo p st in
  (forall r,
     fst head = Ok r ->
     fst out = Ok (digest, size)
     /\ sent_since st (snd out) = sent_since st (snd head)
     /\ Forall (fun q => req_method q = HEAD \/ req_method q = GET)
          (sent_since st (snd out)))
  /\ (forall err r,
        fst head = Throw err -> err_response err = Some r ->
        status r <> 404%N ->
        let warned :=
          add_log ("Warning checking blob: " +:+ message err) (snd head) in
        out = uploadBlob repo c digest size warned
        /\ (exists more,
              sent_since warned (snd out)
              = first_config POST ("/v2/" +:+ repo +:+ "/blobs/uploads/")
                  None ∅ warned :: more)
        /\ forall initResp location,
             let post :=
               request POST ("/v2/" +:+ repo +:+ "/blobs/uploads/") None ∅
                 (add_log ("Uploading blob " +:+ short digest +:+ " ("
                           +:+ toFixed2 size +:+ " MB)...") warned) in
             fst post = Ok initResp ->
             headers initResp !! "location" = Some location ->
             let put :=
               uploadConfig (authHeader (snd post))
                 (finalUploadUrl (registryUrl st) location digest) c size in
             last (trace (snd out)) = Some put
             /\ fst out = match settle (net (trace (snd post)) put) with
                          | Ok _ => Ok (digest, size)
                          | Throw e => Throw e
                          end)
  /\ ((forall h q, req_method q = HEAD ->
         exists r, net h q = Some r /\ ok_status r = true) ->
      forall tempDir files st0,
        Forall (fun q => req_method q = HEAD)
          (sent_since st0 (snd (pushLayers repo tempDir files st0)))).
Proof.
  intros Hc digest size head out.
  pose proof (pushBlob_eq repo p st c Hc) as E. cbv zeta in E.
  fold digest size out in E. rewrite checkBlob_eq in E. fold head in E.
  split; [|split].
  - intros r Hr.
    pose proof (request_methods HEAD ("/v2/" +:+ repo +:+ "/blobs/" +:+ digest)
                  None ∅ (add_log ("Checking blob " +:+ short digest +:+ "...") st))
      as Hm.
    fold head in Hm.
    destruct head as [[r'|e] st1]; cbn in Hr; [|done].
    rewrite E. cbn [fst snd]. split; [done|]. split; [done|]. exact Hm.
  - intros err r Hthrow Hr Hst warned.
    assert (E' : out = uploadBlob repo c digest size warned).
    { rewrite E. destruct head as [[r'|e] st1]; cbn in Hthrow; [done|].
      injection Hthrow as ->. rewrite Hr.
      destruct (N.eqb_spec (status r) 404); [done|]. done. }
    split; [exact E'|]. rewrite E'. split.
    + apply uploadBlob_posts.
    + intros initResp location post Hpost Hloc put.
      pose proof (uploadBlob_puts repo c digest size warned initResp location
                    Hpost Hloc) as Hput.
      cbv zeta in Hput.
      assert (U : registryUrl warned = registryUrl st).
      { destruct (request_frame HEAD
                    ("/v2/" +:+ repo +:+ "/blobs/" +:+ digest) None ∅
                    (add_log ("Checking blob " +:+ short digest +:+ "...") st))
          as (_ & U & _). exact U. }
      rewrite U in Hput. exact Hput.
  - intros Hnet tempDir files st0.
    destruct (pushLayers_heads repo tempDir files st0 Hnet) as (new & T & F).
    by rewrite (sent_since_app _ _ _ T).
Qed.

End BlobPusher.

(** A run of [blob_check_decides_upload]: a registry that answers HEAD
    with 405 still gets the blob. *)
Lemma blob_check_witness :
  let P := Scenario.platform Scenario.headless_registry in
  let st :=
    Scenario.logged_in "http://myhost" None (Dir [("blob", File "layer-one")]) in
  let out := pushBlob (H := P) "ns/svc" ["blob"] st in
  read_at ["blob"] (disk st) = Some "layer-one"
  /\ fst out = Ok ("sha256:#layer-one", 9)
  /\ req_url <$> last (trace (snd out))
     = Some "http://uploads.example/1?session=7&digest=sha256:#layer-one"
  /\ In "Warning checking blob: Request failed with status code 405"
       (logs (snd out)).
Proof.
  intros P st out.
  assert (Hc : read_at ["blob"] (disk st) = Some "layer-one") by reflexivity.
  destruct (blob_check_decides_upload (H := P) "ns/svc" ["blob"] st
              "layer-one" Hc) as (_ & Hfail & _).
  pose (r := mkResponse 405 (list_to_map []) (list_to_map [])).
  pose (initResp :=
          mkResponse 200
            (list_to_map [("location", "http://uploads.example/1?session=7")])
            (list_to_map [])).
  destruct (Hfail (status_error r) r) as (_ & _ & Hput);
    [vm_compute; reflexivity | reflexivity | discriminate |].
  destruct (Hput initResp "http://uploads.example/1?session=7")
    as (Hlast & Hres); [vm_compute; reflexivity | vm_compute; reflexivity |].
  split; [exact Hc|]. split; [|split].
  - subst out. rewrite Hres. vm_compute. reflexivity.
  - subst out. rewrite Hlast. vm_compute. reflexivity.
  - vm_compute. tauto.
Defined.

(* ===================================================================== *)
(** * The file system *)
(* ===================================================================== *)

Section FsFacts.

Lemma assoc_set_same {A} k (v : A) l : assoc k (assoc_set k v l) = Some v.
Proof.
  induction l as [|[k' v'] l IH]; cbn.
  - by rewrite String.eqb_refl.
  - destruct (String.eqb k k') eqn:E; cbn; [by rewrite String.eqb_refl|].
    by rewrite E.
Qed.

Lemma assoc_set_other {A} k k' (v : A) l :
  k <> k' -> assoc k' (assoc_set k v l) = assoc k' l.
Proof.
  intros Hne. induction l as [|[k0 v0] l IH]; cbn.
  - destruct (String.eqb_spec k' k); [congruence|done].
  - destruct (String.eqb_spec k k0) as [->|]; cbn.
    + destruct (String.eqb_spec k' k0); [congruence|done].
    + destruct (String.eqb_spec k' k0); [done|exact IH].
Qed.

Lemma assoc_del_same {A} k (l : list (string * A)) :
  assoc k (assoc_del k l) = None.
Proof.
  induction l as [|[k' v'] l IH]; cbn; [done|].
  destruct (String.eqb k k') eqn:E; cbn; [exact IH|]. by rewrite E.
Qed.

Lemma lookup_cons s p es :
  lookup (s :: p) (Dir es)
  = match assoc s es with Some c => lookup p c | None => None end.
Proof. reflexivity. Qed.

Lemma lookup_remove p n : p <> [] -> lookup p (remove p n) = None.
Proof.
  revert n. induction p as [|s p IH]; intros n Hne; [done|].
  destruct n as [c|es]; [by destruct p|].
  destruct p as [|s' p'].
  - cbn. by rewrite assoc_del_same.
  - cbn [remove]. destruct (assoc s es) as [c|] eqn:E.
    + rewrite lookup_cons, assoc_set_same. by apply IH.
    + by rewrite lookup_cons, E.
Qed.

Lemma graft_lookup p t n n' : graft p t n = Some n' -> lookup p n' = Some t.
Proof.
  revert n n'. induction p as [|s p IH]; intros n n' Hg.
  - cbn in Hg. by injection Hg as ->.
  - destruct n as [c|es]; [done|]. cbn [graft] in Hg.
    destruct p as [|s' p'].
    + injection Hg as <-. by rewrite lookup_cons, assoc_set_same.
    + destruct (assoc s es) as [c|]; [|done].
      destruct (graft (s' :: p') t c) as [c'|] eqn:E; [|done].
      injection Hg as <-. rewrite lookup_cons, assoc_set_same. by eapply IH.
Qed.

(** What [ensureDir] and [writeFile] leave as it was. *)
Lemma ensureDir_lookup p n n' q :
  ensureDir p n = Some n' ->
  match lookup q n with
  | Some (File c) => lookup q n' = Some (File c)
  | Some (Dir _) => is_dir_at q n' = true
  | None => read_at q n' = None
  end.
Proof.
  revert n n' q. induction p as [|s p IH]; intros n n' q He.
  - destruct n as [c|es]; [done|]. injection He as <-.
    unfold is_dir_at, read_at. by destruct (lookup q (Dir es)) as [[|]|].
  - destruct n as [c|es]; [done|]. cbn [ensureDir] in He.
    destruct (ensureDir p (default (Dir []) (assoc s es))) as [c'|] eqn:E;
      [|done].
    injection He as <-.
    destruct q as [|s' q']; [reflexivity|].
    rewrite lookup_cons. unfold is_dir_at, read_at. rewrite lookup_cons.
    destruct (String.eqb_spec s s') as [<-|Hne].
    + rewrite assoc_set_same. specialize (IH _ _ q' E).
      unfold is_dir_at, read_at in IH.
      destruct (assoc s es) as [c|]; cbn [default] in IH; [exact IH|].
      destruct q'; [cbn in *; by destruct c'|exact IH].
    + rewrite (assoc_set_other s s') by done.
      by destruct (assoc s' es) as [c|]; [destruct (lookup q' c) as [[|]|]|].
Qed.

Lemma ensureDir_is_dir p n n' : ensureDir p n = Some n' -> is_dir_at p n' = true.
Proof.
  revert n n'. induction p as [|s p IH]; intros n n' He.
  - destruct n; [done|]. by injection He as <-.
  - destruct n as [c|es]; [done|]. cbn [ensureDir] in He.
    destruct (ensureDir p _) as [c'|] eqn:E; [|done]. injection He as <-.
    unfold is_dir_at. rewrite lookup_cons, assoc_set_same. by eapply IH.
Qed.

Lemma writeFile_read p c n n' : writeFile p c n = Some n' -> read_at p n' = Some c.
Proof.
  revert n n'. induction p as [|s p IH]; intros n n' Hw.
  - destruct n; [|done]. by injection Hw as <-.
  - destruct n as [c0|es]; [done|]. cbn [writeFile] in Hw.
    unfold read_at. destruct (assoc s es) as [ch|] eqn:E.
    + destruct (writeFile p c ch) as [ch'|] eqn:E'; [|done].
      injection Hw as <-. rewrite lookup_cons, assoc_set_same.
      by apply (IH _ _ E').
    + destruct p; [|done]. injection Hw as <-.
      by rewrite lookup_cons, assoc_set_same.
Qed.

Lemma writeFile_lookup p c n n' q :
  writeFile p c n = Some n' -> q <> p ->
  match lookup q n with
  | Some (File c0) => lookup q n' = Some (File c0)
  | Some (Dir _) => is_dir_at q n' = true
  | None => read_at q n' = None
  end.
Proof.
  revert n n' q. induction p as [|s p IH]; intros n n' q Hw Hq.
  - destruct n as [c0|es]; [|done]. injection Hw as <-.
    destruct q; [done|]. done.
  - destruct n as [c0|es]; [done|]. cbn [writeFile] in Hw.
    destruct q as [|s' q'].
    { cbn. unfold is_dir_at. 
      destruct (assoc s es); [destruct (writeFile p c n)|destruct p];
        try done; by injection Hw as <-. }
    rewrite lookup_cons. unfold is_dir_at, read_at.
    destruct (assoc s es) as [ch|] eqn:E.
    + destruct (writeFile p c ch) as [ch'|] eqn:E'; [|done].
      injection Hw as <-. rewrite lookup_cons.
      destruct (String.eqb_spec s s') as [<-|Hne].
      * rewrite assoc_set_same, E.
        assert (Hq' : q' <> p) by congruence.
        apply (IH _ _ q' E' Hq').
      * rewrite (assoc_set_other s s') by done.
        by destruct (assoc s' es) as [x|]; [destruct (lookup q' x) as [[|]|]|].
    + destruct p; [|done]. injection Hw as <-. rewrite lookup_cons.
      destruct (String.eqb_spec s s') as [<-|Hne].
      * rewrite assoc_set_same, E. destruct q'; [congruence|done].
      * rewrite (assoc_set_other s s') by done.
        by destruct (assoc s' es) as [x|]; [destruct (lookup q' x) as [[|]|]|].
Qed.

Lemma ensureDir_read p n n' q :
  ensureDir p n = Some n' -> read_at q n' = read_at q n.
Proof.
  intros He. pose proof (ensureDir_lookup p n n' q He) as Hl.
  unfold read_at, is_dir_at in *.
  destruct (lookup q n) as [[c|es]|]; [by rewrite Hl| |done].
  by destruct (lookup q n') as [[|]|].
Qed.

Lemma ensureDir_keeps_dir p n n' q :
  ensureDir p n = Some n' -> is_dir_at q n = true -> is_dir_at q n' = true.
Proof.
  intros He Hd. pose proof (ensureDir_lookup p n n' q He) as Hl.
  unfold is_dir_at in Hd. by destruct (lookup q n) as [[c|es]|].
Qed.

Lemma writeFile_read_other p c n n' q :
  writeFile p c n = Some n' -> q <> p -> read_at q n' = read_at q n.
Proof.
  intros Hw Hq. pose proof (writeFile_lookup p c n n' q Hw Hq) as Hl.
  unfold read_at, is_dir_at in *.
  destruct (lookup q n) as [[c0|es]|]; [by rewrite Hl| |done].
  by destruct (lookup q n') as [[|]|].
Qed.

Lemma writeFile_keeps_dir p c n n' q :
  writeFile p c n = Some n' -> is_dir_at q n = true -> is_dir_at q n' = true.
Proof.
  intros Hw Hd. destruct (decide (q = p)) as [->|Hq].
  - exfalso. revert n n' Hw Hd. induction p as [|s p IH]; intros n n' Hw Hd.
    + by destruct n.
    + destruct n as [|es]; [done|]. cbn [writeFile] in Hw.
      unfold is_dir_at in Hd. rewrite lookup_cons in Hd.
      destruct (assoc s es) as [ch|]; [|done].
      destruct (writeFile p c ch) as [ch'|] eqn:E'; [|done].
      by apply (IH _ _ E').
  - pose proof (writeFile_lookup p c n n' q Hw Hq) as Hl.
    unfold is_dir_at in Hd. by destruct (lookup q n) as [[c0|es]|].
Qed.

Lemma is_dir_exists q n : is_dir_at q n = true -> exists_at q n = true.
Proof. unfold is_dir_at, exists_at. by destruct (lookup q n) as [[|]|]. Qed.

End FsFacts.

(* ===================================================================== *)
(** * The extraction *)
(* ===================================================================== *)

Section Extraction.

Lemma extract_entry_effect tempDir e root root' :
  extract_entry tempDir e root = Some root' ->
  (type e = directory -> is_dir_at (outPath tempDir e) root' = true)
  /\ (type e <> directory ->
      read_at (outPath tempDir e) root' = Some (body e))
  /\ (forall q, is_dir_at q root = true -> is_dir_at q root' = true)
  /\ (forall q, type e = directory \/ q <> outPath tempDir e ->
                read_at q root' = read_at q root)
  /\ (forall q c, read_at q root = Some c -> exists c', read_at q root' = Some c').
Proof.
  unfold extract_entry. fold (outPath tempDir e). intros He.
  destruct (type e) eqn:Et.
  1,3: destruct (ensureDir (dirname (outPath tempDir e)) root) as [r1|] eqn:E1;
       [|done].
  1,2: split; [done|]; split; [intros _; by eapply writeFile_read|];
       split; [intros q Hq; eapply writeFile_keeps_dir; [exact He|];
               by eapply ensureDir_keeps_dir|];
       split; [intros q [?|Hq]; [done|];
               rewrite (writeFile_read_other _ _ _ _ q He Hq);
               by eapply ensureDir_read|];
       intros q c Hc; destruct (decide (q = outPath tempDir e)) as [->|Hq];
       [exists (body e); by eapply writeFile_read|];
       exists c; rewrite (writeFile_read_other _ _ _ _ q He Hq);
       by rewrite (ensureDir_read _ _ _ q E1).
  split; [intros _; by eapply ensureDir_is_dir|]. split; [done|].
  split; [intros q; by eapply ensureDir_keeps_dir|].
  split; [intros q _; by eapply ensureDir_read|].
  intros q c Hc. exists c. by rewrite (ensureDir_read _ _ _ q He).
Qed.

Lemma extract_entries_keep tempDir es root root' :
  extract_entries tempDir es root = Some root' ->
  (forall q, is_dir_at q root = true -> is_dir_at q root' = true)
  /\ (forall q c, read_at q root = Some c ->
        exists c', read_at q root' = Some c'
                   /\ ((forall e', In e' es -> type e' <> directory ->
                                   outPath tempDir e' <> q) -> c' = c)).
Proof.
  revert root. induction es as [|e es IH]; intros root Hex.
  - injection Hex as <-. split; [done|]. intros q c Hc. by exists c.
  - cbn [extract_entries] in Hex.
    destruct (extract_entry tempDir e root) as [r1|] eqn:E1; [|done].
    destruct (extract_entry_effect _ _ _ _ E1) as (_ & _ & Hd & Hr & Hx).
    destruct (IH _ Hex) as (Hd' & Hr').
    split; [intros q Hq; by apply Hd', Hd|].
    intros q c Hc. destruct (Hx q c Hc) as (c1 & Hc1).
    destruct (Hr' q c1 Hc1) as (c' & Hc' & Hsame).
    exists c'. split; [exact Hc'|]. intros Hfree.
    rewrite Hsame by (intros e' He'; apply Hfree; by right).
    assert (Heq : read_at q r1 = read_at q root).
    { apply Hr.
      assert (Hcase : type e = directory \/ type e <> directory)
        by (destruct (type e); [right|left|right]; done).
      destruct Hcase as [?|Hnd]; [by left|right].
      intros ->. exact (Hfree e (or_introl eq_refl) Hnd eq_refl). }
    congruence.
Qed.

(** C8, as the code has it.  Every entry of the archive is written,
    whatever its path holds: where the extraction succeeds, the path of a
    directory entry is a directory and the path of any other entry is a
    file, with the bytes of the entry unless a later entry was written to
    the same path. *)
Theorem every_entry_is_extracted tempDir es root root' :
  extract_entries tempDir es root = Some root' ->
  forall es1 e es2,
    es = es1 ++ e :: es2 ->
    (type e = directory -> is_dir_at (outPath tempDir e) root' = true)
    /\ (type e <> directory ->
        exists c,
          read_at (outPath tempDir e) root' = Some c
          /\ ((forall e', In e' es2 -> type e' <> directory ->
                          outPath tempDir e' <> outPath tempDir e) ->
              c = body e)).
Proof.
  intros Hex es1 e es2 ->. revert root Hex.
  induction es1 as [|e1 es1 IH]; intros root Hex; cbn [app extract_entries] in Hex.
  - destruct (extract_entry tempDir e root) as [r1|] eqn:E1; [|done].
    destruct (extract_entry_effect _ _ _ _ E1) as (Hdir & Hfile & _).
    destruct (extract_entries_keep _ _ _ _ Hex) as (Hd & Hr).
    split; [intros Ht; by apply Hd, Hdir|].
    intros Ht. by apply Hr, Hfile.
  - destruct (extract_entry tempDir e1 root) as [r1|]; [|done].
    by apply (IH r1).
Qed.

End Extraction.

(** C8 fails as it is worded: the entry [.git/config] of the archive of
    the scenario is written like the others. *)
Lemma git_entry_is_extracted :
  exists e root',
    In e Scenario.archive
    /\ Js.includes (name e) ".git" = true
    /\ extract_entries ["tmp"; "x"] Scenario.archive (Dir []) = Some root'
    /\ read_at ["tmp"; "x"; ".git"; "config"] root' = Some (body e).
Proof.
  exists (mkEntry ".git/config" file "[core]"). eexists.
  split; [cbn; tauto|]. split; [reflexivity|].
  split; [vm_compute; reflexivity|reflexivity].
Qed.

(** A run of [every_entry_is_extracted] on that archive. *)
Lemma every_entry_witness :
  exists root',
    extract_entries ["tmp"; "x"] Scenario.archive (Dir []) = Some root'
    /\ is_dir_at ["tmp"; "x"; "l1"] root' = true
    /\ exists c, read_at ["tmp"; "x"; ".git"; "config"] root' = Some c.
Proof.
  destruct (extract_entries ["tmp"; "x"] Scenario.archive (Dir []))
    as [root'|] eqn:E; [|vm_compute in E; discriminate].
  exists root'. split; [reflexivity|].
  split.
  - apply (every_entry_is_extracted _ _ _ _ E
             [mkEntry "manifest.json" file "INDEX";
              mkEntry "abc.json" file "config-bytes"]
             (mkEntry "l1/" directory "")
             [mkEntry "l1/layer.tar" file "layer-one";
              mkEntry "l2.tar" file "layer-2";
              mkEntry ".git/config" file "[core]"] eq_refl).
    reflexivity.
  - destruct (every_entry_is_extracted _ _ _ _ E
                [mkEntry "manifest.json" file "INDEX";
                 mkEntry "abc.json" file "config-bytes";
                 mkEntry "l1/" directory "";
                 mkEntry "l1/layer.tar" file "layer-one";
                 mkEntry "l2.tar" file "layer-2"]
                (mkEntry ".git/config" file "[core]") [] eq_refl) as [_ Hf].
    destruct Hf as (c & Hc & _); [discriminate|]. by exists c.
Defined.

(* ===================================================================== *)
(** * The manifest locator *)
(* ===================================================================== *)

Section Locator.
Context `{Platform} `{Workstation}.

Lemma node_nested_ind (P : node -> Prop) :
  (forall c, P (File c)) ->
  (forall es, Forall (fun e => P (snd e)) es -> P (Dir es)) ->
  forall n, P n.
Proof.
  intros Hfile Hdir. fix IH 1. intros [c|es]; [apply Hfile|].
  apply Hdir. induction es as [|[f n] es IHes]; constructor; [apply IH|exact IHes].
Qed.

(** The files [getAllFiles] adds lie below the directory it was given,
    and no directory on the way down to them has [.git] in its name. *)
Lemma getAllFiles_below n :
  forall dirPath acc,
  exists rels,
    getAllFiles dirPath n acc = acc ++ map (app dirPath) rels
    /\ Forall (below_without_git) rels.
Proof.
  induction n as [c|es IH] using node_nested_ind; intros dirPath acc.
  { exists []. cbn. by rewrite app_nil_r. }
  cbn [getAllFiles]. revert acc.
  induction IH as [|[f n'] rest Hn' _ IHrest]; intros acc.
  - exists []. cbn. by rewrite app_nil_r.
  - cbn [snd] in Hn'. destruct n' as [c|es'].
    + destruct (IHrest (acc ++ [dirPath ++ [f]])) as (rels & E & F).
      exists ([f] :: rels). split.
      * rewrite E. cbn. by rewrite <- app_assoc.
      * constructor; [|done]. split; [done|]. by constructor.
    + destruct (Js.includes f ".git") eqn:Egit; cbn [negb].
      * apply IHrest.
      * destruct (Hn' (dirPath ++ [f]) acc) as (r1 & E1 & F1).
        destruct (IHrest (getAllFiles (dirPath ++ [f]) (Dir es') acc))
          as (r2 & E2 & F2).
        exists (map (cons f) r1 ++ r2). split.
        -- rewrite E2, E1, map_app, app_assoc. f_equal. f_equal.
           rewrite map_map. apply map_ext. intros rel.
           by rewrite <- app_assoc.
        -- apply Forall_app. split; [|done].
           apply List.Forall_forall. intros rel Hin.
           apply in_map_iff in Hin as (rel' & <- & Hin).
           rewrite List.Forall_forall in F1.
           destruct (F1 rel' Hin) as (Hne & Hgit).
           split; [done|].
           destruct rel' as [|s rel'']; [done|].
           change (removelast (f :: s :: rel''))
             with (f :: removelast (s :: rel'')).
           by constructor.
Qed.

Lemma find_first {A} (f : A -> bool) l x :
  List.find f l = Some x ->
  exists before after,
    l = before ++ x :: after /\ f x = true
    /\ Forall (fun y => f y = false) before.
Proof.
  induction l as [|y l IH]; [done|]. cbn.
  destruct (f y) eqn:E.
  - intros [= ->]. by exists [], l.
  - intros Hf. destruct (IH Hf) as (b & a & -> & Hx & Hb).
    exists (y :: b), a. split; [done|]. split; [done|]. by constructor.
Qed.

(** What [findYamlFile] returns: the first file of the traversal of [dir]
    that is a manifest for the identifier, relative to [baseDir]. *)
Lemma findYamlFile_first root dir identifier baseDir t :
  findYamlFile root dir identifier baseDir = Some t ->
  exists d rel before after,
    lookup dir root = Some d
    /\ getAllFiles dir d [] = before ++ (dir ++ rel) :: after
    /\ t = Js.join "/" (Path.relative baseDir (dir ++ rel))
    /\ below_without_git rel
    /\ is_manifest identifier root (dir ++ rel) = true
    /\ Forall (fun f => is_manifest identifier root f = false) before.
Proof.
  unfold findYamlFile. destruct (lookup dir root) as [d|]; [|done].
  destruct (List.find _ _) as [f|] eqn:Ef; [|done]. intros [= <-].
  destruct (find_first _ _ _ Ef) as (before & after & E & Hf & Hb).
  destruct (getAllFiles_below d dir []) as (rels & Er & Fr).
  cbn [app] in Er. rewrite Er in E.
  assert (Hin : In f (map (app dir) rels)).
  { rewrite E. apply in_or_app. right. by left. }
  apply in_map_iff in Hin as (rel & <- & Hin).
  rewrite List.Forall_forall in Fr.
  exists d, rel, before, after. rewrite Er.
  split; [done|]. split; [exact E|]. split; [done|].
  split; [by apply Fr|]. split; [exact Hf|exact Hb].
Qed.


End Locator.



(* ===================================================================== *)
(** * The deployment handler *)
(* ===================================================================== *)

Section HandlerFacts.
Context `{Platform} `{Workstation}.

Lemma writeFile_keeps_exists p c n n' q :
  writeFile p c n = Some n' -> exists_at q n = true -> exists_at q n' = true.
Proof.
  intros Hw Hq. destruct (decide (q = p)) as [->|Hne].
  - pose proof (writeFile_read _ _ _ _ Hw) as Hr. unfold read_at in Hr.
    unfold exists_at. by destruct (lookup p n').
  - pose proof (writeFile_lookup _ _ _ _ q Hw Hne) as Hl.
    unfold exists_at, is_dir_at in *.
    destruct (lookup q n) as [[c0|es]|]; [by rewrite Hl| |done].
    by destruct (lookup q n') as [[|]|].
Qed.

Lemma login_frame user pass url st :
  let st' := snd (login user pass url st) in
  registryUrl st' = base_url url
  /\ disk st' = disk st
  /\ exists new,
       trace st' = trace st ++ new
       /\ Forall (fun q => req_method q = GET) new.
Proof.
  unfold login, bind, try_catch, modify, log. cbn [fst snd].
  set (st0 := set_authHeader _ (set_registryUrl _ st)).
  destruct (request_frame GET "/v2/" None ∅ st0) as (D & U & _ & more & T & F).
  assert (Hnew : Forall (fun q => req_method q = GET)
                   (first_config GET "/v2/" None ∅ st0 :: more)).
  { constructor; [done|]. eapply Forall_impl; [exact F|]. by intros q [|]. }
  destruct (request GET "/v2/" None ∅ st0) as [[r|e] st1]; cbn [fst snd] in *.
  all: split; [exact U|]; split; [exact D|]; by eexists.
Qed.

Lemma locate_frame repoDir hint repoName st :
  trace (snd (locate repoDir hint repoName st)) = trace st
  /\ disk (snd (locate repoDir hint repoName st)) = disk st
  /\ exists t, fst (locate repoDir hint repoName st) = Ok t.
Proof.
  unfold locate, bind, get, log, modify, ret. cbn [fst snd].
  destruct (truthy hint) as [x|]; cbn [fst snd].
  2:{ destruct (truthy _); cbn; eauto. }
  destruct (negb (is_blank x)); cbn [fst snd].
  2:{ destruct (truthy _); cbn; eauto. }
  destruct (exists_at _ _); cbn [fst snd].
  2:{ destruct (truthy _); cbn; eauto. }
  destruct (is_dir_at _ _); cbn [fst snd].
  - destruct (truthy (findYamlFile _ _ _ _)); cbn; eauto.
  - destruct (truthy (Some x)); cbn; eauto.
Qed.

Lemma updateYaml_frame filePath identifier newTag st :
  let out := updateYaml filePath identifier newTag st in
  trace (snd out) = trace st
  /\ (fst out = Ok tt ->
      forall q, exists_at q (disk st) = true ->
                exists_at q (disk (snd out)) = true).
Proof.
  unfold updateYaml, bind, get. cbn [fst snd].
  destruct (read_at filePath (disk st)) as [bytes|]; [|done].
  destruct (writeFile filePath _ (disk st)) as [root|] eqn:Ew; [|done].
  cbn. split; [done|]. intros _ q. by eapply writeFile_keeps_exists.
Qed.

Lemma lift_git_eq r st :
  lift_git r st = (match r with Some e => Throw e | None => Ok tt end, st).
Proof. by destruct r. Qed.

(** The Git operations send nothing to the registry, and leave the clone
    where it was put. *)
Lemma gitops_steps_run repoDir rq repoName st :
  let out := gitops_steps repoDir rq repoName st in
  trace (snd out) = trace st
  /\ (fst out = Ok true -> exists_at repoDir (disk (snd out)) = true).
Proof.
  unfold gitops_steps, bind, get, log, modify. cbn [fst snd].
  set (st0 := if exists_at repoDir (disk st) then _ else st).
  assert (T0 : trace st0 = trace st)
    by (subst st0; by destruct (exists_at repoDir (disk st))).
  destruct (ensureDir repoDir (disk st0)) as [root|]; [|done].
  cbn [fst snd disk set_disk add_log].
  destruct (git_clone _ _ _) as [e|tree]; [done|].
  destruct (graft repoDir tree root) as [cloned|] eqn:Eg; [|done].
  cbn [fst snd].
  set (st1 := set_disk cloned _).
  assert (X1 : exists_at repoDir (disk st1) = true).
  { unfold exists_at. cbn. by rewrite (graft_lookup _ _ _ _ Eg). }
  assert (T1 : trace st1 = trace st) by exact T0.
  destruct (locate_frame repoDir (manifestPath rq) repoName st1)
    as (T2 & D2 & t & E2).
  destruct (locate repoDir (manifestPath rq) repoName st1) as [r2 st2].
  cbn [fst snd] in *. subst r2. rewrite T1 in T2.
  destruct t as [target|]; [|by cbn].
  cbn [fst snd].
  set (st3 := add_log _ st2).
  destruct (updateYaml_frame (Path.join repoDir target)
              (identifier_of repoName) (tag rq) st3) as (T4 & X4).
  destruct (updateYaml _ _ _ st3) as [[[]|e] st4]; cbn [fst snd] in *;
    [|by rewrite T4].
  rewrite !lift_git_eq.
  assert (X5 : exists_at repoDir (disk st4) = true).
  { apply X4; [done|]. cbn. by rewrite D2. }
  destruct (git_add _ _); cbn [fst snd add_log trace]; [by rewrite T4|].
  destruct (git_commit _ _ _); cbn [fst snd add_log trace]; [by rewrite T4|].
  destruct (git_push _ _ _); cbn [fst snd add_log trace disk ret];
    by rewrite T4.
Qed.

(** The steps of the handler: the requests they send, and the clone
    directory at the end of a deployment that went through. *)
Lemma deploy_steps_run h rq st :
  let out := deploy_steps h rq st in
  let regHost := fst (split_coordinate (registryCoordinate rq) (serviceName rq)) in
  let repoName := snd (split_coordinate (registryCoordinate rq) (serviceName rq)) in
  (exists new,
     trace (snd out) = trace st ++ new
     /\ Forall (traffic (base_url regHost) repoName (tag rq)) new)
  /\ (fst out = Ok true ->
      exists_at (repoDir_of h (serviceName rq)) (disk (snd out)) = true).
Proof.
  cbv zeta. unfold deploy_steps.
  destruct (split_coordinate (registryCoordinate rq) (serviceName rq))
    as [regHost repoName]. cbn [fst snd].
  set (finalTarPath := match tarPath rq with Some p => p | None => _ end).
  unfold bind, get, log, modify. cbn [fst snd].
  destruct (exists_at finalTarPath (disk st)); cbn [negb fst snd].
  2:{ split; [|done]. exists []. by rewrite app_nil_r. }
  set (st0 := add_log _ (add_log _ (add_log _ st))).
  destruct (login_frame (reg_username (settings rq)) (reg_password (settings rq))
              regHost st0) as (U1 & _ & n1 & T1 & F1).
  assert (F1' : Forall (traffic (base_url regHost) repoName (tag rq)) n1).
  { eapply Forall_impl; [exact F1|]. intros q. apply t_get. }
  destruct (login _ _ regHost st0) as [[[]|e] st1]; cbn [fst snd] in *.
  2:{ split; [|done]. by exists n1. }
  set (st2 := add_log _ st1).
  destruct (pushTarball_run (tempDir_of h) finalTarPath repoName (tag rq) st2)
    as [(_ & _ & n2 & T2 & F2) _].
  assert (F2' : Forall (traffic (base_url regHost) repoName (tag rq)) n2).
  { eapply Forall_impl; [exact F2|]. intros q [Hq _].
    change (registryUrl st2) with (registryUrl st1) in Hq. by rewrite U1 in Hq. }
  destruct (pushTarball _ _ _ _ st2) as [[[]|e] st3]; cbn [fst snd] in *.
  2:{ split; [|done]. exists (n1 ++ n2).
      split; [by rewrite T2, app_assoc; cbn; rewrite T1|]. by apply Forall_app. }
  destruct (gitops_steps_run (repoDir_of h (serviceName rq)) rq repoName st3)
    as (T3 & X3).
  destruct (gitops_steps _ rq repoName st3) as [r st4]; cbn [fst snd] in *.
  split; [|destruct r; done].
  exists (n1 ++ n2). split; [|by apply Forall_app].
  assert (T : trace st4 = trace st ++ n1 ++ n2)
    by (rewrite T3, T2, app_assoc; cbn; by rewrite T1).
  by destruct r.
Qed.

End HandlerFacts.

(* ===================================================================== *)
(** * The requests of a run, one by one *)
(* ===================================================================== *)

Section RepositoryFrames.
Context `{Platform}.

Lemma settle_throw_response o err r :
  settle o = Throw err -> err_response err = Some r -> o = Some r.
Proof.
  destruct o as [x|]; unfold settle; [|by intros [= <-]].
  destruct (ok_status x); [done|]. by intros [= <-] [= ->].
Qed.

(** What one [request] sends: attempts of the request of the caller, with
    the headers of the caller but for [Authorization], and the request for
    a token at the URL of the challenge. *)
Lemma request_sends m ep payload hs st :
  exists new,
    trace (snd (request m ep payload hs st)) = trace st ++ new
    /\ Forall
         (fun q =>
            (exists a,
               q = mkRequest m (registryUrl st +:+ ep) a payload
               /\ forall k, k <> "Authorization" -> a !! k = hs !! k)
            \/ (req_method q = GET
                /\ challenged_at (registryUrl st) (req_url q)))
         new.
Proof.
  assert (Hfirst :
            exists a,
              first_config m ep payload hs st
              = mkRequest m (registryUrl st +:+ ep) a payload
              /\ forall k, k <> "Authorization" -> a !! k = hs !! k).
  { eexists. split; [reflexivity|]. intros k Hk. by apply with_auth_other. }
  unfold request, bind, try_catch, get, axios.
  fold (first_config m ep payload hs st).
  destruct (settle (net (trace st) _)) as [r|err] eqn:Hs; cbn.
  { eexists. split; [reflexivity|]. constructor; [by left|constructor]. }
  assert (Hone :
            exists new,
              trace st ++ [first_config m ep payload hs st] = trace st ++ new
              /\ Forall
                   (fun q =>
                      (exists a,
                         q = mkRequest m (registryUrl st +:+ ep) a payload
                         /\ forall k, k <> "Authorization" -> a !! k = hs !! k)
                      \/ (req_method q = GET
                          /\ challenged_at (registryUrl st) (req_url q)))
                   new).
  { eexists. split; [reflexivity|]. constructor; [by left|constructor]. }
  destruct (err_response err) as [r|] eqn:Hr; [|exact Hone].
  pose proof (settle_throw_response _ _ _ Hs Hr) as Hnet.
  destruct (status r =? 401)%N eqn:Hst; [|exact Hone].
  destruct (truthy _) as [ch|] eqn:Hch; [|exact Hone].
  destruct (Js.startsWith _ _) eqn:Hb; [|exact Hone].
  unfold log, modify.
  destruct (Js.quoted_param "realm" ch) as [realm|] eqn:Hrealm;
    [|exact Hone].
  cbn.
  match goal with |- context [settle (net ?h ?q)] =>
    assert (Hq : req_method q = GET
                 /\ challenged_at (registryUrl st) (req_url q));
    [|destruct (settle (net h q)) as [tr|e]] end; cbn.
  { split; [done|]. exists (trace st), ep, (first_config m ep payload hs st), r.
    split; [done|]. split; [exact Hnet|].
    unfold challenge_token_url. by rewrite Hst, Hch, Hb, Hrealm. }
  2:{ eexists. split; [by rewrite <- !app_assoc|].
      constructor; [by left|]. constructor; [by right|constructor]. }
  destruct (truthy (data tr !! "token")) as [tok|]; cbn.
  2:{ eexists. split; [by rewrite <- !app_assoc|].
      constructor; [by left|]. constructor; [by right|constructor]. }
  eexists. split; [by rewrite <- !app_assoc|].
  constructor; [by left|]. constructor; [by right|].
  constructor; [|constructor]. left. eexists. split; [reflexivity|].
  intros k Hk. rewrite lookup_insert_ne by done. by apply with_auth_other.
Qed.

Lemma repository_frame_refl repo tag st : repository_frame repo tag st st.
Proof. split; [done|]. exists []. by rewrite app_nil_r. Qed.

Lemma repository_frame_trans repo tag st1 st2 st3 :
  repository_frame repo tag st1 st2 -> repository_frame repo tag st2 st3 ->
  repository_frame repo tag st1 st3.
Proof.
  intros (U1 & n1 & T1 & F1) (U2 & n2 & T2 & F2).
  split; [congruence|].
  exists (n1 ++ n2). split; [by rewrite T2, T1, app_assoc|].
  apply Forall_app. split; [done|]. by rewrite U1 in F2.
Qed.

Lemma repository_frame_quiet repo tag st st' :
  registryUrl st' = registryUrl st -> trace st' = trace st ->
  repository_frame repo tag st st'.
Proof. intros U T. split; [done|]. exists []. by rewrite app_nil_r. Qed.

(** The requests of one [request] are requests of the run as soon as its
    attempts are. *)
Lemma request_repository_frame repo tag m ep payload hs st :
  (forall a, (forall k, k <> "Authorization" -> a !! k = hs !! k) ->
             registry_request (registryUrl st) repo tag
               (mkRequest m (registryUrl st +:+ ep) a payload)) ->
  repository_frame repo tag st (snd (request m ep payload hs st)).
Proof.
  intros Hshape.
  destruct (request_frame m ep payload hs st) as (_ & U & _).
  destruct (request_sends m ep payload hs st) as (new & T & F).
  split; [exact U|]. exists new. split; [exact T|].
  eapply Forall_impl; [exact F|].
  intros q [(a & -> & Ha)|[Hm Hc]]; [by apply Hshape|by apply rr_token].
Qed.

Lemma checkBlob_repository repo tag bytes st :
  let digest := "sha256:" +:+ sha256_hex bytes in
  repository_frame repo tag st (snd (checkBlob repo digest st)).
Proof.
  intros digest. unfold checkBlob, try_catch, bind.
  pose proof (request_repository_frame repo tag HEAD
                ("/v2/" +:+ repo +:+ "/blobs/" +:+ digest) None ∅ st) as F.
  assert (F1 : repository_frame repo tag st
                 (snd (request HEAD ("/v2/" +:+ repo +:+ "/blobs/" +:+ digest)
                         None ∅ st))).
  { apply F. intros a _. by eapply rr_head. }
  destruct (request HEAD _ None ∅ st) as [[r|err] st1]; cbn in *; [done|].
  destruct (err_response err) as [r|]; [destruct (negb _)|]; cbn; done.
Qed.

Lemma uploadBlob_repository repo tag bytes size st :
  let digest := "sha256:" +:+ sha256_hex bytes in
  repository_frame repo tag st (snd (uploadBlob repo bytes digest size st)).
Proof.
  intros digest. unfold uploadBlob, bind, log, modify.
  set (st0 := add_log _ st).
  set (ep := "/v2/" +:+ repo +:+ "/blobs/uploads/").
  assert (F1 : repository_frame repo tag st (snd (request POST ep None ∅ st0))).
  { eapply repository_frame_trans;
      [apply (repository_frame_quiet repo tag st st0); done|].
    apply request_repository_frame. intros a _. by apply rr_post. }
  pose proof (request_returns POST ep None ∅ st0) as R.
  destruct (request POST ep None ∅ st0) as [[r|err] st1]; cbn [fst snd] in *;
    [|exact F1].
  destruct (R r eq_refl) as (Hok & hs' & _ & Hnet).
  destruct (headers r !! "location") as [loc|] eqn:Hloc; [|exact F1].
  unfold get, axios. cbn [fst snd].
  set (put := uploadConfig _ _ _ _).
  assert (F2 : repository_frame repo tag st (add_request put st1)).
  { eapply repository_frame_trans; [exact F1|].
    split; [done|]. exists [put]. split; [done|].
    constructor; [|constructor].
    destruct F1 as (U1 & _).
    apply (rr_upload _ _ _ _ loc bytes);
      [reflexivity| |reflexivity| |reflexivity].
    - unfold put, uploadConfig. cbn [req_headers].
      rewrite with_auth_other by done.
      rewrite lookup_insert_ne by done. apply lookup_insert_eq.
    - rewrite U1. eexists _, _, r.
      split; [|split; [|split; [exact Hnet|by split]]]; done. }
  destruct (settle _); exact F2.
Qed.

Lemma pushBlob_repository repo tag p st :
  repository_frame repo tag st (snd (pushBlob repo p st)).
Proof.
  unfold pushBlob, bind, get.
  destruct (read_at p (disk st)) as [c|]; cbn [fst snd];
    [|apply repository_frame_refl].
  unfold log, modify. cbn [fst snd].
  set (digest := "sha256:" +:+ sha256_hex c).
  set (st0 := add_log _ st).
  assert (F0 : repository_frame repo tag st st0)
    by by apply repository_frame_quiet.
  pose proof (checkBlob_repository repo tag c st0) as F1.
  cbv zeta in F1. fold digest in F1.
  destruct (checkBlob repo digest st0) as [[[|]|err] st1]; cbn [fst snd] in *.
  - exact (repository_frame_trans _ _ _ _ _ F0 F1).
  - eapply repository_frame_trans;
      [|apply (uploadBlob_repository repo tag c (String.length c) st1)].
    exact (repository_frame_trans _ _ _ _ _ F0 F1).
  - exact (repository_frame_trans _ _ _ _ _ F0 F1).
Qed.

Lemma pushLayers_repository repo tag tempDir files st :
  repository_frame repo tag st (snd (pushLayers repo tempDir files st)).
Proof.
  revert st. induction files as [|f files IH]; intros st; cbn.
  { apply repository_frame_refl. }
  unfold bind.
  pose proof (pushBlob_repository repo tag (Path.join tempDir f) st) as F1.
  destruct (pushBlob repo (Path.join tempDir f) st) as [[r|e] st1];
    cbn [fst snd] in *; [|exact F1].
  specialize (IH st1).
  destruct (pushLayers repo tempDir files st1) as [[rs|e] st2];
    cbn [fst snd] in *; exact (repository_frame_trans _ _ _ _ _ F1 IH).
Qed.

Lemma pushTarball_repository tempDir tarPath repo tag st :
  repository_frame repo tag st (snd (pushTarball tempDir tarPath repo tag st)).
Proof.
  unfold pushTarball, bind, get, log, modify.
  cbn [fst snd disk add_log].
  destruct (ensureDir tempDir (disk st)) as [root0|];
    [|by apply repository_frame_quiet].
  cbn [fst snd disk add_log set_disk].
  set (st0 := add_log _ (set_disk root0 _)).
  pose proof (extract_frame tarPath tempDir st0) as (U0 & _ & T0 & _).
  destruct (extract tarPath tempDir st0) as [[[]|e] st1]; cbn [fst snd] in *;
    [|by apply repository_frame_quiet].
  assert (F1 : repository_frame repo tag st st1)
    by by apply repository_frame_quiet.
  destruct (exists_at _ (disk st1)); cbn [negb]; [|exact F1].
  destruct (read_at _ (disk st1) ≫= readJson) as [[|meta metas]|];
    [exact F1|..|exact F1].
  cbn [fst snd].
  set (st2 := add_log _ (add_log _ st1)).
  assert (F2 : repository_frame repo tag st st2)
    by by apply repository_frame_quiet.
  pose proof (pushBlob_repository repo tag (Path.join tempDir (Config meta)) st2)
    as F3.
  destruct (pushBlob repo _ st2) as [[cfg|e] st3]; cbn [fst snd] in *;
    [|exact (repository_frame_trans _ _ _ _ _ F2 F3)].
  pose proof (pushLayers_repository repo tag tempDir (Layers meta) st3) as F4.
  assert (F4' : repository_frame repo tag st
                  (snd (pushLayers repo tempDir (Layers meta) st3))).
  { eapply repository_frame_trans; [|exact F4].
    exact (repository_frame_trans _ _ _ _ _ F2 F3). }
  destruct (pushLayers repo tempDir (Layers meta) st3) as [[rs|e] st4];
    cbn [fst snd] in *; [|exact F4'].
  unfold try_catch, bind, log, modify. cbn [fst snd add_log].
  set (body := stringify (buildManifest cfg rs)).
  set (st5 := add_log _ (add_log _ (add_log _ st4))).
  assert (F5 : repository_frame repo tag st st5).
  { eapply repository_frame_trans; [exact F4'|].
    by apply repository_frame_quiet. }
  set (ep := "/v2/" +:+ repo +:+ "/manifests/" +:+ tag).
  match goal with |- context [request PUT ep (Some body) ?x st5] =>
    set (hs := x) end.
  assert (F6 : repository_frame repo tag st
                 (snd (request PUT ep (Some body) hs st5))).
  { eapply repository_frame_trans; [exact F5|].
    apply request_repository_frame. intros a Ha.
    apply rr_manifest; [done| |done].
    cbn [req_headers]. rewrite Ha by done. unfold hs.
    rewrite with_auth_other by done.
    rewrite lookup_insert_ne by done. apply lookup_insert_eq. }
  destruct (request PUT ep (Some body) hs st5) as [[r|e] st6];
    cbn [fst snd] in *.
  - eapply repository_frame_trans; [exact F6|].
    by apply repository_frame_quiet.
  - eapply repository_frame_trans; [exact F6|].
    destruct (err_response e); by apply repository_frame_quiet.
Qed.

(** [login] sends the probe of [/v2/] at the base URL it keeps, and the
    requests for a token the probe is answered with. *)
Lemma login_repository repo tag user pass url st :
  let st' := snd (login user pass url st) in
  registryUrl st' = base_url url
  /\ exists new,
       trace st' = trace st ++ new
       /\ Forall (registry_request (base_url url) repo tag) new.
Proof.
  unfold login, bind, try_catch, modify, log. cbn [fst snd].
  set (st0 := set_authHeader _ (set_registryUrl _ st)).
  assert (F : repository_frame repo tag st0
                (snd (request GET "/v2/" None ∅ st0))).
  { apply request_repository_frame. intros a _. by apply rr_probe. }
  destruct (request GET "/v2/" None ∅ st0) as [[r|e] st1]; cbn [fst snd] in *.
  all: destruct F as (U & new & T & F); split; [exact U|]; by exists new.
Qed.

End RepositoryFrames.

Section Coordinate.
Context `{Platform} `{Workstation}.

Lemma split_without_separator s :
  Js.includes s "/" = false -> Js.split "/"%char s = [s].
Proof.
  induction s as [|a s IH]; [done|]. cbn [Js.includes Js.split].
  intros Hi. apply orb_false_iff in Hi as [Hp Hi].
  cbn in Hp. destruct (ascii_dec "/" a) as [<-|Hne].
  { by destruct s. }
  destruct (Ascii.eqb_spec a "/"); [congruence|].
  by rewrite (IH Hi).
Qed.

Lemma run_deploy_trace h rq st :
  exists st0,
    trace st0 = trace st
    /\ trace (snd (run_deploy h rq st)) = trace (snd (deploy_steps h rq st0))
    /\ disk (snd (run_deploy h rq st)) = disk (snd (deploy_steps h rq st0))
    /\ (success (fst (run_deploy h rq st)) = true ->
        fst (deploy_steps h rq st0) = Ok true).
Proof.
  unfold run_deploy.
  set (st0 := add_log _ st). exists st0. split; [done|].
  destruct (deploy_steps h rq st0) as [[[|]|e] st1]; cbn; [done|done|].
  by destruct (err_response e).
Qed.

(** The requests of the steps of the handler. *)
Lemma deploy_steps_requests h rq st :
  let regHost :=
    fst (split_coordinate (registryCoordinate rq) (serviceName rq)) in
  let repoName :=
    snd (split_coordinate (registryCoordinate rq) (serviceName rq)) in
  exists new,
    trace (snd (deploy_steps h rq st)) = trace st ++ new
    /\ Forall (registry_request (base_url regHost) repoName (tag rq)) new.
Proof.
  cbv zeta. unfold deploy_steps.
  destruct (split_coordinate (registryCoordinate rq) (serviceName rq))
    as [regHost repoName]. cbn [fst snd].
  set (finalTarPath := match tarPath rq with Some p => p | None => _ end).
  unfold bind, get, log, modify. cbn [fst snd].
  destruct (exists_at finalTarPath (disk st)); cbn [negb fst snd].
  2:{ exists []. by rewrite app_nil_r. }
  set (st0 := add_log _ (add_log _ (add_log _ st))).
  destruct (login_repository repoName (tag rq) (reg_username (settings rq))
              (reg_password (settings rq)) regHost st0) as (U1 & n1 & T1 & F1).
  destruct (login _ _ regHost st0) as [[[]|e] st1]; cbn [fst snd] in *.
  2:{ by exists n1. }
  set (st2 := add_log _ st1).
  destruct (pushTarball_repository (tempDir_of h) finalTarPath repoName
              (tag rq) st2) as (_ & n2 & T2 & F2).
  change (registryUrl st2) with (registryUrl st1) in F2. rewrite U1 in F2.
  assert (T : trace (snd (pushTarball (tempDir_of h) finalTarPath repoName
                            (tag rq) st2)) = trace st ++ n1 ++ n2).
  { rewrite T2, app_assoc. cbn. by rewrite T1. }
  destruct (pushTarball _ _ _ _ st2) as [[[]|e] st3]; cbn [fst snd] in *.
  2:{ exists (n1 ++ n2). split; [exact T|]. by apply Forall_app. }
  destruct (gitops_steps_run (repoDir_of h (serviceName rq)) rq repoName st3)
    as (T3 & _).
  destruct (gitops_steps _ rq repoName st3) as [r st4]; cbn [fst snd] in *.
  exists (n1 ++ n2). split; [|by apply Forall_app].
  rewrite <- T. by destruct r.
Qed.


(** C2, as the code has it.  A push that returns has removed its
    extraction directory.  The directory of the clone is not removed by
    the run that made it: when the run reports success, it is still on the
    disk. *)
Theorem extraction_removed_clone_kept tempDir tarPath repo tag st h rq st' :
  tempDir <> [] ->
  (fst (pushTarball tempDir tarPath repo tag st) = Ok tt ->
   exists_at tempDir (disk (snd (pushTarball tempDir tarPath repo tag st)))
   = false)
  /\ (success (fst (run_deploy h rq st')) = true ->
      exists_at (repoDir_of h (serviceName rq))
        (disk (snd (run_deploy h rq st'))) = true).
Proof.
  intros Hne. split.
  - intros Hok.
    destruct (pushTarball_run tempDir tarPath repo tag st) as [_ Hrun].
    destruct (Hrun Hok) as (D & meta & cfg & rs & published & _ & _ & _ & _
                            & _ & _ & _ & _ & ->).
    unfold exists_at. by rewrite lookup_remove.
  - intros Hs.
    destruct (run_deploy_trace h rq st') as (st0 & _ & _ & D & Hok).
    rewrite D. by apply deploy_steps_run, Hok.
Qed.

End Coordinate.


(** C2 fails as it is worded.  The deployment of the scenario goes
    through and leaves the directory of its clone on the disk; and a push
    that fails, here at a registry that refuses it, leaves its extraction
    directory. *)
Lemma temporary_directories_left :
  let W := Scenario.workstation Scenario.gitops true in
  let out :=
    run_deploy (H := Scenario.platform Scenario.open_registry) (H0 := W)
      Scenario.machine Scenario.order (Scenario.fresh Scenario.images) in
  let refused :=
    run_deploy (H := Scenario.platform (fun _ _ => Scenario.answer 500 [] []))
      (H0 := W) Scenario.machine Scenario.order
      (Scenario.fresh Scenario.images) in
  (success (fst out) = true
   /\ exists_at (repoDir_of Scenario.machine "svc") (disk (snd out)) = true)
  /\ (success (fst refused) = false
      /\ exists_at (tempDir_of Scenario.machine) (disk (snd refused)) = true).
Proof. vm_compute. repeat split. Qed.

(** A run of [extraction_removed_clone_kept]. *)
Lemma extraction_removed_witness :
  let P := Scenario.platform Scenario.open_registry in
  let W := Scenario.workstation Scenario.gitops true in
  let st := Scenario.logged_in "http://myhost" None Scenario.images in
  let pushed :=
    pushTarball (H := P) ["tmp"; "sth-deploy-1"] ["images"; "svc.tar"]
      "ns/svc" "v1" st in
  let out :=
    run_deploy (H := P) (H0 := W) Scenario.machine Scenario.order
      (Scenario.fresh Scenario.images) in
  fst pushed = Ok tt
  /\ exists_at ["tmp"; "sth-deploy-1"] (disk (snd pushed)) = false
  /\ success (fst out) = true
  /\ exists_at ["tmp"; "repo_svc_2"] (disk (snd out)) = true.
Proof.
  intros P W st pushed out.
  assert (H1 : fst pushed = Ok tt) by (vm_compute; reflexivity).
  assert (H2 : success (fst out) = true) by (vm_compute; reflexivity).
  destruct (extraction_removed_clone_kept (H := P) (H0 := W)
              ["tmp"; "sth-deploy-1"] ["images"; "svc.tar"] "ns/svc" "v1" st
              Scenario.machine Scenario.order (Scenario.fresh Scenario.images))
    as [Ha Hb]; [discriminate|].
  split; [exact H1|]. split; [exact (Ha H1)|]. split; [exact H2|].
  exact (Hb H2).
Defined.

(* ===================================================================== *)
(** * The tag patcher *)
(* ===================================================================== *)

Section Matcher.
Import TagPatcher.

Lemma strip_prefix_Some p s r : strip_prefix p s = Some r <-> s = p ++ r.
Proof.
  revert s. induction p as [|a p IH]; intros s; cbn.
  - split; [by intros [= ->]|by intros ->].
  - destruct s as [|b s]; [done|].
    destruct (N.eqb_spec a b) as [<-|Hne].
    + rewrite IH. split; [by intros ->|by intros [= ->]].
    + split; [done|]. intros [= ? ?]. congruence.
Qed.

Lemma strip_prefix_app p r : strip_prefix p (p ++ r) = Some r.
Proof. by apply strip_prefix_Some. Qed.

Lemma dot_star_spec s m r :
  dot_star s = (m, r) ->
  s = m ++ r /\ forallb is_dot m = true
  /\ (r = [] \/ exists c r', r = c :: r' /\ is_line_terminator c = true).
Proof.
  revert m r. induction s as [|c s IH]; intros m r; cbn.
  - intros [= <- <-]. by repeat split; [left].
  - destruct (is_dot c) eqn:Ec.
    + destruct (dot_star s) as [m' r'] eqn:E. intros [= <- <-].
      destruct (IH _ _ eq_refl) as (-> & Hm & Hr).
      split; [done|]. split; [|done]. cbn. by rewrite Ec.
    + intros [= <- <-]. split; [done|]. split; [done|]. right.
      exists c, s. split; [done|]. unfold is_dot in Ec.
      by destruct (is_line_terminator c).
Qed.

Lemma dot_star_lit_sound lit s m r :
  dot_star_lit lit s = Some (m, r) ->
  s = m ++ lit ++ r /\ forallb is_dot m = true.
Proof.
  assert (Hhere : forall s m r,
            (fun r => ([], r)) <$> strip_prefix lit s = Some (m, r) ->
            s = m ++ lit ++ r /\ forallb is_dot m = true).
  { intros s0 m0 r0. destruct (strip_prefix lit s0) as [x|] eqn:E; [|done].
    intros [= <- <-]. by apply strip_prefix_Some in E. }
  revert m r. induction s as [|c s IH]; intros m r; cbn [dot_star_lit].
  - apply Hhere.
  - destruct (is_dot c) eqn:Ec; [|apply Hhere].
    destruct (dot_star_lit lit s) as [[m' r']|]; [|apply Hhere].
    intros [= <- <-]. destruct (IH _ _ eq_refl) as (-> & Hm).
    split; [done|]. cbn. by rewrite Ec.
Qed.

Lemma dot_star_lit_complete lit m r :
  forallb is_dot m = true -> dot_star_lit lit (m ++ lit ++ r) <> None.
Proof.
  induction m as [|c m IH]; intros Hm.
  - cbn [app]. destruct (lit ++ r) as [|c s] eqn:E; cbn [dot_star_lit].
    + rewrite <- E, strip_prefix_app. done.
    + destruct (is_dot c); [destruct (dot_star_lit lit s) as [[? ?]|]|];
        try done; rewrite <- E, strip_prefix_app; done.
  - cbn in Hm. apply andb_true_iff in Hm as [Hc Hm].
    cbn [app dot_star_lit]. rewrite Hc.
    specialize (IH Hm). by destruct (dot_star_lit lit (m ++ lit ++ r)) as [[? ?]|].
Qed.

Lemma ws_plus_sound {R} (k : list N -> option R) s w x :
  ws_plus k s = Some (w, x) ->
  exists s', s = w ++ s' /\ w <> [] /\ forallb is_white_space w = true
             /\ k s' = Some x.
Proof.
  revert w x. induction s as [|c s IH]; intros w x; cbn [ws_plus]; [done|].
  destruct (is_white_space c) eqn:Ec; [|done].
  destruct (ws_plus k s) as [[w' x']|].
  - intros [= <- <-]. destruct (IH _ _ eq_refl) as (s' & -> & _ & Hw & Hk).
    exists s'. split; [done|]. split; [done|]. split; [|done].
    cbn. by rewrite Ec.
  - destruct (k s) as [y|] eqn:Ek; [|done]. intros [= <- <-].
    exists s. split; [done|]. split; [done|]. split; [|done].
    cbn. by rewrite Ec.
Qed.

Lemma ws_plus_complete {R} (k : list N -> option R) w s' :
  w <> [] -> forallb is_white_space w = true -> k s' <> None ->
  ws_plus k (w ++ s') <> None.
Proof.
  intros Hne Hw Hk. induction w as [|c w IH]; [done|].
  cbn in Hw. apply andb_true_iff in Hw as [Hc Hw].
  cbn [app ws_plus]. rewrite Hc.
  destruct w as [|c' w'].
  - cbn [app]. destruct (ws_plus k s') as [[? ?]|]; [done|].
    by destruct (k s').
  - assert (Hne' : c' :: w' <> []) by done. specialize (IH Hne' Hw).
    by destruct (ws_plus k ((c' :: w') ++ s')) as [[? ?]|].
Qed.

(** What a match of the pattern at the start of [s] is. *)
Lemma match_at_sound identifier s g1 g2 rest :
  match_at identifier s = Some (g1, g2, rest) ->
  s = g1 ++ g2 ++ rest
  /\ (exists ws mid,
        g1 = image_kw ++ ws ++ mid ++ identifier ++ [c_colon]
        /\ ws <> [] /\ forallb is_white_space ws = true
        /\ forallb is_dot mid = true)
  /\ forallb is_dot g2 = true
  /\ (rest = [] \/ exists c r', rest = c :: r' /\ is_line_terminator c = true).
Proof.
  unfold match_at.
  destruct (strip_prefix image_kw s) as [s1|] eqn:E1; [|done].
  apply strip_prefix_Some in E1 as ->.
  destruct (ws_plus _ s1) as [[ws [mid s2]]|] eqn:E2; [|done].
  apply ws_plus_sound in E2 as (s' & -> & Hne & Hws & E3).
  apply dot_star_lit_sound in E3 as (-> & Hmid).
  destruct (dot_star s2) as [m r] eqn:E4. intros [= <- <- <-].
  apply dot_star_spec in E4 as (-> & Hm & Hr).
  split; [cbn [app]; rewrite <- !app_assoc; reflexivity|].
  split; [by exists ws, mid|done].
Qed.

Lemma match_at_complete identifier ws mid post :
  ws <> [] -> forallb is_white_space ws = true -> forallb is_dot mid = true ->
  match_at identifier
    (image_kw ++ ws ++ mid ++ identifier ++ [c_colon] ++ post) <> None.
Proof.
  intros Hne Hws Hmid. unfold match_at. rewrite strip_prefix_app.
  pose proof (ws_plus_complete (dot_star_lit (identifier ++ [c_colon]))
                ws (mid ++ identifier ++ [c_colon] ++ post) Hne Hws) as Hk.
  destruct (ws_plus _ _) as [[w [m s2]]|].
  - by destruct (dot_star s2).
  - exfalso. apply Hk; [|done].
    replace (mid ++ identifier ++ [c_colon] ++ post)
      with (mid ++ (identifier ++ [c_colon]) ++ post)
      by by rewrite <- !app_assoc.
    by apply dot_star_lit_complete.
Qed.

Lemma match_at_shorter identifier s g1 g2 rest :
  match_at identifier s = Some (g1, g2, rest) -> length rest < length s.
Proof.
  intros Hm. apply match_at_sound in Hm as (-> & (ws & mid & -> & _) & _).
  rewrite !length_app. cbn. lia.
Qed.

End Matcher.

Section Replacement.
Import TagPatcher.

Lemma substitute_plain matched g1 g2 before after t :
  no_dollar t = true -> substitute matched g1 g2 before after t = t.
Proof.
  induction t as [|c t IH]; [done|]. cbn [no_dollar forallb substitute].
  intros Hc. apply andb_true_iff in Hc as [Hc Ht]. rewrite Hc.
  by rewrite (IH Ht).
Qed.

(** The replacement text [$1] followed by a tag without [$] is the first
    group followed by the tag: a digit at the start of the tag makes a
    two-digit reference above the number of groups, which is read as [$1]
    and the digit. *)
Lemma substitute_replacement matched g1 g2 before after newTag :
  no_dollar newTag = true ->
  substitute matched g1 g2 before after (replacement newTag) = g1 ++ newTag.
Proof.
  intros Ht. unfold replacement.
  pose proof (substitute_plain matched g1 g2 before after newTag Ht) as Hs.
  cbn [substitute]. rewrite N.eqb_refl. cbn [negb].
  change (49 =? c_dollar)%N with false. change (49 =? c_amp)%N with false.
  change (49 =? c_backtick)%N with false. change (49 =? c_quote)%N with false.
  change (is_digit 49) with true. cbv iota.
  assert (Hone : one_digit g1 g2 49 (substitute matched g1 g2 before after newTag)
                 = g1 ++ newTag) by (unfold one_digit; cbn; by rewrite Hs).
  destruct newTag as [|e t'']; [exact Hone|].
  destruct (is_digit e) eqn:Ee; [|exact Hone].
  assert (Hbig : (2 <? 10 * (49 - 48) + (e - 48))%N = true).
  { apply N.ltb_lt. unfold is_digit in Ee. lia. }
  rewrite Hbig. exact Hone.
Qed.

Lemma replace_from_rewrites identifier newTag fuel before s :
  no_dollar newTag = true -> length s < fuel ->
  rewrites identifier newTag s
    (replace_from fuel identifier (replacement newTag) before s).
Proof.
  intros Ht. revert before s.
  induction fuel as [|fuel IH]; intros before s Hlen; [lia|].
  cbn [replace_from].
  destruct (match_at identifier s) as [[[g1 g2] rest]|] eqn:Em.
  - rewrite substitute_replacement by done. rewrite <- app_assoc.
    eapply rw_hit; [exact Em|]. apply IH.
    apply match_at_shorter in Em. lia.
  - destruct s as [|c s]; [constructor|].
    apply rw_skip; [exact Em|]. apply IH. cbn in Hlen. lia.
Qed.

Lemma newContent_rewrites content identifier newTag :
  no_dollar newTag = true ->
  rewrites identifier newTag content (newContent content identifier newTag).
Proof. intros Ht. apply replace_from_rewrites; [done|lia]. Qed.

End Replacement.

Section Lines.
Import TagPatcher.

Lemma lines_not_nil s : lines s <> [].
Proof.
  destruct s as [|c s]; [done|]. cbn.
  destruct (is_line_terminator c); [done|]. by destruct (lines s).
Qed.

Lemma line_nil k : line k [] = [].
Proof. by destruct k as [|[|k]]. Qed.

Lemma line_cons_lt c s k :
  is_line_terminator c = true ->
  line k (c :: s) = match k with 0 => [] | S k' => line k' s end.
Proof. intros Hc. unfold line. cbn. rewrite Hc. by destruct k. Qed.

Lemma line_cons_dot c s k :
  is_line_terminator c = false ->
  line k (c :: s) = match k with 0 => c :: line 0 s | S _ => line k s end.
Proof.
  intros Hc. unfold line. cbn. rewrite Hc.
  pose proof (lines_not_nil s). destruct (lines s) as [|l ls]; [done|].
  by destruct k.
Qed.

Lemma is_dot_lt c : is_dot c = true <-> is_line_terminator c = false.
Proof. unfold is_dot. by destruct (is_line_terminator c). Qed.

Lemma count_lt_app a b : count_lt (a ++ b) = count_lt a + count_lt b.
Proof. unfold count_lt. by rewrite filter_app, length_app. Qed.

Lemma count_lt_cons c s :
  count_lt (c :: s) = (if is_line_terminator c then 1 else 0) + count_lt s.
Proof.
  unfold count_lt. rewrite filter_cons.
  destruct (decide (is_line_terminator c = true)) as [->|Hc]; [done|].
  by destruct (is_line_terminator c).
Qed.

Lemma count_lt_dots s : forallb is_dot s = true -> count_lt s = 0.
Proof.
  induction s as [|c s IH]; [done|]. cbn [forallb]. intros Hs.
  apply andb_true_iff in Hs as [Hc Hs]. rewrite count_lt_cons, (IH Hs).
  apply is_dot_lt in Hc. by rewrite Hc.
Qed.

Lemma length_lines s : length (lines s) = S (count_lt s).
Proof.
  induction s as [|c s IH]; [done|]. rewrite count_lt_cons. cbn [lines].
  destruct (is_line_terminator c); [cbn; by rewrite IH|].
  pose proof (lines_not_nil s). destruct (lines s); [done|]. exact IH.
Qed.

(** The lines of a text put after a text with [count_lt a] line breaks. *)
Lemma line_app a b k :
  line k (a ++ b)
  = if decide (k < count_lt a) then line k a
    else if decide (k = count_lt a) then line k a ++ line 0 b
    else line (k - count_lt a) b.
Proof.
  revert k. induction a as [|c a IH]; intros k.
  - cbn [app]. change (count_lt []) with 0. rewrite line_nil.
    repeat case_decide; try lia; [by subst|by rewrite Nat.sub_0_r].
  - cbn [app]. rewrite count_lt_cons.
    destruct (is_line_terminator c) eqn:Ec.
    + rewrite !line_cons_lt by done. destruct k as [|k].
      * repeat case_decide; try lia; done.
      * rewrite IH. repeat case_decide; try lia; done.
    + rewrite !line_cons_dot by done. destruct k as [|k].
      * rewrite IH. repeat case_decide; try lia; done.
      * rewrite IH. repeat case_decide; try lia; done.
Qed.

Lemma line_dots s k :
  forallb is_dot s = true -> line k s = match k with 0 => s | S _ => [] end.
Proof.
  revert k. induction s as [|c s IH]; intros k Hs;
    [rewrite line_nil; by destruct k|].
  cbn in Hs. apply andb_true_iff in Hs as [Hc Hs]. apply is_dot_lt in Hc.
  rewrite line_cons_dot by done. destruct k; by rewrite (IH _ Hs).
Qed.

Lemma line_forall (P : N -> bool) s k :
  forallb P s = true -> forallb P (line k s) = true.
Proof.
  revert k. induction s as [|c s IH]; intros k Hs; [by rewrite line_nil|].
  cbn in Hs. apply andb_true_iff in Hs as [Hc Hs].
  destruct (is_line_terminator c) eqn:Ec.
  - rewrite line_cons_lt by done. destruct k; [done|]. by apply IH.
  - rewrite line_cons_dot by done. destruct k; [|by apply IH].
    cbn. by rewrite Hc, IH.
Qed.

End Lines.

Section Patch.
Import TagPatcher.
Variables identifier newTag : list N.
Hypothesis identifier_in_line : forallb is_dot identifier = true.
Hypothesis tag_in_line : forallb is_dot newTag = true.

Lemma line_is_dot s k : forallb is_dot (line k s) = true.
Proof.
  revert k. induction s as [|c s IH]; intros k; [by rewrite line_nil|].
  destruct (is_line_terminator c) eqn:Ec.
  - rewrite line_cons_lt by done. by destruct k.
  - rewrite line_cons_dot by done. destruct k; [|done].
    cbn. rewrite IH. apply is_dot_lt in Ec. by rewrite Ec.
Qed.

Lemma line0_prefix s : exists r, s = line 0 s ++ r.
Proof.
  induction s as [|c s [r IH]]; [by exists []|].
  destruct (is_line_terminator c) eqn:Ec.
  - rewrite line_cons_lt by done. by exists (c :: s).
  - rewrite line_cons_dot by done. exists r. cbn. by rewrite <- IH.
Qed.

Lemma count_lt_group ws mid :
  forallb is_dot mid = true ->
  count_lt (image_kw ++ ws ++ mid ++ identifier ++ [c_colon]) = count_lt ws.
Proof.
  intros Hmid. rewrite !count_lt_app.
  rewrite (count_lt_dots mid Hmid), (count_lt_dots identifier identifier_in_line).
  change (count_lt image_kw) with 0. change (count_lt [c_colon]) with 0. lia.
Qed.

Lemma match_ends_here s g1 g2 rest :
  match_at identifier s = Some (g1, g2, rest) ->
  match_ends identifier s (count_lt g1).
Proof.
  intros Hm.
  apply match_at_sound in Hm as (-> & (ws & mid & -> & Hne & Hws & Hmid) & _).
  exists [], ws, mid, (g2 ++ rest). rewrite <- !app_assoc.
  split; [done|]. split; [done|]. split; [done|]. split; [done|].
  rewrite count_lt_group by done. cbn [app]. rewrite count_lt_app.
  by change (count_lt image_kw) with 0.
Qed.

Lemma match_ends_app p s k :
  match_ends identifier s k -> match_ends identifier (p ++ s) (count_lt p + k).
Proof.
  intros (pre & ws & mid & post & -> & Hne & Hws & Hmid & <-).
  exists (p ++ pre), ws, mid, post. rewrite <- !app_assoc.
  split; [done|]. split; [done|]. split; [done|]. split; [done|].
  by rewrite !count_lt_app.
Qed.

Lemma rewrites_after_match rest o :
  rest = [] \/ (exists c r', rest = c :: r' /\ is_line_terminator c = true) ->
  rewrites identifier newTag rest o -> line 0 o = [].
Proof.
  intros Hrest Hrw. destruct Hrw as [|c s o Hm Hrw|s g1 g2 rest' o Hm Hrw].
  - done.
  - destruct Hrest as [|(c' & r' & [= -> ->] & Hc)]; [done|].
    by rewrite line_cons_lt.
  - apply match_at_sound in Hm as (-> & (ws & mid & -> & _) & _).
    destruct Hrest as [|(c' & r' & [= <- _] & Hc)]; done.
Qed.

(** The lines of a match and of what replaces it. *)
Lemma line_of_match g1 x tail k :
  forallb is_dot x = true ->
  line k (g1 ++ x ++ tail)
  = if decide (k < count_lt g1) then line k g1
    else if decide (k = count_lt g1) then line k g1 ++ x ++ line 0 tail
    else line (k - count_lt g1) tail.
Proof.
  intros Hx. rewrite line_app. repeat case_decide; try done.
  - f_equal. rewrite line_app, (count_lt_dots x Hx).
    repeat case_decide; try lia. by rewrite line_dots.
  - rewrite line_app, (count_lt_dots x Hx).
    repeat case_decide; try lia. by rewrite Nat.sub_0_r.
Qed.

Lemma rewrites_count s o :
  rewrites identifier newTag s o -> count_lt o = count_lt s.
Proof.
  induction 1 as [|c s o Hm Hrw IH|s g1 g2 rest o Hm Hrw IH]; [done|..].
  - by rewrite !count_lt_cons, IH.
  - apply match_at_sound in Hm as (-> & _ & Hg2 & _).
    rewrite !count_lt_app, IH.
    by rewrite (count_lt_dots g2 Hg2), (count_lt_dots newTag tag_in_line).
Qed.

(** A line changes only where a match ends. *)
Lemma rewrites_changes s o :
  rewrites identifier newTag s o ->
  forall k, line k o <> line k s -> match_ends identifier s k.
Proof.
  induction 1 as [|c s o Hm Hrw IH|s g1 g2 rest o Hm Hrw IH]; intros k Hk;
    [done|..].
  - destruct (is_line_terminator c) eqn:Ec.
    + rewrite !line_cons_lt in Hk by done. destruct k as [|k]; [done|].
      specialize (IH _ Hk). apply (match_ends_app [c]) in IH.
      rewrite count_lt_cons, Ec in IH. exact IH.
    + rewrite !line_cons_dot in Hk by done.
      assert (Hk' : line k o <> line k s) by (destruct k; congruence).
      specialize (IH _ Hk'). apply (match_ends_app [c]) in IH.
      rewrite count_lt_cons, Ec in IH. exact IH.
  - pose proof (match_ends_here _ _ _ _ Hm) as Hhere.
    apply match_at_sound in Hm as (-> & _ & Hg2 & Hrest).
    rewrite (line_of_match g1 g2 rest k Hg2) in Hk.
    rewrite (line_of_match g1 newTag o k tag_in_line) in Hk.
    repeat case_decide; [done|by subst|].
    specialize (IH _ Hk). apply (match_ends_app (g1 ++ g2)) in IH.
    rewrite count_lt_app, (count_lt_dots g2 Hg2) in IH.
    replace (count_lt g1 + 0 + (k - count_lt g1)) with k in IH by lia.
    by rewrite <- app_assoc in IH.
Qed.

(** Without a match nothing changes. *)
Lemma rewrites_nothing s o :
  rewrites identifier newTag s o ->
  (forall k, ~ match_ends identifier s k) -> o = s.
Proof.
  induction 1 as [|c s o Hm Hrw IH|s g1 g2 rest o Hm Hrw IH]; intros Hno;
    [done|..].
  - f_equal. apply IH. intros k Hk. apply (match_ends_app [c]) in Hk.
    by apply Hno in Hk.
  - by apply match_ends_here, Hno in Hm.
Qed.

Lemma colon_not_space w : forallb is_white_space w = true -> c_colon ∉ w.
Proof.
  intros Hw Hin. rewrite forallb_forall in Hw.
  apply list_elem_of_In, Hw in Hin. done.
Qed.

(** A line of white space, with or without [image:] before it, holds no
    match. *)
Lemma no_match_in_space w :
  forallb is_white_space w = true ->
  ~ line_matches identifier (image_kw ++ w) /\ ~ line_matches identifier w.
Proof.
  intros Hw. split; intros (a & ws & mid & b & E & Hne & _).
  - assert (Hi : (image_kw ++ w) !! length (a ++ image_kw ++ ws ++ mid ++ identifier)
                 = Some c_colon).
    { rewrite E.
      replace (a ++ image_kw ++ ws ++ mid ++ identifier ++ [c_colon] ++ b)
        with ((a ++ image_kw ++ ws ++ mid ++ identifier) ++ c_colon :: b)
        by (by rewrite <- !app_assoc).
      apply list_lookup_middle. done. }
    rewrite lookup_app_r in Hi.
    2:{ rewrite !length_app. cbn. lia. }
    apply list_elem_of_lookup_2 in Hi. by apply colon_not_space in Hi.
  - apply (colon_not_space w Hw). rewrite E.
    rewrite !elem_of_app. do 5 right. left. by left.
Qed.

(** A line in which the pattern matches is given the new tag. *)
Lemma rewrites_matching_line s o :
  rewrites identifier newTag s o ->
  forall k, line_matches identifier (line k s) ->
            retagged identifier newTag (line k s) (line k o).
Proof.
  induction 1 as [|c s o Hm Hrw IH|s g1 g2 rest o Hm Hrw IH]; intros k Hk.
  - rewrite line_nil in Hk. by apply (no_match_in_space []) in Hk.
  - destruct (is_line_terminator c) eqn:Ec.
    + rewrite !line_cons_lt in * by done. destruct k as [|k].
      * by apply (no_match_in_space []) in Hk.
      * by apply IH.
    + rewrite !line_cons_dot in * by done. destruct k as [|k]; [|by apply IH].
      destruct Hk as (a & ws & mid & b & E & Hne & Hws).
      destruct a as [|c' a].
      * exfalso. destruct (line0_prefix s) as [r Hr].
        assert (Hmid : forallb is_dot mid = true).
        { pose proof (line_is_dot (c :: s) 0) as Hd.
          rewrite line_cons_dot in Hd by done. rewrite E in Hd.
          cbn [app] in Hd. rewrite !forallb_app in Hd.
          apply andb_true_iff in Hd as [_ Hd].
          apply andb_true_iff in Hd as [_ Hd].
          by apply andb_true_iff in Hd as [Hd _]. }
        apply (match_at_complete identifier ws mid (b ++ r) Hne Hws Hmid).
        rewrite <- Hm. f_equal. rewrite Hr.
        change (c :: line 0 s ++ r) with ((c :: line 0 s) ++ r).
        rewrite E. cbn [app]. by rewrite <- !app_assoc.
      * injection E as <- E.
        destruct (IH 0) as (pre & old & E1 & E2).
        { exists a, ws, mid, b. by rewrite E. }
        exists (c :: pre), old. by rewrite E1, E2.
  - apply match_at_sound in Hm as (-> & (ws & mid & -> & Hne & Hws & Hmid)
                                    & Hg2 & Hrest).
    pose proof (rewrites_after_match _ _ Hrest Hrw) as Ho.
    assert (Hr0 : line 0 rest = []).
    { destruct Hrest as [->|(c & r' & -> & Hc)]; [done|by rewrite line_cons_lt]. }
    set (g1 := image_kw ++ ws ++ mid ++ identifier ++ [c_colon]) in *.
    rewrite (line_of_match g1 g2 rest k Hg2) in Hk |- *.
    rewrite (line_of_match g1 newTag o k tag_in_line).
    assert (Hn : count_lt g1 = count_lt ws) by by apply count_lt_group.
    repeat case_decide.
    + exfalso. assert (Hl : line k g1 = line k (image_kw ++ ws)).
      { subst g1.
        replace (image_kw ++ ws ++ mid ++ identifier ++ [c_colon])
          with ((image_kw ++ ws) ++ mid ++ identifier ++ [c_colon])
          by by rewrite <- !app_assoc.
        rewrite line_app, count_lt_app. change (count_lt image_kw) with 0.
        case_decide; [done|lia]. }
      rewrite Hl in Hk. rewrite (line_app image_kw) in Hk.
      change (count_lt image_kw) with 0 in Hk.
      assert (Hwk : forall j, forallb is_white_space (line j ws) = true)
        by (intros j; by apply line_forall).
      repeat case_decide; try lia.
      * subst k. rewrite (line_dots image_kw) in Hk by done.
        by apply (no_match_in_space (line 0 ws)) in Hk.
      * by apply (no_match_in_space (line (k - 0) ws)) in Hk.
    + rewrite Ho, Hr0, !app_nil_r.
      assert (Hl : line k g1
                   = (line k (image_kw ++ ws) ++ mid) ++ identifier ++ [c_colon]).
      { subst g1.
        replace (image_kw ++ ws ++ mid ++ identifier ++ [c_colon])
          with ((image_kw ++ ws) ++ mid ++ identifier ++ [c_colon])
          by by rewrite <- !app_assoc.
        rewrite line_app, count_lt_app. change (count_lt image_kw) with 0.
        repeat case_decide; try lia.
        rewrite (line_dots (mid ++ identifier ++ [c_colon]) 0);
          [by rewrite <- !app_assoc|].
        rewrite !forallb_app, Hmid, identifier_in_line. done. }
      rewrite Hl. exists (line k (image_kw ++ ws) ++ mid), g2.
      by rewrite <- !app_assoc.
    + by apply IH.
Qed.

End Patch.

Section PatchedLines.
Import TagPatcher.


(** C6, as the code has it.  The pattern is applied with the [g] flag:
    where two lines match, the earlier and the later one are both given
    the new tag. *)
Theorem every_matching_line_patched content identifier newTag j k :
  regex_literal identifier = true ->
  forallb is_dot identifier = true ->
  no_dollar newTag = true ->
  forallb is_dot newTag = true ->
  j < k ->
  line_matches identifier (line j content) ->
  line_matches identifier (line k content) ->
  let out := newContent content identifier newTag in
  retagged identifier newTag (line j content) (line j out)
  /\ retagged identifier newTag (line k content) (line k out).
Proof.
  intros _ Hid Hnd Htag _ Hj Hk out.
  pose proof (newContent_rewrites content identifier newTag Hnd) as Hrw.
  split; by eapply rewrites_matching_line.
Qed.

End PatchedLines.



(** C6 fails as it is worded: of two matching lines the second is
    rewritten as well. *)
Lemma later_match_patched :
  let content :=
    TagPatcher.of_string "image: svc:a" ++ [10%N]
    ++ TagPatcher.of_string "image: svc:b" in
  let identifier := TagPatcher.of_string "svc" in
  let out := TagPatcher.newContent content identifier (TagPatcher.of_string "new") in
  TagPatcher.line_matches identifier (TagPatcher.line 0 content)
  /\ TagPatcher.line_matches identifier (TagPatcher.line 1 content)
  /\ TagPatcher.line 0 out = TagPatcher.of_string "image: svc:new"
  /\ TagPatcher.line 1 out = TagPatcher.of_string "image: svc:new"
  /\ TagPatcher.line 1 out <> TagPatcher.line 1 content.
Proof.
  intros content identifier out.
  assert (Hm : forall t,
            TagPatcher.line_matches identifier
              (TagPatcher.of_string "image: svc:" ++ t)).
  { intros t. exists [], (TagPatcher.of_string " "), [], t.
    split; [reflexivity|]. split; [discriminate|reflexivity]. }
  split; [exact (Hm (TagPatcher.of_string "a"))|].
  split; [exact (Hm (TagPatcher.of_string "b"))|].
  split; [reflexivity|]. split; [reflexivity|discriminate].
Qed.

(** A run of [every_matching_line_patched] on those two lines. *)
Lemma every_matching_line_witness :
  let content :=
    TagPatcher.of_string "image: svc:a" ++ [10%N]
    ++ TagPatcher.of_string "image: svc:b" in
  let identifier := TagPatcher.of_string "svc" in
  let newTag := TagPatcher.of_string "new" in
  let out := TagPatcher.newContent content identifier newTag in
  TagPatcher.line_matches identifier (TagPatcher.line 0 content)
  /\ TagPatcher.line_matches identifier (TagPatcher.line 1 content)
  /\ TagPatcher.retagged identifier newTag (TagPatcher.line 0 content)
       (TagPatcher.line 0 out)
  /\ TagPatcher.retagged identifier newTag (TagPatcher.line 1 content)
       (TagPatcher.line 1 out).
Proof.
  intros content identifier newTag out.
  assert (Hm : forall t,
            TagPatcher.line_matches identifier
              (TagPatcher.of_string "image: svc:" ++ t)).
  { intros t. exists [], (TagPatcher.of_string " "), [], t.
    split; [reflexivity|]. split; [discriminate|reflexivity]. }
  pose proof (Hm (TagPatcher.of_string "a")) as H0.
  pose proof (Hm (TagPatcher.of_string "b")) as H1.
  split; [exact H0|]. split; [exact H1|].
  apply (every_matching_line_patched content identifier newTag 0 1);
    try reflexivity; [lia|exact H0|exact H1].
Defined.

(* ===================================================================== *)
(** * JavaScript strings *)
(* ===================================================================== *)

Section Strings.

Lemma includes_slash_cons a s :
  Js.includes (String a s) "/" = Ascii.eqb a "/" || Js.includes s "/".
Proof.
  cbn [Js.includes].
  change (String.prefix "/" (String a s))
    with (if ascii_dec "/" a then String.prefix "" s else false).
  destruct (ascii_dec "/" a) as [<-|Hne].
  - by destruct s.
  - by destruct (Ascii.eqb_spec a "/").
Qed.

Lemma split_not_nil s : Js.split "/" s <> [].
Proof.
  destruct s as [|a s]; [done|]. cbn.
  destruct (Ascii.eqb a "/"); [done|]. by destruct (Js.split "/" s).
Qed.

Lemma join_split s : Js.join "/" (Js.split "/" s) = s.
Proof.
  induction s as [|a s IH]; [done|]. cbn [Js.split].
  pose proof (split_not_nil s) as Hne.
  destruct (Ascii.eqb_spec a "/") as [->|Ha].
  - destruct (Js.split "/" s) as [|p ps]; [done|].
    change (Js.join "/" ("" :: p :: ps)) with (String "/" (Js.join "/" (p :: ps))).
    by rewrite IH.
  - destruct (Js.split "/" s) as [|p ps]; [done|].
    destruct ps as [|q ps]; cbn in *; by rewrite <- IH.
Qed.

Lemma split_pieces s :
  Forall (fun p => Js.includes p "/" = false) (Js.split "/" s).
Proof.
  induction s as [|a s IH]; [by constructor|]. cbn [Js.split].
  destruct (Ascii.eqb a "/") eqn:Ha; [by constructor|].
  destruct (Js.split "/" s) as [|p ps]; [by constructor; [rewrite includes_slash_cons, Ha|]|].
  inversion IH as [|? ? Hp Hps]; subst. constructor; [|done].
  by rewrite includes_slash_cons, Ha.
Qed.

Lemma split_app p r :
  Js.includes p "/" = false ->
  Js.split "/" (p +:+ String "/" r) = p :: Js.split "/" r.
Proof.
  induction p as [|a p IH]; [done|].
  rewrite includes_slash_cons. intros Hi.
  apply orb_false_iff in Hi as [Ha Hp].
  change (String a p +:+ String "/" r) with (String a (p +:+ String "/" r)).
  cbn [Js.split]. by rewrite Ha, (IH Hp).
Qed.

Lemma split_no_slash s :
  Js.includes s "/" = false -> Js.split "/" s = [s].
Proof.
  induction s as [|a s IH]; [done|].
  rewrite includes_slash_cons. intros Hi.
  apply orb_false_iff in Hi as [Ha Hp].
  cbn [Js.split]. by rewrite Ha, (IH Hp).
Qed.

Lemma split_join l :
  l <> [] -> Forall (fun p => Js.includes p "/" = false) l ->
  Js.split "/" (Js.join "/" l) = l.
Proof.
  induction l as [|p l IH]; [done|]. intros _ Hl.
  inversion Hl as [|? ? Hp Hrest]; subst.
  destruct l as [|q l]; [by apply split_no_slash|].
  change (Js.join "/" (p :: q :: l))
    with (p +:+ String "/" (Js.join "/" (q :: l))).
  rewrite (split_app _ _ Hp). f_equal. by apply IH.
Qed.

Lemma split_with_slash s :
  Js.includes s "/" = true ->
  exists regHost p ps, Js.split "/" s = regHost :: p :: ps.
Proof.
  intros Hi. pose proof (join_split s) as Hj. pose proof (split_pieces s) as Hp.
  pose proof (split_not_nil s) as Hne.
  destruct (Js.split "/" s) as [|h [|p ps]]; [done| |eauto].
  cbn in Hj. subst h. inversion Hp; congruence.
Qed.

Lemma append_assoc (a b c : string) : (a +:+ b) +:+ c = a +:+ (b +:+ c).
Proof.
  induction a as [|x a IH]; [done|].
  change (String x (a +:+ b) +:+ c = String x (a +:+ b +:+ c)).
  change (String x ((a +:+ b) +:+ c) = String x (a +:+ b +:+ c)).
  by rewrite IH.
Qed.

Lemma join_snoc init x :
  init <> [] ->
  Js.join "/" (init ++ [x]) = Js.join "/" init +:+ "/" +:+ x.
Proof.
  induction init as [|p init IH]; [done|]. intros _.
  destruct init as [|q init]; [done|].
  change (Js.join "/" ((p :: q :: init) ++ [x]))
    with (p +:+ "/" +:+ Js.join "/" ((q :: init) ++ [x])).
  rewrite IH by done.
  change (Js.join "/" (p :: q :: init))
    with (p +:+ "/" +:+ Js.join "/" (q :: init)).
  by rewrite !append_assoc.
Qed.

Lemma prefix_drop p : forall s,
  String.prefix p s = true -> s = p +:+ Js.drop_string (String.length p) s.
Proof.
  induction p as [|a p IH]; intros s Hp; [done|].
  destruct s as [|b s]; [done|]. cbn in Hp.
  destruct (ascii_dec a b) as [<-|]; [|done].
  change (String a p +:+ Js.drop_string (String.length (String a p)) (String a s))
    with (String a (p +:+ Js.drop_string (String.length p) s)).
  by rewrite <- (IH s Hp).
Qed.

Lemma length_append (a b : string) :
  String.length (a +:+ b) = String.length a + String.length b.
Proof.
  induction a as [|x a IH]; [done|].
  change (S (String.length (a +:+ b)) = S (String.length a + String.length b)).
  by rewrite IH.
Qed.

Lemma unquoted_run_spec s : forall v t,
  Js.unquoted_run s = (v, t) ->
  s = v +:+ t /\ forall a b, v <> a +:+ String Js.dquote b.
Proof.
  induction s as [|c s IH]; intros v t; cbn [Js.unquoted_run].
  { intros [= <- <-]. split; [done|]. by intros [|? ?] ?. }
  destruct (Ascii.eqb_spec c Js.dquote) as [->|Hc].
  { intros [= <- <-]. split; [done|]. by intros [|? ?] ?. }
  destruct (Js.unquoted_run s) as [r t'] eqn:E. intros [= <- <-].
  destruct (IH _ _ eq_refl) as [-> Hr]. split; [done|].
  intros [|x a] b.
  - intros [= ? ?]. done.
  - intros [= ? Hrest]. by apply Hr in Hrest.
Qed.

End Strings.

Section Quoted.

Lemma prefix_append p r : String.prefix p (p +:+ r) = true.
Proof.
  induction p as [|a p IH]; [by destruct r|].
  change (String a p +:+ r) with (String a (p +:+ r)). cbn.
  by destruct (ascii_dec a a).
Qed.

Lemma drop_append p r : Js.drop_string (String.length p) (p +:+ r) = r.
Proof. induction p as [|a p IH]; [done|]. exact IH. Qed.

Lemma unquoted_run_quote v post :
  (forall a b, v <> a +:+ String Js.dquote b) ->
  Js.unquoted_run (v +:+ String Js.dquote post) = (v, String Js.dquote post).
Proof.
  induction v as [|c v IH]; intros Hv.
  { change ("" +:+ String Js.dquote post) with (String Js.dquote post).
    cbn [Js.unquoted_run]. by rewrite Ascii.eqb_refl. }
  change (String c v +:+ String Js.dquote post)
    with (String c (v +:+ String Js.dquote post)).
  cbn [Js.unquoted_run].
  destruct (Ascii.eqb_spec c Js.dquote) as [->|Hc].
  { by destruct (Hv "" v). }
  rewrite IH; [done|]. intros a b ->. by apply (Hv (String c a) b).
Qed.

Lemma quoted_param_eq key s :
  Js.quoted_param key s
  = match quoted_here key s with
    | Some v => Some v
    | None =>
        match s with
        | EmptyString => None
        | String _ s' => Js.quoted_param key s'
        end
    end.
Proof. by destruct s. Qed.

Lemma key_assoc key (x : string) :
  key +:+ String "=" (String Js.dquote x)
  = (key +:+ String "=" (String Js.dquote "")) +:+ x.
Proof. by rewrite append_assoc. Qed.

Lemma quoted_here_sound key s v :
  quoted_here key s = Some v -> exists post, quoted_at key v "" post s.
Proof.
  unfold quoted_here.
  destruct (String.prefix _ s) eqn:Hp; [|done].
  destruct (Js.unquoted_run _) as [v' t] eqn:Hu.
  destruct (negb (String.eqb v' "") && String.prefix (String Js.dquote "") t)
    eqn:Hc; [|done].
  intros [= ->]. apply andb_true_iff in Hc as [Hne Hq].
  apply unquoted_run_spec in Hu as [Hu Hv].
  apply prefix_drop in Hp. apply prefix_drop in Hq.
  exists (Js.drop_string 1 t).
  split; [by destruct (String.eqb_spec v "")|]. split; [exact Hv|].
  rewrite Hp at 1. rewrite length_append.
  replace (String.length key + String.length (String "=" (String Js.dquote "")))
    with (String.length key + 2) by (cbn; lia).
  rewrite Hu. rewrite Hq at 1.
  change ("" +:+ ?x) with x. rewrite !append_assoc. reflexivity.
Qed.

Lemma quoted_here_complete key s v post :
  quoted_at key v "" post s -> quoted_here key s = Some v.
Proof.
  intros (Hne & Hv & ->). unfold quoted_here.
  change ("" +:+ ?x) with x.
  change (String "=" (String Js.dquote v) +:+ String Js.dquote post)
    with (String "=" (String Js.dquote (v +:+ String Js.dquote post))).
  rewrite (key_assoc key (v +:+ String Js.dquote post)), prefix_append.
  replace (String.length key + 2)
    with (String.length (key +:+ String "=" (String Js.dquote "")))
    by (rewrite length_append; cbn; lia).
  rewrite drop_append, (unquoted_run_quote _ _ Hv).
  destruct (String.eqb_spec v ""); [done|]. cbn [negb andb].
  change (String.prefix (String Js.dquote "") (String Js.dquote post))
    with (if ascii_dec Js.dquote Js.dquote then String.prefix "" post
          else false).
  destruct (ascii_dec Js.dquote Js.dquote); [by destruct post|done].
Qed.

Lemma quoted_at_cons key v c pre post c' s :
  quoted_at key v (String c pre) post (String c' s) ->
  quoted_at key v pre post s.
Proof.
  intros (Hne & Hv & E). split; [done|]. split; [done|].
  change (String c pre +:+ ?x) with (String c (pre +:+ x)) in E.
  by injection E.
Qed.

Lemma quoted_at_empty key v pre post : ~ quoted_at key v pre post "".
Proof.
  intros (_ & _ & E). destruct pre; [|done]. by destruct key.
Qed.

Lemma quoted_param_spec key s :
  match Js.quoted_param key s with
  | Some v => first_quoted key v s
  | None => forall v pre post, ~ quoted_at key v pre post s
  end.
Proof.
  induction s as [|c s IH]; rewrite quoted_param_eq.
  - destruct (quoted_here key "") as [v|] eqn:Hh.
    + apply quoted_here_sound in Hh as [post Hq].
      by apply quoted_at_empty in Hq.
    + intros v pre post. apply quoted_at_empty.
  - destruct (quoted_here key (String c s)) as [v|] eqn:Hh.
    + apply quoted_here_sound in Hh as [post Hq].
      exists "", post. split; [exact Hq|]. intros. cbn. lia.
    + assert (Hpre : forall v pre post,
                quoted_at key v pre post (String c s) ->
                exists pre', pre = String c pre'
                             /\ quoted_at key v pre' post s).
      { intros v [|c' pre] post Hq.
        - apply quoted_here_complete in Hq. congruence.
        - pose proof Hq as (_ & _ & E).
          change (String c' pre +:+ ?x) with (String c' (pre +:+ x)) in E.
          injection E as <- _. exists pre. split; [done|].
          by eapply quoted_at_cons. }
      destruct (Js.quoted_param key s) as [v|].
      * destruct IH as (pre & post & (Hne & Hv & ->) & Hleft).
        exists (String c pre), post. split; [done|].
        intros v' pre' post' Hq.
        apply Hpre in Hq as (pre'' & -> & Hq).
        apply Hleft in Hq. cbn. lia.
      * intros v pre post Hq.
        apply Hpre in Hq as (pre' & _ & Hq). by apply IH in Hq.
Qed.

Lemma quoted_param_param key s :
  param_of key s (default "" (Js.quoted_param key s)).
Proof.
  pose proof (quoted_param_spec key s) as Hs.
  destruct (Js.quoted_param key s); [by left|by right].
Qed.

End Quoted.


(* ===================================================================== *)
(** * More on the transport and on [login] *)
(* ===================================================================== *)

Section TransportFailures.
Context `{Platform}.

(** X1.  A failure of the first attempt that is not a 401 with a Bearer
    challenge naming a realm (no answer at all, another status, another
    scheme, no realm) is thrown to the caller as it is: one request has
    been sent, no token is asked for, and the session header, the kept
    token and the disk are as before. *)
Theorem other_failure_is_rethrown m ep payload hs st err :
  let cfg := first_config m ep payload hs st in
  settle (net (trace st) cfg) = Throw err ->
  (forall r, err_response err = Some r -> challenge_token_url r = None) ->
  let out := request m ep payload hs st in
  fst out = Throw err
  /\ trace (snd out) = trace st ++ [cfg]
  /\ authHeader (snd out) = authHeader st
  /\ token (snd out) = token st
  /\ disk (snd out) = disk st.
Proof.
  intros cfg Hs Hno. subst cfg. cbv zeta.
  unfold request, bind, try_catch, get, axios.
  fold (first_config m ep payload hs st). rewrite Hs.
  destruct (err_response err) as [r|] eqn:Hr; [|done].
  specialize (Hno r eq_refl). unfold challenge_token_url in Hno.
  destruct (status r =? 401)%N; [|done].
  destruct (truthy _) as [ch|]; [|done].
  destruct (Js.startsWith _ _); [|done].
  unfold log, modify.
  destruct (Js.quoted_param "realm" ch) as [realm|]; [done|done].
Qed.

(** X2.  After a Bearer challenge the call ends without a second attempt
    when the token service fails or answers without a token: two requests
    have been sent, the session header is as before, and the caller gets
    the error of the token request in the first case and the 401 of the
    registry in the second. *)
Theorem failed_token_request_ends_call m ep payload hs st r1 turl :
  let cfg := first_config m ep payload hs st in
  let treq := token_request turl (authHeader st) in
  net (trace st) cfg = Some r1 ->
  challenge_token_url r1 = Some turl ->
  let out := request m ep payload hs st in
  (forall e,
     settle (net (trace st ++ [cfg]) treq) = Throw e ->
     fst out = Throw e
     /\ trace (snd out) = trace st ++ [cfg; treq]
     /\ authHeader (snd out) = authHeader st)
  /\ (forall tr,
        settle (net (trace st ++ [cfg]) treq) = Ok tr ->
        truthy (data tr !! "token") = None ->
        fst out = Throw (status_error r1)
        /\ trace (snd out) = trace st ++ [cfg; treq]
        /\ authHeader (snd out) = authHeader st).
Proof.
  intros cfg treq Hnet Hch out. subst out.
  pose proof (request_challenged m ep payload hs st r1 turl Hnet Hch) as E.
  fold cfg treq in E. cbv zeta in E. split.
  - intros e He. rewrite He in E. rewrite E. cbn.
    by rewrite <- !app_assoc.
  - intros tr Htr Htok. rewrite Htr, Htok in E. rewrite E. cbn.
    by rewrite <- !app_assoc.
Qed.

(** X3.  [login] never throws, whatever the registry answers to its
    probe.  It keeps the base URL, builds the Basic header from the
    credentials when both are given and no header otherwise (whatever
    session the client had before), and sends the probe of [/v2/] with
    that header first; afterwards the session header is that one, or a
    Bearer header when the probe was challenged. *)
Theorem login_never_throws user pass url st :
  let basic :=
    match truthy user, truthy pass with
    | Some u, Some p => Some ("Basic " +:+ base64 (u +:+ ":" +:+ p))
    | _, _ => None
    end in
  let out := login user pass url st in
  fst out = Ok tt
  /\ registryUrl (snd out) = base_url url
  /\ (authHeader (snd out) = basic \/ is_bearer (authHeader (snd out)))
  /\ exists more,
       sent_since st (snd out)
       = mkRequest GET (base_url url +:+ "/v2/") (with_auth basic ∅) None
         :: more.
Proof.
  intros basic. cbv zeta. unfold login, bind, modify, try_catch, log.
  cbn [fst snd]. fold basic.
  set (st0 := set_authHeader basic (set_registryUrl (base_url url) st)).
  destruct (request_frame GET "/v2/" None ∅ st0) as (_ & U & A & more & T & _).
  destruct (request GET "/v2/" None ∅ st0) as [[r|e] st1]; cbn in *.
  all: split; [reflexivity|]; split; [exact U|]; split; [exact A|].
  all: exists more; apply sent_since_app; exact T.
Qed.

(** X4.  The base URL kept by [login] starts with [http], and a base URL
    given back to [login] is kept as it is. *)
Theorem base_url_is_stable url :
  Js.startsWith (base_url url) "http" = true
  /\ base_url (base_url url) = base_url url.
Proof.
  unfold base_url.
  destruct (Js.startsWith url "http") eqn:E.
  - by rewrite E.
  - split; reflexivity.
Qed.

End TransportFailures.

(** A run of [other_failure_is_rethrown]: a registry that answers 500. *)
Lemma other_failure_witness :
  let P := Scenario.platform (fun _ _ => Scenario.answer 500 [] []) in
  let st := Scenario.logged_in "http://myhost" (Some "Basic dTpw") (Dir []) in
  let out := request (H := P) GET "/v2/" None ∅ st in
  (exists err, fst out = Throw err /\ message err
     = "Request failed with status code 500")
  /\ length (trace (snd out)) = 1
  /\ authHeader (snd out) = Some "Basic dTpw".
Proof.
  intros P st out.
  pose (err := status_error (mkResponse 500 (list_to_map []) (list_to_map []))).
  assert (H1 : settle (net (trace st) (first_config GET "/v2/" None ∅ st))
               = Throw err) by (vm_compute; reflexivity).
  assert (H2 : forall r, err_response err = Some r ->
                         challenge_token_url r = None).
  { intros r [= <-]. vm_compute. reflexivity. }
  destruct (other_failure_is_rethrown (H := P) GET "/v2/" None ∅ st err H1 H2)
    as (E & T & A & _).
  split; [exists err; split; [exact E|reflexivity]|].
  split; [subst out; rewrite T; reflexivity|exact A].
Defined.

(** A run of [failed_token_request_ends_call]: the token service answers
    without a token. *)
Lemma failed_token_request_witness :
  let answers := fun (h : list axiosConfig) (r : axiosConfig) =>
    if String.eqb (req_url r)
         "http://auth.example/token?service=registry.example&scope="
    then Scenario.answer 200 [] []
    else Scenario.answer 401 [("www-authenticate", Scenario.challenge)] [] in
  let P := Scenario.platform answers in
  let st := Scenario.logged_in "http://registry.example" None (Dir []) in
  let out := request (H := P) GET "/v2/" None ∅ st in
  (exists err, fst out = Throw err /\ message err
     = "Request failed with status code 401")
  /\ length (trace (snd out)) = 2
  /\ authHeader (snd out) = None.
Proof.
  intros answers P st out.
  pose (r1 := mkResponse 401
                (list_to_map [("www-authenticate", Scenario.challenge)])
                (list_to_map [])).
  pose (tr := mkResponse 200 (list_to_map []) (list_to_map [])).
  assert (H1 : net (trace st) (first_config GET "/v2/" None ∅ st) = Some r1)
    by (vm_compute; reflexivity).
  assert (H2 : challenge_token_url r1
               = Some "http://auth.example/token?service=registry.example&scope=")
    by (vm_compute; reflexivity).
  destruct (failed_token_request_ends_call (H := P) GET "/v2/" None ∅ st r1 _
              H1 H2) as [_ Hc].
  destruct (Hc tr) as (E & T & A);
    [vm_compute; reflexivity | vm_compute; reflexivity |].
  split; [exists (status_error r1); split; [exact E|reflexivity]|].
  split; [subst out; rewrite T; reflexivity|exact A].
Defined.

(* ===================================================================== *)
(** * The challenge *)
(* ===================================================================== *)

Section Challenge.

(** X5.  The URL the token is asked from is read off the challenge, the
    [www-authenticate] header of a 401 that starts with [bearer] in any
    case of letters: it is the realm, [?service=], the service, [&scope=]
    and the scope, put together as they are.  The realm is the first
    quoted value of [realm] in the challenge; the service and the scope
    are the first quoted values of their keys, and each is empty when the
    challenge holds no quoted value of its key. *)
Theorem token_url_read_off_challenge r url :
  challenge_token_url r = Some url ->
  status r = 401%N
  /\ exists ch realm service scope,
       headers r !! "www-authenticate" = Some ch
       /\ Js.startsWith (Js.toLowerCase ch) "bearer" = true
       /\ url = realm +:+ "?service=" +:+ service +:+ "&scope=" +:+ scope
       /\ first_quoted "realm" realm ch
       /\ param_of "service" ch service
       /\ param_of "scope" ch scope.
Proof.
  unfold challenge_token_url.
  destruct (N.eqb_spec (status r) 401) as [Hst|]; [|done].
  destruct (headers r !! "www-authenticate") as [ch|] eqn:Hh; [|done].
  cbn [truthy]. destruct (String.eqb ch ""); [done|].
  destruct (Js.startsWith _ _) eqn:Hb; [|done].
  pose proof (quoted_param_spec "realm" ch) as Hrealm.
  destruct (Js.quoted_param "realm" ch) as [realm|] eqn:Hr; [|done].
  intros [= <-]. split; [done|].
  exists ch, realm, (default "" (Js.quoted_param "service" ch)),
    (default "" (Js.quoted_param "scope" ch)).
  split; [done|]. split; [done|]. split; [done|]. split; [done|].
  split; apply quoted_param_param.
Qed.

End Challenge.

(** A run of [token_url_read_off_challenge]: the challenge of the
    scenarios, which names a realm and a service and no scope. *)
Lemma token_url_witness :
  let r :=
    mkResponse 401 (list_to_map [("www-authenticate", Scenario.challenge)])
      (list_to_map []) in
  challenge_token_url r
  = Some "http://auth.example/token?service=registry.example&scope="
  /\ exists realm service scope,
       first_quoted "realm" realm Scenario.challenge
       /\ param_of "service" Scenario.challenge service
       /\ param_of "scope" Scenario.challenge scope.
Proof.
  intros r.
  assert (Hu : challenge_token_url r
               = Some "http://auth.example/token?service=registry.example&scope=")
    by (vm_compute; reflexivity).
  split; [exact Hu|].
  destruct (token_url_read_off_challenge r _ Hu)
    as (_ & ch & realm & service & scope & Hh & _ & _ & Hq & Hs & Hc).
  assert (E : ch = Scenario.challenge).
  { vm_compute in Hh. injection Hh as <-. vm_compute. reflexivity. }
  rewrite E in Hq, Hs, Hc. by exists realm, service, scope.
Defined.

(* ===================================================================== *)
(** * More on the blob pusher and on [pushTarball] *)
(* ===================================================================== *)

Section BlobPusherMore.
Context `{Platform}.

(** X6.  When the existence check fails with a 404, or with no answer at
    all, [pushBlob] logs no warning and goes on with the upload, from the
    state the check left. *)
Theorem absent_blob_uploaded_quietly repo p st c err :
  read_at p (disk st) = Some c ->
  let digest := "sha256:" +:+ sha256_hex c in
  let head :=
    request HEAD ("/v2/" +:+ repo +:+ "/blobs/" +:+ digest) None ∅
      (add_log ("Checking blob " +:+ short digest +:+ "...") st) in
  fst head = Throw err ->
  (err_response err = None
   \/ exists r, err_response err = Some r /\ status r = 404%N) ->
  pushBlob repo p st = uploadBlob repo c digest (String.length c) (snd head).
Proof.
  intros Hc digest head Hhead Hquiet. subst head.
  rewrite (pushBlob_eq repo p st c Hc). fold digest.
  rewrite checkBlob_eq.
  destruct (request HEAD _ None ∅ _) as [[r|e] st1]; cbn in *; [done|].
  injection Hhead as ->.
  destruct Hquiet as [->|(r & -> & ->)]; reflexivity.
Qed.

(** X7.  The upload ends after its POST when the POST fails or when its
    answer names no location: the error of the POST, or the [TypeError] of
    the missing header, is thrown, and no PUT has been sent. *)
Theorem upload_needs_location repo bytes digest size st :
  let post :=
    request POST ("/v2/" +:+ repo +:+ "/blobs/uploads/") None ∅
      (add_log ("Uploading blob " +:+ short digest +:+ " ("
                +:+ toFixed2 size +:+ " MB)...") st) in
  let out := uploadBlob repo bytes digest size st in
  (forall e, fst post = Throw e -> out = (Throw e, snd post))
  /\ (forall initResp,
        fst post = Ok initResp -> headers initResp !! "location" = None ->
        out = (Throw (plain_error
                 "Cannot read properties of undefined (reading 'startsWith')"),
               snd post))
  /\ ((forall initResp, fst post = Ok initResp ->
         headers initResp !! "location" = None) ->
      Forall (fun q => req_method q = POST \/ req_method q = GET)
        (sent_since st (snd out))).
Proof.
  cbv zeta. unfold uploadBlob, bind, log, modify.
  set (st0 := add_log _ st).
  pose proof (request_methods POST ("/v2/" +:+ repo +:+ "/blobs/uploads/")
                None ∅ st0) as M.
  destruct (request POST _ None ∅ st0) as [[r|e] st1]; cbn [fst snd] in *.
  - split; [done|]. split.
    + intros ? [= <-] ->. reflexivity.
    + intros Hloc. rewrite (Hloc r eq_refl). exact M.
  - split; [by intros ? [= <-]|]. split; [done|]. intros _. exact M.
Qed.

(** X8.  No request leaves the client before the archive is unpacked and
    its index read: a push whose archive cannot be unpacked, or whose
    unpacked archive has no usable [manifest.json], does not complete and
    has sent nothing, and the session header is as before.  When the
    archive was unpacked, the push throws, and the extraction directory is
    left on the disk with all that was unpacked.  (Of a push whose archive
    cannot be unpacked only this is stated: it does not return.) *)
Theorem unusable_archive_sends_nothing tempDir tarPath repo tag st :
  (forall D, unpacked tempDir tarPath (disk st) = Some D ->
             index_of tempDir D = None) ->
  let out := pushTarball tempDir tarPath repo tag st in
  fst out <> Ok tt
  /\ trace (snd out) = trace st
  /\ authHeader (snd out) = authHeader st
  /\ forall D, unpacked tempDir tarPath (disk st) = Some D ->
               (exists e, fst out = Throw e)
               /\ disk (snd out) = D /\ is_dir_at tempDir D = true.
Proof.
  cbv zeta.
  unfold pushTarball, unpacked, index_of, bind, get, log, modify.
  cbn [fst snd disk add_log].
  destruct (ensureDir tempDir (disk st)) as [root0|] eqn:Hens;
    [|intros _; cbn; eauto 10].
  cbn [fst snd disk add_log set_disk].
  set (st0 := add_log _ (set_disk root0 _)).
  pose proof (extract_frame tarPath tempDir st0) as (U0 & A0 & T0 & R0).
  unfold extract, bind, get in *. cbn [disk st0 add_log set_disk] in *.
  destruct (read_at tarPath root0) as [bytes|]; [|intros _; cbn; eauto 10].
  destruct (tar_entries bytes) as [es|]; [|intros _; cbn; eauto 10].
  destruct (extract_entries tempDir es root0) as [D|] eqn:Hex;
    [|intros _; cbn; eauto 10].
  intros Hidx. specialize (Hidx D eq_refl).
  cbn [fst snd modify set_disk disk].
  assert (Hdir : is_dir_at tempDir D = true).
  { apply (extract_entries_keep _ _ _ _ Hex). by eapply ensureDir_is_dir. }
  destruct (exists_at _ D); cbn [negb];
    [|cbn; split; [done|]; split; [done|]; split; [done|];
      intros ? [= <-]; eauto].
  destruct (read_at _ D ≫= readJson) as [[|meta metas]|]; [..|done|].
  all: cbn; split; [done|]; split; [done|]; split; [done|];
       intros ? [= <-]; eauto.
Qed.

(** X9.  A push to a registry that accepts every existence check uploads
    nothing: it sends no POST, and every PUT it sends is the PUT of the
    manifest. *)
Theorem held_blobs_are_not_uploaded tempDir tarPath repo tag st :
  (forall h q, req_method q = HEAD ->
     exists r, net h q = Some r /\ ok_status r = true) ->
  let out := pushTarball tempDir tarPath repo tag st in
  Forall
    (check_or_manifest
       (registryUrl st +:+ "/v2/" +:+ repo +:+ "/manifests/" +:+ tag))
    (sent_since st (snd out)).
Proof.
  intros Hnet. cbv zeta.
  set (url := registryUrl st +:+ "/v2/" +:+ repo +:+ "/manifests/" +:+ tag).
  assert (Hquiet : forall st', trace st' = trace st ->
            Forall (check_or_manifest url) (sent_since st st')).
  { intros st' E. unfold sent_since. rewrite E, drop_all. constructor. }
  unfold pushTarball, bind, get, log, modify.
  cbn [fst snd disk add_log].
  destruct (ensureDir tempDir (disk st)) as [root0|]; [|by apply Hquiet].
  cbn [fst snd disk add_log set_disk].
  set (st0 := add_log _ (set_disk root0 _)).
  pose proof (extract_frame tarPath tempDir st0) as (U0 & A0 & T0 & _).
  destruct (extract tarPath tempDir st0) as [[[]|e] st1]; cbn [fst snd] in *;
    [|by apply Hquiet].
  destruct (exists_at _ (disk st1)); cbn [negb]; [|by apply Hquiet].
  destruct (read_at _ (disk st1) ≫= readJson) as [[|meta metas]|];
    [by apply Hquiet|..|by apply Hquiet].
  cbn [fst snd].
  set (st2 := add_log _ (add_log _ st1)).
  assert (T2 : trace st2 = trace st) by done.
  assert (U2 : registryUrl st2 = registryUrl st) by done.
  destruct (pushBlob_heads repo (Path.join tempDir (Config meta)) st2 Hnet)
    as (n3 & T3 & F3).
  pose proof (pushBlob_frame repo tag (Path.join tempDir (Config meta)) st2)
    as (_ & (U3 & _) & _).
  destruct (pushBlob repo _ st2) as [[cfg|e] st3]; cbn [fst snd] in *.
  2:{ rewrite T2 in T3. rewrite (sent_since_app _ _ _ T3).
      eapply Forall_impl; [exact F3|]. intros q Hq. by left. }
  destruct (pushLayers_heads repo tempDir (Layers meta) st3 Hnet)
    as (n4 & T4 & F4).
  pose proof (pushLayers_frame repo tag tempDir (Layers meta) st3)
    as (_ & (U4 & _) & _).
  assert (F34 : Forall (check_or_manifest url) (n3 ++ n4)).
  { apply Forall_app. split; (eapply Forall_impl; [eassumption|]);
      intros q Hq; by left. }
  destruct (pushLayers repo tempDir (Layers meta) st3) as [[rs|e] st4];
    cbn [fst snd] in *.
  2:{ rewrite T3, T2, <- app_assoc in T4. by rewrite (sent_since_app _ _ _ T4). }
  unfold try_catch, bind, log, modify. cbn [fst snd add_log].
  set (body := stringify (buildManifest cfg rs)).
  set (st5 := add_log _ (add_log _ (add_log _ st4))).
  assert (T5 : trace st5 = trace st ++ (n3 ++ n4)).
  { cbn. rewrite T4, T3, T2. by rewrite <- app_assoc. }
  assert (U5 : registryUrl st5 = registryUrl st).
  { cbn. by rewrite U4, U3. }
  set (ep := "/v2/" +:+ repo +:+ "/manifests/" +:+ tag).
  match goal with |- context [request PUT ep (Some body) ?x st5] =>
    set (hs := x) end.
  destruct (request_frame PUT ep (Some body) hs st5)
    as (_ & _ & _ & more & T6 & F6).
  assert (F : Forall (check_or_manifest url)
                (sent_since st (snd (request PUT ep (Some body) hs st5)))).
  { rewrite T5, <- app_assoc in T6. rewrite (sent_since_app _ _ _ T6).
    apply Forall_app. split; [exact F34|].
    constructor.
    - right. right. split; [done|].
      unfold first_config. cbn [req_url]. by rewrite U5.
    - eapply Forall_impl; [exact F6|]. intros q [turl|tok].
      + right. by left.
      + right. right. split; [done|]. cbn [req_url]. by rewrite U5. }
  destruct (request PUT ep (Some body) hs st5) as [[r|e] st6];
    cbn [fst snd] in *; [exact F|].
  by destruct (err_response e).
Qed.

End BlobPusherMore.

Section DiskOfPush.
Context `{Platform}.

Lemma assoc_del_other {A} k k' (l : list (string * A)) :
  k <> k' -> assoc k' (assoc_del k l) = assoc k' l.
Proof.
  intros Hne. unfold assoc_del. induction l as [|[k0 v0] l IH]; [done|].
  cbn. destruct (String.eqb_spec k k0) as [->|Hk]; cbn.
  - destruct (String.eqb_spec k' k0) as [->|]; [done|exact IH].
  - destruct (String.eqb_spec k' k0); [done|exact IH].
Qed.

Lemma read_remove_other p : forall n q,
  ~ p `prefix_of` q -> read_at q (remove p n) = read_at q n.
Proof.
  unfold read_at.
  induction p as [|s p IH]; intros n q Hq.
  { destruct Hq. by exists q. }
  destruct n as [c|es]; [by destruct p|].
  destruct q as [|s' q'].
  { destruct p; cbn; [done|]. by destruct (assoc s es). }
  destruct (String.eqb_spec s s') as [<-|Hne].
  - assert (Hq' : ~ p `prefix_of` q').
    { intros [k ->]. apply Hq. by exists k. }
    destruct p as [|s2 p2].
    { destruct Hq'. by exists q'. }
    cbn [remove]. destruct (assoc s es) as [c|] eqn:Hs; [|done].
    rewrite !lookup_cons, assoc_set_same, Hs. by apply IH.
  - destruct p as [|s2 p2]; cbn [remove].
    + by rewrite !lookup_cons, assoc_del_other.
    + destruct (assoc s es) as [c|] eqn:Hs; [|done].
      by rewrite !lookup_cons, assoc_set_other.
Qed.

Lemma normalize_onto_below segs : forall acc,
  ~ In ".." segs -> exists rest, normalize_onto acc segs = rev acc ++ rest.
Proof.
  induction segs as [|s segs IH]; intros acc Hno; cbn.
  { exists []. by rewrite app_nil_r. }
  assert (Hs : s <> "..") by (intros ->; apply Hno; by left).
  assert (Hrest : ~ In ".." segs) by (intros ?; apply Hno; by right).
  destruct (String.eqb s "" || String.eqb s "."); [by apply IH|].
  destruct (String.eqb_spec s ".."); [done|].
  destruct (IH (s :: acc) Hrest) as [rest ->]. cbn.
  exists (s :: rest). by rewrite <- app_assoc.
Qed.

Lemma join_below base name :
  stays_below name -> base `prefix_of` Path.join base name.
Proof.
  intros Hno. unfold Path.join.
  destruct (normalize_onto_below _ (rev base) Hno) as [rest ->].
  rewrite rev_involutive. by exists rest.
Qed.

Lemma extract_entries_other tempDir es : forall root root' q,
  extract_entries tempDir es root = Some root' ->
  (forall e, In e es -> type e <> directory -> outPath tempDir e <> q) ->
  read_at q root' = read_at q root.
Proof.
  induction es as [|e es IH]; intros root root' q Hex Hq; cbn in Hex.
  { by injection Hex as <-. }
  destruct (extract_entry tempDir e root) as [root1|] eqn:He; [|done].
  rewrite (IH root1 root' q Hex); [|intros e' ?; apply Hq; by right].
  destruct (extract_entry_effect _ _ _ _ He) as (_ & _ & _ & Hother & _).
  apply Hother.
  destruct (type e) eqn:Ht; [right|by left|right].
  all: intros ->; eapply Hq; [by left|by rewrite Ht|reflexivity].
Qed.

(** X10.  A push that returns leaves every file outside its extraction
    directory as it found it, when no entry of the archive has a [..]
    segment in its name: the entries are written below the extraction
    directory, and the cleanup removes that directory only. *)
Theorem push_leaves_other_files tempDir tarPath repo tag st :
  let out := pushTarball tempDir tarPath repo tag st in
  fst out = Ok tt ->
  (forall bytes es,
     read_at tarPath (disk st) = Some bytes -> tar_entries bytes = Some es ->
     Forall (fun e => stays_below (name e)) es) ->
  forall q, ~ tempDir `prefix_of` q ->
            read_at q (disk (snd out)) = read_at q (disk st).
Proof.
  intros out Hok Hnames q Hq. subst out.
  destruct (pushTarball_run tempDir tarPath repo tag st) as (_ & R).
  destruct (R Hok)
    as (D & meta & cfg & rs & published & Hun & _ & _ & _ & _ & _ & _ & _ & HD).
  rewrite HD, (read_remove_other _ _ _ Hq).
  unfold unpacked in Hun.
  destruct (ensureDir tempDir (disk st)) as [root0|] eqn:Hens; [|done].
  rewrite (ensureDir_read _ _ _ tarPath Hens) in Hun.
  destruct (read_at tarPath (disk st)) as [bytes|] eqn:Hb; [|done].
  destruct (tar_entries bytes) as [es|] eqn:Hes; [|done].
  rewrite (extract_entries_other _ _ _ _ q Hun).
  - by apply ensureDir_read with (p := tempDir).
  - intros e He _ <-. apply Hq. apply join_below.
    specialize (Hnames bytes es eq_refl Hes).
    rewrite List.Forall_forall in Hnames. by apply Hnames.
Qed.

End DiskOfPush.

(** A run of [absent_blob_uploaded_quietly]: the registry of
    [Scenario.open_registry] answers the check with a 404. *)
Lemma absent_blob_witness :
  let P := Scenario.platform Scenario.open_registry in
  let st :=
    Scenario.logged_in "http://myhost" None (Dir [("blob", File "layer-one")]) in
  let out := pushBlob (H := P) "ns/svc" ["blob"] st in
  fst out = Ok ("sha256:#layer-one", 9)
  /\ logs (snd out)
     = [ "Checking blob sha256:#laye...";
         "Uploading blob sha256:#laye (0.00 MB)...";
         "Upload complete: sha256:#laye" ].
Proof.
  intros P st out.
  pose (err := status_error (mkResponse 404 (list_to_map []) (list_to_map []))).
  assert (Hc : read_at ["blob"] (disk st) = Some "layer-one")
    by (vm_compute; reflexivity).
  pose proof (absent_blob_uploaded_quietly (H := P) "ns/svc" ["blob"] st
                "layer-one" err Hc) as E.
  cbv zeta in E.
  assert (H1 : fst (request (H := P) HEAD
                      ("/v2/" +:+ "ns/svc" +:+ "/blobs/"
                       +:+ ("sha256:" +:+ sha256_hex "layer-one")) None ∅
                      (add_log ("Checking blob "
                                +:+ short ("sha256:" +:+ sha256_hex "layer-one")
                                +:+ "...") st)) = Throw err)
    by (vm_compute; reflexivity).
  specialize (E H1 (or_intror (ex_intro _ _ (conj eq_refl eq_refl)))).
  subst out. rewrite E. vm_compute. split; reflexivity.
Defined.

(** A run of [unusable_archive_sends_nothing]: an archive of one layer
    file, without index. *)
Lemma unusable_archive_witness :
  let P :=
    {| sha256_hex := fun s => s; base64 := fun s => s;
       tar_entries := fun _ => Some [mkEntry "layer.tar" file "bytes"];
       readJson := fun _ => None;
       stringify := fun _ => "{}"; stringify_data := fun _ => "{}";
       toFixed2 := fun _ => "0.00";
       net := Scenario.open_registry |} in
  let st := Scenario.logged_in "http://myhost" None Scenario.images in
  let out :=
    pushTarball (H := P) ["tmp"; "sth-deploy-1"] ["images"; "svc.tar"]
      "ns/svc" "v1" st in
  trace (snd out) = []
  /\ read_at ["tmp"; "sth-deploy-1"; "layer.tar"] (disk (snd out))
     = Some "bytes".
Proof.
  intros P st out.
  assert (Hidx : forall D,
            unpacked (H := P) ["tmp"; "sth-deploy-1"] ["images"; "svc.tar"]
              (disk st) = Some D ->
            index_of (H := P) ["tmp"; "sth-deploy-1"] D = None).
  { intros D HD. vm_compute in HD. injection HD as <-. vm_compute.
    reflexivity. }
  destruct (unusable_archive_sends_nothing (H := P) ["tmp"; "sth-deploy-1"]
              ["images"; "svc.tar"] "ns/svc" "v1" st Hidx)
    as (_ & T & _ & HD).
  split; [exact T|].
  destruct (HD _ eq_refl) as (_ & E & _). subst out. rewrite E. reflexivity.
Defined.

(** A run of [held_blobs_are_not_uploaded]: the registry of
    [Scenario.full_registry] holds every blob. *)
Lemma held_blobs_witness :
  let P := Scenario.platform Scenario.full_registry in
  let st := Scenario.logged_in "http://myhost" None Scenario.images in
  let out :=
    pushTarball (H := P) ["tmp"; "sth-deploy-1"] ["images"; "svc.tar"]
      "ns/svc" "v1" st in
  Forall (check_or_manifest "http://myhost/v2/ns/svc/manifests/v1")
    (sent_since st (snd out))
  /\ map req_method (trace (snd out)) = [HEAD; HEAD; HEAD; PUT].
Proof.
  intros P st out. split; [|vm_compute; reflexivity].
  apply (held_blobs_are_not_uploaded (H := P) ["tmp"; "sth-deploy-1"]
           ["images"; "svc.tar"] "ns/svc" "v1" st).
  intros h q _. eexists. split; [vm_compute; reflexivity|reflexivity].
Defined.

(** A run of [push_leaves_other_files]: the archive is where it was after
    the push. *)
Lemma push_leaves_other_files_witness :
  let P := Scenario.platform Scenario.open_registry in
  let st := Scenario.logged_in "http://myhost" None Scenario.images in
  let out :=
    pushTarball (H := P) ["tmp"; "sth-deploy-1"] ["images"; "svc.tar"]
      "ns/svc" "v1" st in
  fst out = Ok tt
  /\ read_at ["images"; "svc.tar"] (disk (snd out)) = Some "TAR".
Proof.
  intros P st out.
  assert (Hok : fst out = Ok tt) by (vm_compute; reflexivity).
  split; [exact Hok|].
  rewrite (push_leaves_other_files (H := P) ["tmp"; "sth-deploy-1"]
             ["images"; "svc.tar"] "ns/svc" "v1" st Hok).
  - reflexivity.
  - intros bytes es Hb Hes. vm_compute in Hb. injection Hb as <-.
    vm_compute in Hes. injection Hes as <-.
    repeat (apply List.Forall_cons;
            [unfold stays_below; cbn; intros Hin;
             repeat (destruct Hin as [Hin|Hin]; [discriminate|]); exact Hin|]).
    apply List.Forall_nil.
  - intros [k Hk]. discriminate.
Defined.

(* ===================================================================== *)
(** * The push to an empty registry *)
(* ===================================================================== *)

Section FreshPush.
Context `{Platform}.
Hypothesis registry_is_empty : empty_registry.

Lemma request_refused m ep payload hs st r :
  net (trace st) (first_config m ep payload hs st) = Some r ->
  ok_status r = false -> status r <> 401%N ->
  request m ep payload hs st
  = (Throw (status_error r), add_request (first_config m ep payload hs st) st).
Proof.
  intros Hnet Hok Hst. unfold request, bind, try_catch, get, axios.
  fold (first_config m ep payload hs st).
  unfold settle. rewrite Hnet, Hok. cbn [err_response status_error].
  by destruct (N.eqb_spec (status r) 401).
Qed.

Lemma pushBlob_fresh repo p st c :
  read_at p (disk st) = Some c ->
  exists st',
    pushBlob repo p st
    = (Ok ("sha256:" +:+ sha256_hex c, String.length c), st')
    /\ disk st' = disk st
    /\ registryUrl st' = registryUrl st
    /\ authHeader st' = authHeader st
    /\ exists h po pu,
         trace st' = trace st ++ [h; po; pu]
         /\ req_method h = HEAD /\ req_method po = POST /\ req_method pu = PUT.
Proof.
  intros Hc. rewrite (pushBlob_eq repo p st c Hc). cbv zeta.
  set (digest := "sha256:" +:+ sha256_hex c).
  set (st0 := add_log _ st).
  rewrite checkBlob_eq.
  set (hcfg := first_config HEAD ("/v2/" +:+ repo +:+ "/blobs/" +:+ digest)
                 None ∅ st0).
  destruct (registry_is_empty (trace st0) hcfg) as (r & Hr & H404).
  rewrite (request_refused _ _ _ _ _ r Hr);
    [|by unfold ok_status; rewrite H404|by rewrite H404].
  cbv beta iota. change (err_response (status_error r)) with (Some r).
  cbv beta iota. rewrite H404.
  change (negb (404 =? 404)%N) with false. cbv beta iota.
  fold hcfg. set (st1 := add_request hcfg st0).
  unfold uploadBlob, bind, log, modify.
  set (st2 := add_log _ st1).
  set (pcfg := first_config POST ("/v2/" +:+ repo +:+ "/blobs/uploads/")
                 None ∅ st2).
  destruct (registry_is_empty (trace st2) pcfg) as (r2 & Hr2 & Hok2 & Hloc).
  rewrite (request_accepted _ _ _ _ _ r2 Hr2 Hok2).
  destruct (headers r2 !! "location") as [loc|]; [|done].
  unfold get, axios. cbn [fst snd].
  match goal with |- context [settle (net ?h ?q)] =>
    destruct (registry_is_empty h q) as (r3 & Hr3 & Hok3);
    set (ucfg := q) in * end.
  unfold settle. rewrite Hr3, Hok3. cbn.
  eexists. split; [reflexivity|]. cbn.
  split; [done|]. split; [done|]. split; [done|].
  exists hcfg, pcfg, ucfg. split; [by rewrite <- !app_assoc|done].
Qed.

Lemma pushLayers_fresh repo tempDir files : forall st,
  Forall (fun f => exists c, read_at (Path.join tempDir f) (disk st) = Some c)
    files ->
  exists rs st',
    pushLayers repo tempDir files st = (Ok rs, st')
    /\ disk st' = disk st
    /\ registryUrl st' = registryUrl st
    /\ authHeader st' = authHeader st
    /\ exists new,
         trace st' = trace st ++ new
         /\ map req_method new
            = flat_map (fun _ => [HEAD; POST; PUT]) files.
Proof.
  induction files as [|f files IH]; intros st Hfiles.
  { exists [], st. cbn. repeat split; try done. exists [].
    by rewrite app_nil_r. }
  apply Forall_cons in Hfiles as [[c Hc] Hfiles].
  destruct (pushBlob_fresh repo _ st c Hc)
    as (st1 & E1 & D1 & U1 & A1 & h & po & pu & T1 & Mh & Mpo & Mpu).
  destruct (IH st1) as (rs & st2 & E2 & D2 & U2 & A2 & new & T2 & M2).
  { by rewrite D1. }
  cbn [pushLayers]. unfold bind. rewrite E1, E2.
  eexists _, st2. split; [reflexivity|].
  split; [congruence|]. split; [congruence|]. split; [congruence|].
  exists ([h; po; pu] ++ new). split.
  - by rewrite T2, T1, <- app_assoc.
  - cbn. by rewrite Mh, Mpo, Mpu, M2.
Qed.


End FreshPush.


Section FailedPush.
Context `{Platform}.

(** X12.  A push that throws after the archive was unpacked cleans
    nothing up: whatever step failed, the index, a blob or the manifest,
    the disk is as the extraction left it, with the extraction directory
    and all that was unpacked. *)
Theorem failed_push_leaves_extraction tempDir tarPath repo tag st D e :
  unpacked tempDir tarPath (disk st) = Some D ->
  let out := pushTarball tempDir tarPath repo tag st in
  fst out = Throw e ->
  disk (snd out) = D /\ is_dir_at tempDir D = true.
Proof.
  intros Hun. cbv zeta.
  unfold pushTarball, bind, get, log, modify.
  unfold unpacked in Hun. cbn [fst snd disk add_log].
  destruct (ensureDir tempDir (disk st)) as [root0|] eqn:Hens; [|done].
  cbn [fst snd disk add_log set_disk].
  set (st0 := add_log _ (set_disk root0 _)).
  unfold extract, bind, get. cbn [disk st0 add_log set_disk].
  destruct (read_at tarPath root0) as [bytes|]; [|done].
  destruct (tar_entries bytes) as [es|]; [|done].
  rewrite Hun. cbn [modify fst snd]. cbn [disk set_disk].
  assert (Hdir : is_dir_at tempDir D = true).
  { apply (extract_entries_keep _ _ _ _ Hun). by eapply ensureDir_is_dir. }
  destruct (exists_at _ D); cbn [negb]; [|by intros _].
  destruct (read_at _ D ≫= readJson) as [[|meta metas]|];
    [by intros _|..|by intros _].
  set (st2 := add_log _ (add_log _ (set_disk D st0))).
  assert (Dst2 : disk st2 = D) by done.
  pose proof (pushBlob_frame repo tag (Path.join tempDir (Config meta)) st2)
    as (D3 & _).
  destruct (pushBlob repo _ st2) as [[cfg|e3] st3]; cbn [fst snd] in *;
    [|intros _; split; [congruence|done]].
  pose proof (pushLayers_frame repo tag tempDir (Layers meta) st3)
    as (D4 & _).
  destruct (pushLayers repo tempDir (Layers meta) st3) as [[rs|e4] st4];
    cbn [fst snd] in *; [|intros _; split; [congruence|done]].
  unfold try_catch, bind, log, modify. cbn [fst snd add_log].
  set (body := stringify (buildManifest cfg rs)).
  set (st5 := add_log _ (add_log _ (add_log _ st4))).
  set (ep := "/v2/" +:+ repo +:+ "/manifests/" +:+ tag).
  match goal with |- context [request PUT ep (Some body) ?x st5] =>
    set (hs := x) end.
  pose proof (request_frame PUT ep (Some body) hs st5) as (D6 & _).
  destruct (request PUT ep (Some body) hs st5) as [[r|e6] st6];
    cbn [fst snd] in *; [done|].
  intros _. split; [|done].
  assert (Dst5 : disk st5 = D) by (cbn [disk st5 add_log]; congruence).
  destruct (err_response e6); cbn; by rewrite D6.
Qed.

End FailedPush.

(** A run of [failed_push_leaves_extraction]: the registry refuses
    everything. *)
Lemma failed_push_witness :
  let P := Scenario.platform (fun _ _ => Scenario.answer 500 [] []) in
  let st := Scenario.logged_in "http://myhost" None Scenario.images in
  let out :=
    pushTarball (H := P) ["tmp"; "sth-deploy-1"] ["images"; "svc.tar"]
      "ns/svc" "v1" st in
  (exists e, fst out = Throw e)
  /\ is_dir_at ["tmp"; "sth-deploy-1"] (disk (snd out)) = true
  /\ read_at ["tmp"; "sth-deploy-1"; "l2.tar"] (disk (snd out))
     = Some "layer-2".
Proof.
  intros P st out.
  pose (D := default (Dir [])
               (unpacked (H := P) ["tmp"; "sth-deploy-1"] ["images"; "svc.tar"]
                  (disk st))).
  destruct (fst out) as [[]|e] eqn:Hout; [vm_compute in Hout; discriminate|].
  destruct (failed_push_leaves_extraction (H := P) ["tmp"; "sth-deploy-1"]
              ["images"; "svc.tar"] "ns/svc" "v1" st D e)
    as [HD Hdir]; [vm_compute; reflexivity|exact Hout|].
  split; [by exists e|]. unfold out. rewrite HD.
  split; [exact Hdir|]. vm_compute. reflexivity.
Defined.

(* ===================================================================== *)
(** * Coordinates and identifiers *)
(* ===================================================================== *)

Section Coordinates.

(** X13.  A coordinate with a [/] is cut at its first [/]: the host is
    what stands before it and has no [/], the repository is all that
    stands behind it, whatever the name of the service; and the
    identifier looked for in the manifests is the last segment of the
    coordinate. *)
Theorem coordinate_cut_at_first_separator coordinate svc :
  Js.includes coordinate "/" = true ->
  let regHost := fst (split_coordinate coordinate svc) in
  let repoName := snd (split_coordinate coordinate svc) in
  coordinate = regHost +:+ "/" +:+ repoName
  /\ Js.includes regHost "/" = false
  /\ identifier_of repoName = identifier_of coordinate.
Proof.
  intros Hi. cbv zeta. unfold split_coordinate, identifier_of, Js.pop.
  pose proof (join_split coordinate) as Hj.
  pose proof (split_pieces coordinate) as Hp.
  destruct (split_with_slash _ Hi) as (h & p & ps & E).
  rewrite E in *. cbn [fst snd].
  apply Forall_cons in Hp as [Hh Hrest].
  split; [by rewrite <- Hj|]. split; [done|].
  by rewrite split_join.
Qed.

(** X14.  The identifier is the last segment of the repository name: it
    has no [/], and the repository name is the identifier itself or ends
    with a [/] and the identifier. *)
Theorem identifier_is_last_segment repoName :
  Js.includes (identifier_of repoName) "/" = false
  /\ (repoName = identifier_of repoName
      \/ exists ns, repoName = ns +:+ "/" +:+ identifier_of repoName).
Proof.
  unfold identifier_of, Js.pop.
  pose proof (join_split repoName) as Hj.
  pose proof (split_pieces repoName) as Hp.
  pose proof (split_not_nil repoName) as Hne.
  destruct (exists_last Hne) as (init & x & E). rewrite E in *.
  rewrite last_snoc. cbn [default].
  apply Forall_app in Hp as [_ Hx]. inversion Hx; subst.
  split; [done|].
  destruct init as [|p init]; [by left|].
  right. exists (Js.join "/" (p :: init)). by rewrite <- join_snoc.
Qed.

End Coordinates.

(** A run of [coordinate_cut_at_first_separator]: a host with a port and
    a repository of two segments. *)
Lemma coordinate_cut_witness :
  split_coordinate "harbor.example:80/sth/sth-api" "sth-local-api"
  = ("harbor.example:80", "sth/sth-api")
  /\ identifier_of "sth/sth-api" = "sth-api".
Proof.
  destruct (coordinate_cut_at_first_separator "harbor.example:80/sth/sth-api"
              "sth-local-api" eq_refl) as (_ & _ & E).
  split; [reflexivity|exact E].
Defined.

(* ===================================================================== *)
(** * More on the search for the manifest *)
(* ===================================================================== *)

Section Search.
Context `{Platform} `{Workstation}.

Lemma lookup_path_app p q n :
  lookup (p ++ q) n = lookup p n ≫= lookup q.
Proof.
  revert n. induction p as [|s p IH]; intros n; [done|].
  destruct n as [c|es]; [done|]. cbn [app]. rewrite !lookup_cons.
  destruct (assoc s es); [apply IH|done].
Qed.

Lemma getAllFiles_keeps n dirPath acc x :
  In x acc -> In x (getAllFiles dirPath n acc).
Proof.
  intros Hin. destruct (getAllFiles_below n dirPath acc) as (rels & -> & _).
  apply in_or_app. by left.
Qed.

(** The traversal lists every file that is reached through directories
    without [.git] in their names. *)
Lemma getAllFiles_complete n :
  forall dirPath acc rel c,
    below_without_git rel -> lookup rel n = Some (File c) ->
    In (dirPath ++ rel) (getAllFiles dirPath n acc).
Proof.
  induction n as [c0|es IH] using node_nested_ind;
    intros dirPath acc rel c [Hne Hgit] Hl.
  { by destruct rel. }
  destruct rel as [|s rel]; [done|]. rewrite lookup_cons in Hl.
  revert acc. induction IH as [|[f n'] rest Hn' _ IHrest]; intros acc; [done|].
  cbn [assoc] in Hl. cbn [snd] in Hn'.
  destruct (String.eqb_spec s f) as [->|Hsf].
  - destruct n' as [c1|es'].
    + destruct rel; [|done].
      change (In (dirPath ++ [f])
                (getAllFiles dirPath (Dir rest) (acc ++ [dirPath ++ [f]]))).
      apply getAllFiles_keeps, in_or_app. right. by left.
    + destruct rel as [|s2 rel2]; [done|].
      change (removelast (f :: s2 :: rel2))
        with (f :: removelast (s2 :: rel2)) in Hgit.
      apply Forall_cons in Hgit as [Hf Hgit].
      change (In (dirPath ++ f :: s2 :: rel2)
                (if negb (Js.includes f ".git")
                 then getAllFiles dirPath (Dir rest)
                        (getAllFiles (dirPath ++ [f]) (Dir es') acc)
                 else getAllFiles dirPath (Dir rest) acc)).
      rewrite Hf. cbn [negb]. apply getAllFiles_keeps.
      replace (dirPath ++ f :: s2 :: rel2)
        with ((dirPath ++ [f]) ++ s2 :: rel2) by by rewrite <- app_assoc.
      by eapply Hn'.
  - specialize (IHrest Hl).
    destruct n' as [c1|es'].
    + apply (IHrest (acc ++ [dirPath ++ [f]])).
    + change (In (dirPath ++ s :: rel)
                (if negb (Js.includes f ".git")
                 then getAllFiles dirPath (Dir rest)
                        (getAllFiles (dirPath ++ [f]) (Dir es') acc)
                 else getAllFiles dirPath (Dir rest) acc)).
      destruct (negb _); apply IHrest.
Qed.

(** X15.  The search misses no manifest: when a file below the searched
    directory, reached through directories without [.git] in their
    names, has a YAML name and contains the identifier, [findYamlFile]
    returns a file. *)
Theorem search_finds_a_manifest root dir identifier baseDir rel :
  is_dir_at dir root = true ->
  below_without_git rel ->
  is_manifest identifier root (dir ++ rel) = true ->
  exists t, findYamlFile root dir identifier baseDir = Some t.
Proof.
  intros Hdir Hrel Hm. unfold findYamlFile. unfold is_dir_at in Hdir.
  destruct (lookup dir root) as [d|] eqn:Hd; [|done].
  assert (Hin : In (dir ++ rel) (getAllFiles dir d [])).
  { unfold is_manifest, read_at in Hm. rewrite lookup_path_app, Hd in Hm.
    cbn in Hm. destruct (lookup rel d) as [[c|]|] eqn:Hl;
      [|by rewrite andb_false_r in Hm..].
    by eapply getAllFiles_complete. }
  destruct (List.find _ _) as [f|] eqn:Hf; [eauto|].
  by rewrite (find_none _ _ Hf _ Hin) in Hm.
Qed.

Lemma plain_lookup rel : forall n x,
  plain_tree n = true -> lookup rel n = Some x ->
  forallb plain_name rel = true /\ plain_tree x = true.
Proof.
  induction rel as [|s rel IH]; intros n x Hn Hl.
  { cbn in Hl. by injection Hl as <-. }
  destruct n as [c|es]; [done|]. rewrite lookup_cons in Hl.
  cbn [plain_tree] in Hn. rewrite forallb_forall in Hn.
  destruct (assoc s es) as [c|] eqn:Hs; [|done].
  assert (Hin : In (s, c) es).
  { clear -Hs. induction es as [|[k v] es IHes]; [done|]. cbn in Hs.
    destruct (String.eqb_spec s k) as [->|]; [left; congruence|right; auto]. }
  specialize (Hn _ Hin). cbn in Hn. apply andb_true_iff in Hn as [Hs1 Hc].
  destruct (IH c x Hc Hl) as [Hrel Hx]. cbn. by rewrite Hs1, Hrel.
Qed.

Lemma relative_app base p : Path.relative base (base ++ p) = p.
Proof.
  induction base as [|b base IH]; [by destruct p|]. cbn.
  by rewrite String.eqb_refl.
Qed.

Lemma normalize_plain segs : forall acc,
  forallb plain_name segs = true ->
  normalize_onto acc segs = rev acc ++ segs.
Proof.
  induction segs as [|s segs IH]; intros acc Hp; cbn.
  { by rewrite app_nil_r. }
  cbn in Hp. apply andb_true_iff in Hp as [Hs Hp].
  unfold plain_name in Hs.
  repeat (apply andb_true_iff in Hs as [Hs ?]).
  destruct (String.eqb s ""); [done|]. destruct (String.eqb s "."); [done|].
  destruct (String.eqb s ".."); [done|]. cbn.
  rewrite (IH _ Hp). cbn. by rewrite <- app_assoc.
Qed.

Lemma join_plain base rel :
  rel <> [] -> forallb plain_name rel = true ->
  Path.join base (Js.join "/" rel) = base ++ rel.
Proof.
  intros Hne Hp. unfold Path.join. rewrite split_join; [|done|].
  - by rewrite (normalize_plain _ _ Hp), rev_involutive.
  - rewrite forallb_forall in Hp. apply List.Forall_forall. intros s Hs.
    specialize (Hp s Hs). unfold plain_name in Hp.
    apply andb_true_iff in Hp as [_ Hp]. by apply negb_true_iff.
Qed.

(** X16.  What the search returns leads back to what it found: in a clone
    whose entries have the names a directory listing gives, the path
    returned, joined onto the base directory as the handler does, is a file
    with a YAML name that contains the identifier. *)
Theorem found_path_leads_back root baseDir x identifier d t :
  lookup (baseDir ++ x) root = Some d ->
  plain_tree d = true -> forallb plain_name x = true ->
  findYamlFile root (baseDir ++ x) identifier baseDir = Some t ->
  is_manifest identifier root (Path.join baseDir t) = true.
Proof.
  intros Hd Hplain Hx Hf.
  destruct (findYamlFile_first _ _ _ _ _ Hf)
    as (d' & rel & _ & _ & Hd' & _ & -> & [Hne _] & Hm & _).
  rewrite Hd in Hd'. injection Hd' as <-.
  rewrite <- app_assoc, relative_app.
  assert (Hrel : forallb plain_name rel = true).
  { unfold is_manifest, read_at in Hm. rewrite lookup_path_app, Hd in Hm.
    cbn in Hm. destruct (lookup rel d) as [n|] eqn:Hl;
      [|by rewrite andb_false_r in Hm].
    by destruct (plain_lookup _ _ _ Hplain Hl). }
  rewrite join_plain.
  - by rewrite app_assoc.
  - by destruct x.
  - by rewrite forallb_app, Hx, Hrel.
Qed.

(** X17.  Without a usable hint the whole clone is searched: a hint that
    is absent, empty or blank, or that names nothing in the clone, makes
    the target what the search from the root of the clone returns. *)
Theorem unusable_hint_falls_back repoDir hint repoName st :
  (truthy hint = None
   \/ exists x, hint = Some x
        /\ (is_blank x = true
            \/ exists_at (Path.join repoDir x) (disk st) = false)) ->
  fst (locate repoDir hint repoName st)
  = Ok (truthy (findYamlFile (disk st) repoDir (identifier_of repoName)
                  repoDir))
  /\ trace (snd (locate repoDir hint repoName st)) = trace st
  /\ disk (snd (locate repoDir hint repoName st)) = disk st.
Proof.
  intros Hhint. unfold locate, bind, get, log, modify, ret. cbn [fst snd].
  destruct Hhint as [->|(x & -> & Hx)].
  { cbn. by destruct (truthy (findYamlFile _ _ _ _)). }
  destruct (truthy (Some x)) as [y|] eqn:Hy.
  2:{ cbn. by destruct (truthy (findYamlFile _ _ _ _)). }
  assert (y = x) as -> by (cbn in Hy; by destruct (String.eqb x ""); simplify_eq).
  destruct Hx as [->|Hx]; cbn [negb fst snd].
  { cbn. by destruct (truthy (findYamlFile _ _ _ _)). }
  destruct (negb (is_blank x)); cbn [fst snd].
  2:{ cbn. by destruct (truthy (findYamlFile _ _ _ _)). }
  rewrite Hx. cbn. by destruct (truthy (findYamlFile _ _ _ _)).
Qed.


Lemma writeFile_over p c : forall n old,
  read_at p n = Some old -> exists n', writeFile p c n = Some n'.
Proof.
  unfold read_at. induction p as [|s p IH]; intros n old Hr.
  { destruct n; [eauto|done]. }
  destruct n as [c0|es]; [done|]. rewrite lookup_cons in Hr. cbn.
  destruct (assoc s es) as [ch|]; [|done].
  destruct (IH ch old Hr) as [n' ->]. eauto.
Qed.

Lemma updateYaml_missing filePath identifier newTag st :
  read_at filePath (disk st) = None ->
  exists e, updateYaml filePath identifier newTag st = (Throw e, st).
Proof. intros Hno. unfold updateYaml, bind, get. rewrite Hno. eauto. Qed.

(** [updateYaml] on a file. *)
Lemma updateYaml_on_file filePath identifier newTag st old :
  read_at filePath (disk st) = Some old ->
  let out := updateYaml filePath identifier newTag st in
  fst out = Ok tt
  /\ read_at filePath (disk (snd out))
     = Some (utf8_encode
               (TagPatcher.newContent (utf8_decode old)
                  (TagPatcher.of_string identifier)
                  (TagPatcher.of_string newTag)))
  /\ (forall q, q <> filePath ->
        read_at q (disk (snd out)) = read_at q (disk st))
  /\ trace (snd out) = trace st
  /\ logs (snd out) = logs st.
Proof.
  intros Hold. cbv zeta. unfold updateYaml, bind, get. rewrite Hold.
  destruct (writeFile_over filePath
              (utf8_encode
                 (TagPatcher.newContent (utf8_decode old)
                    (TagPatcher.of_string identifier)
                    (TagPatcher.of_string newTag))) _ _ Hold) as [n' Hw].
  rewrite Hw. cbn. split; [done|].
  split; [by eapply writeFile_read|].
  split; [|done]. intros q Hq. by eapply writeFile_read_other.
Qed.


End Search.

(* ===================================================================== *)
(** * More on the deployment handler *)
(* ===================================================================== *)

Section Runs.
Context `{Platform} `{Workstation}.

(** X20.  When the archive is not where the handler looks for it, the
    run ends at once: the event reports a failure without a tag, nothing
    has been sent, and neither the disk nor the session of the client has
    changed; the last line of the log names the path. *)
Theorem missing_archive_ends_run h rq st :
  let finalTarPath :=
    match tarPath rq with
    | Some p => p
    | None =>
        Path.join (Path.join (cwd h) "images") (serviceName rq +:+ ".tar")
    end in
  exists_at finalTarPath (disk st) = false ->
  let out := run_deploy h rq st in
  fst out = mkComplete (serviceName rq) false None
  /\ trace (snd out) = trace st
  /\ disk (snd out) = disk st
  /\ authHeader (snd out) = authHeader st
  /\ registryUrl (snd out) = registryUrl st
  /\ last (logs (snd out))
     = Some ("Error: Tar file not found at " +:+ Path.show finalTarPath).
Proof.
  intros finalTarPath Hno. cbv zeta.
  unfold run_deploy, deploy_steps. fold finalTarPath.
  unfold bind, get, log, modify. cbn [fst snd disk add_log].
  rewrite Hno. cbn. repeat split. by rewrite last_snoc.
Qed.

Lemma deploy_steps_done h rq st :
  let regHost := fst (split_coordinate (registryCoordinate rq) (serviceName rq)) in
  let repoName := snd (split_coordinate (registryCoordinate rq) (serviceName rq)) in
  let finalTarPath :=
    match tarPath rq with
    | Some p => p
    | None =>
        Path.join (Path.join (cwd h) "images") (serviceName rq +:+ ".tar")
    end in
  fst (deploy_steps h rq st) = Ok true ->
  exists st2,
    registryUrl st2 = base_url regHost
    /\ disk st2 = disk st
    /\ fst (pushTarball (tempDir_of h) finalTarPath repoName (tag rq) st2)
       = Ok tt
    /\ deploy_steps h rq st
       = gitops_steps (repoDir_of h (serviceName rq)) rq repoName
           (snd (pushTarball (tempDir_of h) finalTarPath repoName (tag rq)
                   st2)).
Proof.
  cbv zeta. unfold deploy_steps.
  destruct (split_coordinate (registryCoordinate rq) (serviceName rq))
    as [regHost repoName]. cbn [fst snd].
  set (finalTarPath := match tarPath rq with Some p => p | None => _ end).
  unfold bind, get, log, modify. cbn [fst snd].
  destruct (exists_at finalTarPath (disk st)); cbn [negb fst snd]; [|done].
  set (st0 := add_log _ (add_log _ (add_log _ st))).
  destruct (login_frame (reg_username (settings rq)) (reg_password (settings rq))
              regHost st0) as (U1 & D1 & _).
  destruct (login _ _ regHost st0) as [[[]|e] st1]; cbn [fst snd] in *; [|done].
  set (st2 := add_log _ st1).
  intros Hok. exists st2. split; [exact U1|]. split; [exact D1|].
  destruct (pushTarball _ _ _ _ st2) as [[[]|e] st3]; cbn [fst snd] in *;
    done.
Qed.

Lemma locate_reads_disk repoDir hint repoName st st' :
  disk st = disk st' ->
  fst (locate repoDir hint repoName st) = fst (locate repoDir hint repoName st').
Proof.
  intros D. unfold locate, bind, get, log, modify, ret. cbn [fst snd].
  rewrite <- D.
  destruct (truthy hint) as [x|]; cbn [fst snd].
  2:{ by destruct (truthy _). }
  destruct (negb (is_blank x)); cbn [fst snd].
  2:{ by destruct (truthy _). }
  destruct (exists_at _ _); cbn [fst snd].
  2:{ by destruct (truthy _). }
  destruct (is_dir_at _ _); cbn [fst snd].
  - by destruct (truthy (findYamlFile _ _ _ _)).
  - by destruct (truthy (Some x)).
Qed.

(** What the Git operations have done when they return. *)
Lemma gitops_steps_done repoDir rq repoName st :
  let cfg := settings rq in
  let out := gitops_steps repoDir rq repoName st in
  fst out = Ok true ->
  exists tree cloned target old,
    git_clone (git_repo_url cfg) (username cfg) (password cfg) = inr tree
    /\ lookup repoDir cloned = Some tree
    /\ fst (locate repoDir (manifestPath rq) repoName (set_disk cloned st))
       = Ok (Some target)
    /\ read_at (Path.join repoDir target) cloned = Some old
    /\ read_at (Path.join repoDir target) (disk (snd out))
       = Some (utf8_encode
                 (TagPatcher.newContent (utf8_decode old)
                    (TagPatcher.of_string (identifier_of repoName))
                    (TagPatcher.of_string (tag rq))))
    /\ (forall q, q <> Path.join repoDir target ->
          read_at q (disk (snd out)) = read_at q cloned)
    /\ (let work := default (Dir []) (lookup repoDir (disk (snd out))) in
        git_add work target = None
        /\ git_commit work
             ("Deploy " +:+ serviceName rq +:+ ":" +:+ tag rq)
             (default "STH Deployer" (truthy (username cfg))) = None
        /\ git_push work (username cfg) (password cfg) = None)
    /\ trace (snd out) = trace st.
Proof.
  cbv zeta. unfold gitops_steps, bind, get, log, modify. cbn [fst snd].
  set (st0 := if exists_at repoDir (disk st) then _ else st).
  assert (T0 : trace st0 = trace st)
    by (subst st0; by destruct (exists_at repoDir (disk st))).
  destruct (ensureDir repoDir (disk st0)) as [root|]; [|done].
  cbn [fst snd disk set_disk add_log].
  destruct (git_clone _ _ _) as [e|tree] eqn:Hclone; [done|].
  destruct (graft repoDir tree root) as [cloned|] eqn:Eg; [|done].
  cbn [fst snd].
  set (st1 := set_disk cloned _).
  assert (T1 : trace st1 = trace st) by exact T0.
  pose proof (locate_reads_disk repoDir (manifestPath rq) repoName st1
                (set_disk cloned st) eq_refl) as L.
  destruct (locate_frame repoDir (manifestPath rq) repoName st1)
    as (T2 & D2 & t & E2).
  destruct (locate repoDir (manifestPath rq) repoName st1) as [r2 st2].
  cbn [fst snd] in *. rewrite E2 in L |- *. clear E2 r2. rewrite T1 in T2.
  destruct t as [target|]; [|by cbn].
  cbn [fst snd].
  set (st3 := add_log _ st2).
  assert (D3 : disk st3 = cloned) by exact D2.
  destruct (read_at (Path.join repoDir target) (disk st3)) as [old|] eqn:Hold.
  2:{ destruct (updateYaml_missing _ (identifier_of repoName) (tag rq) _ Hold)
        as [e ->]. done. }
  destruct (updateYaml_on_file _ (identifier_of repoName) (tag rq) _ _ Hold)
    as (Uok & Unew & Uother & Utrace & _).
  rewrite D3 in Hold.
  destruct (updateYaml _ _ _ st3) as [[[]|e] st4]; cbn [fst snd] in *;
    [|done].
  rewrite !lift_git_eq.
  destruct (git_add _ _) eqn:Hadd; cbn [fst snd add_log trace]; [done|].
  destruct (git_commit _ _ _) eqn:Hcommit; cbn [fst snd add_log trace]; [done|].
  destruct (git_push _ _ _) eqn:Hpush; cbn [fst snd add_log trace disk ret];
    [done|].
  intros _. exists tree, cloned, target, old.
  split; [done|]. split; [by eapply graft_lookup|].
  split; [by rewrite <- L|]. split; [exact Hold|].
  split; [exact Unew|]. split; [by rewrite <- D3|].
  split; [done|]. by rewrite Utrace.
Qed.

(** X21.  A run that reports success, for an identifier that is literal
    text in a pattern, has changed one file outside the [.git] directory
    of the clone: the target the search gave on the cloned tree, which
    (when it is not itself below [.git]) now holds the text of the clone
    patched for the identifier and the tag of the request; every other
    file that is not below [.git] is as the clone and the push left it.
    Nothing is said of the files below [.git], where [add] and [commit]
    write. *)
Theorem successful_run_patches_the_target h rq st :
  let repoDir := repoDir_of h (serviceName rq) in
  let repoName :=
    snd (split_coordinate (registryCoordinate rq) (serviceName rq)) in
  let cfg := settings rq in
  let out := run_deploy h rq st in
  TagPatcher.regex_literal (TagPatcher.of_string (identifier_of repoName))
  = true ->
  success (fst out) = true ->
  exists tree cloned target old,
    git_clone (git_repo_url cfg) (username cfg) (password cfg) = inr tree
    /\ lookup repoDir cloned = Some tree
    /\ fst (locate repoDir (manifestPath rq) repoName (set_disk cloned st))
       = Ok (Some target)
    /\ read_at (Path.join repoDir target) cloned = Some old
    /\ (~ in_git_dir repoDir (Path.join repoDir target) ->
        read_at (Path.join repoDir target) (disk (snd out))
        = Some (utf8_encode
                  (TagPatcher.newContent (utf8_decode old)
                     (TagPatcher.of_string (identifier_of repoName))
                     (TagPatcher.of_string (tag rq)))))
    /\ forall q, q <> Path.join repoDir target -> ~ in_git_dir repoDir q ->
         read_at q (disk (snd out)) = read_at q cloned.
Proof.
  intros repoDir repoName cfg out _ Hs. subst out.
  destruct (run_deploy_trace h rq st) as (st0 & _ & _ & D & Hok).
  specialize (Hok Hs).
  destruct (deploy_steps_done h rq st0 Hok) as (st2 & _ & _ & _ & E).
  rewrite D, E. rewrite E in Hok.
  destruct (gitops_steps_done _ _ _ _ Hok)
    as (tree & cloned & target & old & G1 & G2 & G3 & G4 & G5 & G6 & _).
  exists tree, cloned, target, old.
  split; [done|]. split; [done|]. split.
  { rewrite <- G3. by apply locate_reads_disk. }
  split; [done|]. split; [by intros _|]. intros q Hq _. by apply G6.
Qed.

(** X22.  A run that reports success carries the tag in its event, has
    sent the PUT of the manifest under the tag as its last request, to the
    repository of the coordinate on the host of the coordinate, and has
    staged the target, committed it as [Deploy service:tag] under the Git
    user name (or [STH Deployer] without one) and pushed it, each without
    an error. *)
Theorem successful_run_published_and_pushed h rq st :
  let repoDir := repoDir_of h (serviceName rq) in
  let regHost :=
    fst (split_coordinate (registryCoordinate rq) (serviceName rq)) in
  let repoName :=
    snd (split_coordinate (registryCoordinate rq) (serviceName rq)) in
  let cfg := settings rq in
  let out := run_deploy h rq st in
  success (fst out) = true ->
  dc_tag (fst out) = Some (tag rq)
  /\ (exists published,
        last (trace (snd out)) = Some published
        /\ req_method published = PUT
        /\ req_url published
           = base_url regHost +:+ "/v2/" +:+ repoName +:+ "/manifests/"
             +:+ tag rq)
  /\ exists target,
       let work := default (Dir []) (lookup repoDir (disk (snd out))) in
       git_add work target = None
       /\ git_commit work
            ("Deploy " +:+ serviceName rq +:+ ":" +:+ tag rq)
            (default "STH Deployer" (truthy (username cfg))) = None
       /\ git_push work (username cfg) (password cfg) = None.
Proof.
  intros repoDir regHost repoName cfg out Hs. subst out.
  split.
  { unfold run_deploy in Hs |- *.
    destruct (deploy_steps h rq _) as [[[|]|e] st1]; done. }
  destruct (run_deploy_trace h rq st) as (st0 & _ & T & D & Hok).
  specialize (Hok Hs).
  destruct (deploy_steps_done h rq st0 Hok) as (st2 & U2 & _ & Hpush & E).
  rewrite T, D, E. rewrite E in Hok.
  destruct (gitops_steps_done _ _ _ _ Hok)
    as (tree & cloned & target & old & _ & _ & _ & _ & _ & _ & G & Tg).
  split; [|by exists target].
  rewrite Tg.
  destruct (pushTarball_run (tempDir_of h)
              match tarPath rq with
              | Some p => p
              | None =>
                  Path.join (Path.join (cwd h) "images")
                    (serviceName rq +:+ ".tar")
              end repoName (tag rq) st2) as [_ R].
  destruct (R Hpush)
    as (D' & meta & c & rs & published & _ & _ & _ & _ & L & M & U & _).
  exists published. split; [exact L|]. split; [exact M|].
  by rewrite U, U2.
Qed.

End Runs.

(** A run of [search_finds_a_manifest]: the manifest of the service
    [other] below [k8s] in the clone of [Scenario.gitops]. *)
Lemma search_finds_witness :
  let W := Scenario.workstation Scenario.gitops true in
  let root := Dir [("repo", Scenario.gitops)] in
  exists t, findYamlFile (H0 := W) root ["repo"] "other" ["repo"] = Some t.
Proof.
  intros W root.
  apply (search_finds_a_manifest (H0 := W) root ["repo"] "other" ["repo"]
           ["k8s"; "other.yaml"]).
  - reflexivity.
  - split; [discriminate|]. repeat constructor.
  - vm_compute. reflexivity.
Defined.

(** A run of [found_path_leads_back]: the manifest of the service [svc]
    at the root of the clone. *)
Lemma found_path_witness :
  let W := Scenario.workstation Scenario.gitops true in
  let root := Dir [("repo", Scenario.gitops)] in
  findYamlFile (H0 := W) root ["repo"] "svc" ["repo"] = Some "values.yaml"
  /\ is_manifest (H0 := W) "svc" root (Path.join ["repo"] "values.yaml") = true.
Proof.
  intros W root.
  assert (Hf : findYamlFile (H0 := W) root (["repo"] ++ []) "svc" ["repo"]
               = Some "values.yaml") by (vm_compute; reflexivity).
  split; [exact Hf|].
  apply (found_path_leads_back (H0 := W) root ["repo"] [] "svc"
           Scenario.gitops "values.yaml"); [reflexivity..|exact Hf].
Defined.

(** A run of [unusable_hint_falls_back]: a hint that names nothing. *)
Lemma unusable_hint_witness :
  let P := Scenario.platform Scenario.open_registry in
  let W := Scenario.workstation Scenario.gitops true in
  let st := Scenario.fresh (Dir [("repo", Scenario.gitops)]) in
  fst (locate (H0 := W) ["repo"] (Some "charts") "ns/svc" st)
  = Ok (Some "values.yaml").
Proof.
  intros P W st.
  destruct (unusable_hint_falls_back (H0 := W) ["repo"] (Some "charts")
              "ns/svc" st) as (E & _).
  { right. exists "charts". split; [reflexivity|]. right. reflexivity. }
  rewrite E. reflexivity.
Defined.


(** A run of [missing_archive_ends_run]: no archive was chosen, and none
    lies in [images] below the working directory. *)
Lemma missing_archive_witness :
  let P := Scenario.platform Scenario.open_registry in
  let W := Scenario.workstation Scenario.gitops true in
  let rq := mkDeploy "svc" "v2" "myhost" (settings Scenario.order) None None in
  let out :=
    run_deploy (H := P) (H0 := W) Scenario.machine rq (Scenario.fresh (Dir [])) in
  fst out = mkComplete "svc" false None
  /\ trace (snd out) = []
  /\ last (logs (snd out))
     = Some "Error: Tar file not found at /home/op/images/svc.tar".
Proof.
  intros P W rq out.
  destruct (missing_archive_ends_run (H := P) (H0 := W) Scenario.machine rq
              (Scenario.fresh (Dir [])) eq_refl) as (E & T & _ & _ & _ & L).
  split; [exact E|]. split; [exact T|exact L].
Defined.


(** A run of [successful_run_patches_the_target]: the order of
    [Scenario.order]. *)
Lemma successful_run_patch_witness :
  let P := Scenario.platform Scenario.open_registry in
  let W := Scenario.workstation Scenario.gitops true in
  let out :=
    run_deploy (H := P) (H0 := W) Scenario.machine Scenario.order
      (Scenario.fresh Scenario.images) in
  success (fst out) = true
  /\ read_at ["tmp"; "repo_svc_2"; "values.yaml"] (disk (snd out))
     = Some "image: host/ns/svc:v2.0.0"
  /\ exists target old,
       ~ in_git_dir ["tmp"; "repo_svc_2"]
           (Path.join ["tmp"; "repo_svc_2"] target) ->
       read_at (Path.join ["tmp"; "repo_svc_2"] target) (disk (snd out))
       = Some (@utf8_encode W
                 (TagPatcher.newContent (@utf8_decode W old)
                    (TagPatcher.of_string "svc")
                    (TagPatcher.of_string "v2.0.0"))).
Proof.
  intros P W out.
  assert (Hl : TagPatcher.regex_literal (TagPatcher.of_string "svc") = true)
    by reflexivity.
  assert (Hs : success (fst out) = true) by (vm_compute; reflexivity).
  split; [exact Hs|]. split; [vm_compute; reflexivity|].
  destruct (successful_run_patches_the_target (H := P) (H0 := W)
              Scenario.machine Scenario.order (Scenario.fresh Scenario.images)
              Hl Hs) as (tree & cloned & target & old & _ & _ & _ & _ & G & _).
  exists target, old. exact G.
Defined.

(** A run of [successful_run_published_and_pushed]: the same order. *)
Lemma successful_run_publish_witness :
  let P := Scenario.platform Scenario.open_registry in
  let W := Scenario.workstation Scenario.gitops true in
  let out :=
    run_deploy (H := P) (H0 := W) Scenario.machine Scenario.order
      (Scenario.fresh Scenario.images) in
  success (fst out) = true
  /\ dc_tag (fst out) = Some "v2.0.0"
  /\ req_url <$> last (trace (snd out))
     = Some "http://myhost/v2/ns/svc/manifests/v2.0.0".
Proof.
  intros P W out.
  assert (Hs : success (fst out) = true) by (vm_compute; reflexivity).
  split; [exact Hs|].
  destruct (successful_run_published_and_pushed (H := P) (H0 := W)
              Scenario.machine Scenario.order (Scenario.fresh Scenario.images)
              Hs) as (Ht & (published & L & _ & U) & _).
  split; [exact Ht|].
  subst out. rewrite L. cbn [fmap option_fmap option_map]. rewrite U.
  reflexivity.
Defined.

(* ===================================================================== *)
(** * More on the tag patcher *)
(* ===================================================================== *)

Section Greedy.
Import TagPatcher.

(** The text taken by [.*] before the literal is the longest there is. *)
Lemma dot_star_lit_longest lit s : forall m r m' r',
  dot_star_lit lit s = Some (m, r) ->
  s = m' ++ lit ++ r' -> forallb is_dot m' = true ->
  length m' <= length m.
Proof.
  induction s as [|c s IH]; intros m r m' r' Hd E Hm'.
  { destruct m'; [cbn; lia|done]. }
  cbn [dot_star_lit] in Hd.
  destruct m' as [|c' m'']; [cbn; lia|].
  injection E as <- E. cbn in Hm'. apply andb_true_iff in Hm' as [Hc Hm''].
  rewrite Hc in Hd.
  destruct (dot_star_lit lit s) as [[m0 r0]|] eqn:E0.
  - injection Hd as <- <-. cbn. specialize (IH _ _ _ _ eq_refl E Hm''). lia.
  - exfalso. apply (dot_star_lit_complete lit m'' r' Hm''). by rewrite <- E.
Qed.

(** The second group of a match holds no further [ID:]. *)
Lemma match_at_last identifier s g1 g2 rest :
  forallb is_dot identifier = true ->
  match_at identifier s = Some (g1, g2, rest) ->
  forall x y, g2 <> x ++ identifier ++ [c_colon] ++ y.
Proof.
  intros Hid. unfold match_at.
  destruct (strip_prefix image_kw s) as [s1|] eqn:E1; [|done].
  destruct (ws_plus _ s1) as [[ws [mid s2]]|] eqn:E2; [|done].
  apply ws_plus_sound in E2 as (s' & -> & Hne & Hws & E3).
  pose proof (dot_star_lit_sound _ _ _ _ E3) as (E4 & Hmid).
  destruct (dot_star s2) as [m r] eqn:E5. intros [= <- <- <-].
  apply dot_star_spec in E5 as (-> & Hm & _).
  intros x y ->.
  rewrite !forallb_app in Hm. apply andb_true_iff in Hm as [Hx _].
  assert (Hlen : length (mid ++ (identifier ++ [c_colon]) ++ x) <= length mid).
  { eapply (dot_star_lit_longest _ _ _ _ _ (y ++ r) E3).
    - rewrite E4. by rewrite <- !app_assoc.
    - rewrite !forallb_app, Hmid, Hid, Hx. done. }
  rewrite !length_app in Hlen. cbn in Hlen. lia.
Qed.

End Greedy.

Section PatchLast.
Import TagPatcher.
Variables identifier newTag : list N.
Hypothesis identifier_in_line : forallb is_dot identifier = true.
Hypothesis tag_in_line : forallb is_dot newTag = true.

Lemma rewrites_matching_line_last s o :
  rewrites identifier newTag s o ->
  forall k, line_matches identifier (line k s) ->
            retagged_last identifier newTag (line k s) (line k o).
Proof.
  induction 1 as [|c s o Hm Hrw IH|s g1 g2 rest o Hm Hrw IH]; intros k Hk.
  - rewrite line_nil in Hk. by apply (no_match_in_space identifier []) in Hk.
  - destruct (is_line_terminator c) eqn:Ec.
    + rewrite !line_cons_lt in * by done. destruct k as [|k].
      * by apply (no_match_in_space identifier []) in Hk.
      * by apply IH.
    + rewrite !line_cons_dot in * by done. destruct k as [|k]; [|by apply IH].
      destruct Hk as (a & ws & mid & b & E & Hne & Hws).
      destruct a as [|c' a].
      * exfalso. destruct (line0_prefix s) as [r Hr].
        assert (Hmid : forallb is_dot mid = true).
        { pose proof (line_is_dot (c :: s) 0) as Hd.
          rewrite line_cons_dot in Hd by done. rewrite E in Hd.
          cbn [app] in Hd. rewrite !forallb_app in Hd.
          apply andb_true_iff in Hd as [_ Hd].
          apply andb_true_iff in Hd as [_ Hd].
          by apply andb_true_iff in Hd as [Hd _]. }
        apply (match_at_complete identifier ws mid (b ++ r) Hne Hws Hmid).
        rewrite <- Hm. f_equal. rewrite Hr.
        change (c :: line 0 s ++ r) with ((c :: line 0 s) ++ r).
        rewrite E. cbn [app]. by rewrite <- !app_assoc.
      * injection E as <- E.
        destruct (IH 0) as (pre & old & E1 & E2 & E3).
        { exists a, ws, mid, b. by rewrite E. }
        exists (c :: pre), old. by rewrite E1, E2.
  - pose proof (match_at_last _ _ _ _ _ identifier_in_line Hm) as Hlast.
    apply match_at_sound in Hm as (-> & (ws & mid & -> & Hne & Hws & Hmid)
                                    & Hg2 & Hrest).
    pose proof (rewrites_after_match _ _ _ _ Hrest Hrw) as Ho.
    assert (Hr0 : line 0 rest = []).
    { destruct Hrest as [->|(c & r' & -> & Hc)]; [done|by rewrite line_cons_lt]. }
    set (g1 := image_kw ++ ws ++ mid ++ identifier ++ [c_colon]) in *.
    rewrite (line_of_match g1 g2 rest k Hg2) in Hk |- *.
    rewrite (line_of_match g1 newTag o k tag_in_line).
    assert (Hn : count_lt g1 = count_lt ws) by by apply count_lt_group.
    repeat case_decide.
    + exfalso. assert (Hl : line k g1 = line k (image_kw ++ ws)).
      { subst g1.
        replace (image_kw ++ ws ++ mid ++ identifier ++ [c_colon])
          with ((image_kw ++ ws) ++ mid ++ identifier ++ [c_colon])
          by by rewrite <- !app_assoc.
        rewrite line_app, count_lt_app. change (count_lt image_kw) with 0.
        case_decide; [done|lia]. }
      rewrite Hl in Hk. rewrite (line_app image_kw) in Hk.
      change (count_lt image_kw) with 0 in Hk.
      assert (Hwk : forall j, forallb is_white_space (line j ws) = true)
        by (intros j; by apply line_forall).
      repeat case_decide; try lia.
      * subst k. rewrite (line_dots image_kw) in Hk by done.
        by apply (no_match_in_space identifier (line 0 ws)) in Hk.
      * by apply (no_match_in_space identifier (line (k - 0) ws)) in Hk.
    + rewrite Ho, Hr0, !app_nil_r.
      assert (Hl : line k g1
                   = (line k (image_kw ++ ws) ++ mid) ++ identifier ++ [c_colon]).
      { subst g1.
        replace (image_kw ++ ws ++ mid ++ identifier ++ [c_colon])
          with ((image_kw ++ ws) ++ mid ++ identifier ++ [c_colon])
          by by rewrite <- !app_assoc.
        rewrite line_app, count_lt_app. change (count_lt image_kw) with 0.
        repeat case_decide; try lia.
        rewrite (line_dots (mid ++ identifier ++ [c_colon]) 0);
          [by rewrite <- !app_assoc|].
        rewrite !forallb_app, Hmid, identifier_in_line. done. }
      rewrite Hl. exists (line k (image_kw ++ ws) ++ mid), g2.
      split; [by rewrite <- !app_assoc|]. split; [by rewrite <- !app_assoc|].
      exact Hlast.
    + by apply IH.
Qed.

End PatchLast.

Section PatcherMore.
Import TagPatcher.

(** X23.  The tag is put after the last [ID:] of a matching line: the
    text it replaces holds no further [ID:], so of several occurrences on
    one line only what follows the last one is rewritten. *)
Theorem tag_follows_last_identifier content identifier newTag k :
  regex_literal identifier = true ->
  forallb is_dot identifier = true ->
  no_dollar newTag = true ->
  forallb is_dot newTag = true ->
  line_matches identifier (line k content) ->
  retagged_last identifier newTag (line k content)
    (line k (newContent content identifier newTag)).
Proof.
  intros _ Hid Hnd Htag Hk.
  pose proof (newContent_rewrites content identifier newTag Hnd) as Hrw.
  by eapply rewrites_matching_line_last.
Qed.

Lemma includes_units_app a sub b : includes_units (a ++ sub ++ b) sub = true.
Proof.
  induction a as [|c a IH]; cbn [app].
  - destruct (sub ++ b) as [|c s] eqn:E; cbn [includes_units];
      rewrite <- E, strip_prefix_app; done.
  - cbn [includes_units]. rewrite IH. by destruct (strip_prefix sub _).
Qed.

Lemma includes_units_tail c s sub :
  includes_units (c :: s) sub = false -> includes_units s sub = false.
Proof.
  cbn [includes_units]. by destruct (strip_prefix sub (c :: s)).
Qed.

(** X24.  For an identifier that is literal text in a pattern, a text
    in which [image:] does not occur, or in which the identifier followed
    by a colon does not occur, is written back as it was read. *)
Theorem text_without_pattern_unchanged content identifier newTag :
  regex_literal identifier = true ->
  no_dollar newTag = true ->
  includes_units content image_kw = false
  \/ includes_units content (identifier ++ [c_colon]) = false ->
  newContent content identifier newTag = content.
Proof.
  intros _ Hnd Hno.
  pose proof (newContent_rewrites content identifier newTag Hnd) as Hrw.
  induction Hrw as [|c s o Hm Hrw IH|s g1 g2 rest o Hm Hrw IH]; [done|..].
  - f_equal. apply IH. destruct Hno as [Hno|Hno]; [left|right];
      by eapply includes_units_tail.
  - exfalso.
    apply match_at_sound in Hm as (-> & (ws & mid & -> & _) & _).
    destruct Hno as [Hno|Hno].
    + replace ((image_kw ++ ws ++ mid ++ identifier ++ [c_colon]) ++ g2 ++ rest)
        with ([] ++ image_kw
              ++ (ws ++ mid ++ identifier ++ [c_colon] ++ g2 ++ rest))
        in Hno by (cbn [app]; by rewrite <- !app_assoc).
      by rewrite includes_units_app in Hno.
    + replace ((image_kw ++ ws ++ mid ++ identifier ++ [c_colon]) ++ g2 ++ rest)
        with ((image_kw ++ ws ++ mid) ++ (identifier ++ [c_colon]) ++ g2 ++ rest)
        in Hno by (by rewrite <- !app_assoc).
      by rewrite includes_units_app in Hno.
Qed.

End PatcherMore.

(** A run of [tag_follows_last_identifier]: a line that names the image
    twice. *)
Lemma last_identifier_witness :
  let content := TagPatcher.of_string "image: a/svc:v1 # was b/svc:v0" in
  let identifier := TagPatcher.of_string "svc" in
  let newTag := TagPatcher.of_string "v2" in
  TagPatcher.newContent content identifier newTag
  = TagPatcher.of_string "image: a/svc:v1 # was b/svc:v2"
  /\ retagged_last identifier newTag (TagPatcher.line 0 content)
       (TagPatcher.line 0 (TagPatcher.newContent content identifier newTag)).
Proof.
  intros content identifier newTag. split; [vm_compute; reflexivity|].
  apply tag_follows_last_identifier; [reflexivity..|].
  exists [], (TagPatcher.of_string " "), (TagPatcher.of_string "a/"),
    (TagPatcher.of_string "v1 # was b/svc:v0").
  split; [vm_compute; reflexivity|]. split; [discriminate|reflexivity].
Defined.

(** A run of [text_without_pattern_unchanged]: a manifest that names the
    service, and no image of it. *)
Lemma text_without_pattern_witness :
  let content :=
    TagPatcher.of_string "name: svc" ++ [10%N]
    ++ TagPatcher.of_string "replicas: 2" in
  TagPatcher.newContent content (TagPatcher.of_string "svc")
    (TagPatcher.of_string "v2") = content
  /\ includes_units content (TagPatcher.of_string "svc") = true.
Proof.
  intros content. split; [|reflexivity].
  apply text_without_pattern_unchanged; [reflexivity|reflexivity|].
  left. reflexivity.
Defined.

(* ===================================================================== *)
(** * Patching twice *)
(* ===================================================================== *)

Section Longest.
Import TagPatcher.

(** The white space taken by [\s+] is the longest after which the rest of
    the pattern matches. *)
Lemma ws_plus_longest {R} (k : list N -> option R) s : forall w x w' s'',
  ws_plus k s = Some (w, x) ->
  s = w' ++ s'' -> w' <> [] -> forallb is_white_space w' = true ->
  k s'' <> None ->
  length w' <= length w.
Proof.
  induction s as [|c s IH]; intros w x w' s'' Hw E Hne Hw' Hk; [done|].
  cbn [ws_plus] in Hw. destruct (is_white_space c) eqn:Ec; [|done].
  destruct w' as [|c' w'']; [done|]. injection E as <- E.
  cbn in Hw'. apply andb_true_iff in Hw' as [_ Hw''].
  destruct (ws_plus k s) as [[w0 x0]|] eqn:E0.
  - injection Hw as <- <-. destruct w'' as [|c2 w3]; [cbn; lia|].
    assert (Hne' : c2 :: w3 <> []) by done.
    specialize (IH _ _ _ _ eq_refl E Hne' Hw'' Hk). cbn in *. lia.
  - destruct w'' as [|c2 w3].
    + destruct (k s); [|done]. injection Hw as <- <-. cbn. lia.
    + exfalso. assert (Hne' : c2 :: w3 <> []) by done.
      apply (ws_plus_complete k (c2 :: w3) s'' Hne' Hw'' Hk).
      by rewrite <- E.
Qed.

Lemma dots_no_terminator M c :
  forallb is_dot M = true -> is_line_terminator c = true -> ~ In c M.
Proof.
  intros HM Hc Hin. rewrite forallb_forall in HM. apply HM in Hin.
  unfold is_dot in Hin. by rewrite Hc in Hin.
Qed.

Lemma dots_split_unique a : forall a' r r',
  forallb is_dot a = true -> forallb is_dot a' = true ->
  (r = [] \/ exists c r0, r = c :: r0 /\ is_line_terminator c = true) ->
  (r' = [] \/ exists c r0, r' = c :: r0 /\ is_line_terminator c = true) ->
  a ++ r = a' ++ r' -> a = a' /\ r = r'.
Proof.
  induction a as [|x a IH]; intros a' r r' Ha Ha' Hr Hr' E.
  - destruct a' as [|x' a']; [done|]. exfalso. cbn in E.
    destruct Hr as [->|(c & r0 & -> & Hc)]; [done|]. injection E as -> _.
    cbn in Ha'. apply andb_true_iff in Ha' as [Hx _].
    unfold is_dot in Hx. by rewrite Hc in Hx.
  - cbn in Ha. apply andb_true_iff in Ha as [Hx Ha].
    destruct a' as [|x' a'].
    + exfalso. cbn in E.
      destruct Hr' as [->|(c & r0 & -> & Hc)]; [done|]. injection E as -> _.
      unfold is_dot in Hx. by rewrite Hc in Hx.
    + injection E as <- E. cbn in Ha'. apply andb_true_iff in Ha' as [_ Ha'].
      destruct (IH _ _ _ Ha Ha' Hr Hr' E) as [-> ->]. done.
Qed.

End Longest.

Section Twice.
Import TagPatcher.
Variables identifier newTag : list N.
Hypothesis identifier_in_line : forallb is_dot identifier = true.
Hypothesis tag_in_line : forallb is_dot newTag = true.
Hypothesis tag_without_colon : ~ In c_colon newTag.

(** Among the ways to read the start of [s] as [image:], white space, a
    text of one line and [ID:], the match takes the one with the longest
    white space and, for that, the longest text. *)
Lemma match_at_max s g1 g2 rest :
  match_at identifier s = Some (g1, g2, rest) ->
  exists ws mid,
    g1 = image_kw ++ ws ++ mid ++ identifier ++ [c_colon]
    /\ ws <> [] /\ forallb is_white_space ws = true
    /\ forallb is_dot mid = true
    /\ forall ws' mid' r',
         s = image_kw ++ ws' ++ mid' ++ identifier ++ [c_colon] ++ r' ->
         ws' <> [] -> forallb is_white_space ws' = true ->
         forallb is_dot mid' = true ->
         length ws' < length ws
         \/ (length ws' = length ws /\ length mid' <= length mid).
Proof.
  unfold match_at.
  destruct (strip_prefix image_kw s) as [s1|] eqn:E1; [|done].
  apply strip_prefix_Some in E1 as ->.
  destruct (ws_plus _ s1) as [[ws [mid s2]]|] eqn:E2; [|done].
  pose proof (ws_plus_sound _ _ _ _ E2) as (s' & -> & Hne & Hws & E3).
  pose proof (dot_star_lit_sound _ _ _ _ E3) as (E4 & Hmid).
  destruct (dot_star s2) as [m r] eqn:E5. intros [= <- <- <-].
  exists ws, mid. split; [done|]. split; [done|]. split; [done|].
  split; [done|].
  intros ws' mid' r' E Hne' Hws' Hmid'. apply app_inv_head in E.
  assert (Hk : dot_star_lit (identifier ++ [c_colon])
                 (mid' ++ (identifier ++ [c_colon]) ++ r') <> None)
    by by apply dot_star_lit_complete.
  assert (Hlen : length ws' <= length ws).
  { eapply (ws_plus_longest _ _ _ _ _ _ E2); [|done|done|exact Hk].
    rewrite E. by rewrite <- !app_assoc. }
  destruct (decide (length ws' < length ws)) as [|Hge]; [by left|].
  right. assert (Heq : length ws' = length ws) by lia. split; [done|].
  apply app_inj_1 in E as [-> E]; [|done].
  eapply (dot_star_lit_longest _ _ _ _ _ r' E3); [|done].
  rewrite E. by rewrite <- !app_assoc.
Qed.

(** And that reading is the match. *)
Lemma match_at_characterized s ws mid g2 rest :
  s = image_kw ++ ws ++ mid ++ identifier ++ [c_colon] ++ g2 ++ rest ->
  ws <> [] -> forallb is_white_space ws = true ->
  forallb is_dot mid = true -> forallb is_dot g2 = true ->
  (rest = [] \/ exists c r0, rest = c :: r0 /\ is_line_terminator c = true) ->
  (forall ws' mid' r',
     s = image_kw ++ ws' ++ mid' ++ identifier ++ [c_colon] ++ r' ->
     ws' <> [] -> forallb is_white_space ws' = true ->
     forallb is_dot mid' = true ->
     length ws' < length ws
     \/ (length ws' = length ws /\ length mid' <= length mid)) ->
  match_at identifier s
  = Some (image_kw ++ ws ++ mid ++ identifier ++ [c_colon], g2, rest).
Proof.
  intros E Hne Hws Hmid Hg2 Hrest Hmax.
  destruct (match_at identifier s) as [[[g1' g2'] rest']|] eqn:Em.
  2:{ exfalso. rewrite E in Em.
      by apply (match_at_complete identifier ws mid (g2 ++ rest)) in Em. }
  destruct (match_at_max _ _ _ _ Em)
    as (ws' & mid' & -> & Hne' & Hws' & Hmid' & Hmax').
  apply match_at_sound in Em as (E' & _ & Hg2' & Hrest').
  rewrite <- !app_assoc in E'.
  destruct (Hmax ws' mid' (g2' ++ rest') E' Hne' Hws' Hmid') as [Hlt|[Hl1 Hl2]];
    destruct (Hmax' ws mid (g2 ++ rest) E Hne Hws Hmid) as [Hlt'|[Hl1' Hl2']];
    try lia.
  rewrite E in E'. apply app_inv_head in E'.
  apply app_inj_1 in E' as [<- E']; [|done].
  apply app_inj_1 in E' as [<- E']; [|lia].
  apply app_inv_head in E'. apply (app_inv_head [c_colon]) in E'.
  destruct (dots_split_unique _ _ _ _ Hg2 Hg2' Hrest Hrest' E') as [<- <-].
  done.
Qed.

(** A reading of the start of a patched text ends inside the part that
    was not changed: it cannot run over the new tag, which has no colon,
    and over the line break behind it. *)
Lemma match_prefix_within a ws mid ws' mid' r' o :
  ws <> [] ->
  forallb is_white_space ws' = true -> forallb is_dot mid' = true ->
  (o = [] \/ exists c r0, o = c :: r0 /\ is_line_terminator c = true) ->
  (image_kw ++ ws' ++ mid' ++ identifier ++ [c_colon]) ++ r'
  = a ++ (image_kw ++ ws ++ mid ++ identifier ++ [c_colon]) ++ newTag ++ o ->
  exists l,
    a ++ image_kw ++ ws ++ mid ++ identifier ++ [c_colon]
    = (image_kw ++ ws' ++ mid' ++ identifier ++ [c_colon]) ++ l.
Proof.
  intros Hne Hws' Hmid' Ho E.
  rewrite (app_assoc a) in E.
  apply app_eq_app in E as [l [[E1 E2]|[E1 E2]]]; [|by exists l].
  destruct l as [|x l] using rev_ind.
  { exists []. by rewrite app_nil_r in *. }
  clear IHl. exfalso.
  assert (x = c_colon) as ->.
  { replace (image_kw ++ ws' ++ mid' ++ identifier ++ [c_colon])
      with ((image_kw ++ ws' ++ mid' ++ identifier) ++ [c_colon]) in E1
      by (by rewrite <- !app_assoc).
    rewrite (app_assoc _ l [x]) in E1.
    by apply app_inj_tail in E1 as [_ ->]. }
  apply app_eq_app in E2 as [l2 [[E3 E4]|[E3 E4]]].
  { apply tag_without_colon. rewrite E3. apply in_or_app. left.
    apply in_or_app. right. by left. }
  destruct l2 as [|c2 l2].
  { rewrite app_nil_r in E3. apply tag_without_colon. rewrite <- E3.
    apply in_or_app. right. by left. }
  assert (Hc2 : is_line_terminator c2 = true).
  { destruct Ho as [->|(c & r0 & -> & Hc)]; [done|]. by injection E4 as -> _. }
  rewrite E3 in E1. clear E3 E4.
  set (M := mid' ++ identifier ++ [c_colon]).
  assert (HM : forallb is_dot M = true).
  { subst M. by rewrite !forallb_app, Hmid', identifier_in_line. }
  set (X := a ++ image_kw ++ ws ++ mid ++ identifier).
  assert (E : (image_kw ++ ws') ++ M = X ++ c_colon :: newTag ++ c2 :: l2).
  { subst M X. rewrite <- !app_assoc. rewrite <- !app_assoc in E1.
    exact E1. }
  assert (HinM : forall l3, M = l3 ++ newTag ++ c2 :: l2 -> False).
  { intros l3 E3. apply (dots_no_terminator M c2 HM Hc2). rewrite E3.
    apply in_or_app. right. apply in_or_app. right. by left. }
  apply app_eq_app in E as [l3 [[E5 E6]|[E5 E6]]].
  2:{ apply (HinM (l3 ++ [c_colon])). rewrite E6. by rewrite <- app_assoc. }
  destruct l3 as [|y l3].
  { apply (HinM [c_colon]). exact (eq_sym E6). }
  injection E6 as <- E6.
  apply app_eq_app in E5 as [l4 [[E7 E8]|[E7 E8]]].
  - apply (f_equal length) in E7. subst X. rewrite !length_app in E7.
    cbn in E7. destruct ws; [done|]. cbn in E7. lia.
  - apply (colon_not_space ws' Hws'). rewrite E8.
    apply elem_of_app. right. by left.
Qed.

(** A match is found again after the patch, with the new tag as its
    second group. *)
Lemma match_at_after_patch s g1 g2 rest o :
  match_at identifier s = Some (g1, g2, rest) ->
  (o = [] \/ exists c r0, o = c :: r0 /\ is_line_terminator c = true) ->
  match_at identifier (g1 ++ newTag ++ o) = Some (g1, newTag, o).
Proof.
  intros Hm Ho.
  destruct (match_at_max _ _ _ _ Hm)
    as (ws & mid & -> & Hne & Hws & Hmid & Hmax).
  apply match_at_sound in Hm as (-> & _ & Hg2 & Hrest).
  apply match_at_characterized; try done.
  { by rewrite <- !app_assoc. }
  intros ws' mid' r' E Hne' Hws' Hmid'.
  destruct (match_prefix_within [] ws mid ws' mid' r' o Hne Hws' Hmid' Ho)
    as [l El].
  { rewrite app_nil_l, E. by rewrite <- !app_assoc. }
  rewrite app_nil_l in El.
  apply (Hmax ws' mid' (l ++ g2 ++ rest)); [|done..].
  rewrite El. by rewrite <- !app_assoc.
Qed.

Lemma rewrites_head rest o :
  (rest = [] \/ exists c r0, rest = c :: r0 /\ is_line_terminator c = true) ->
  rewrites identifier newTag rest o ->
  o = [] \/ exists c r0, o = c :: r0 /\ is_line_terminator c = true.
Proof.
  intros Hrest Hrw. destruct Hrw as [|c s o Hm Hrw|s g1 g2 rest' o Hm Hrw].
  - by left.
  - destruct Hrest as [|(c' & r' & [= -> ->] & Hc)]; [done|]. right. eauto.
  - exfalso. apply match_at_sound in Hm as (-> & (ws & mid & -> & _) & _).
    destruct Hrest as [|(c' & r' & [= <- _] & Hc)]; done.
Qed.

(** Where a patched text first differs from the text it was made of. *)
Lemma rewrites_first_change s o :
  rewrites identifier newTag s o ->
  o = s
  \/ exists a ws mid g2 rest o',
       s = a ++ (image_kw ++ ws ++ mid ++ identifier ++ [c_colon])
             ++ g2 ++ rest
       /\ o = a ++ (image_kw ++ ws ++ mid ++ identifier ++ [c_colon])
               ++ newTag ++ o'
       /\ ws <> []
       /\ (o' = [] \/ exists c r0, o' = c :: r0 /\ is_line_terminator c = true).
Proof.
  induction 1 as [|c s o Hm Hrw IH|s g1 g2 rest o Hm Hrw IH]; [by left|..].
  - destruct IH as [->|(a & ws & mid & g2 & rest & o' & -> & -> & Hne & Ho)];
      [by left|].
    right. by exists (c :: a), ws, mid, g2, rest, o'.
  - right. apply match_at_sound in Hm as (-> & (ws & mid & -> & Hne & _) & _ & Hrest).
    exists [], ws, mid, g2, rest, o. split; [done|]. split; [done|].
    split; [done|]. by eapply rewrites_head.
Qed.

(** A position without a match has none after the patch of what
    follows it. *)
Lemma no_match_after_patch s o c :
  rewrites identifier newTag s o ->
  match_at identifier (c :: s) = None -> match_at identifier (c :: o) = None.
Proof.
  intros Hrw Hno.
  destruct (rewrites_first_change _ _ Hrw)
    as [->|(a & ws & mid & g2 & rest & o' & -> & -> & Hne & Ho)]; [done|].
  match goal with |- ?x = None =>
    destruct x as [[[g1' g2'] rest']|] eqn:Em; [|done] end.
  exfalso.
  apply match_at_sound in Em
    as (E & (ws' & mid' & -> & Hne' & Hws' & Hmid') & _).
  destruct (match_prefix_within (c :: a) ws mid ws' mid' (g2' ++ rest') o'
              Hne Hws' Hmid' Ho) as [l El].
  { rewrite <- E. done. }
  apply (match_at_complete identifier ws' mid' (l ++ g2 ++ rest) Hne' Hws' Hmid').
  rewrite <- Hno. f_equal.
  change (c :: a ++ (image_kw ++ ws ++ mid ++ identifier ++ [c_colon])
               ++ g2 ++ rest)
    with ((c :: a) ++ (image_kw ++ ws ++ mid ++ identifier ++ [c_colon])
            ++ g2 ++ rest).
  rewrite (app_assoc (c :: a)), El. by rewrite <- !app_assoc.
Qed.

(** A patched text is its own patch. *)
Lemma rewrites_twice s o :
  rewrites identifier newTag s o -> rewrites identifier newTag o o.
Proof.
  induction 1 as [|c s o Hm Hrw IH|s g1 g2 rest o Hm Hrw IH].
  - constructor.
  - apply rw_skip; [|exact IH]. exact (no_match_after_patch s o c Hrw Hm).
  - eapply rw_hit; [|exact IH]. eapply match_at_after_patch; [exact Hm|].
    apply match_at_sound in Hm as (_ & _ & _ & Hrest).
    by eapply rewrites_head.
Qed.

Lemma rewrites_fun s o1 :
  rewrites identifier newTag s o1 ->
  forall o2, rewrites identifier newTag s o2 -> o1 = o2.
Proof.
  induction 1 as [|c s o Hm Hrw IH|s g1 g2 rest o Hm Hrw IH]; intros o2 H2.
  - inversion H2 as [| |s' g1' g2' rest' o' Hm' Hrw']; [done|].
    by destruct s'.
  - inversion H2 as [|c' s' o' Hm' Hrw'|s' g1' g2' rest' o' Hm' Hrw']; subst.
    + f_equal. by apply IH.
    + congruence.
  - inversion H2 as [|c' s' o' Hm' Hrw'|s' g1' g2' rest' o' Hm' Hrw']; subst.
    + by cbn in Hm.
    + congruence.
    + rewrite Hm in Hm'. injection Hm' as <- <- <-. f_equal. f_equal.
      by apply IH.
Qed.

End Twice.

Section Idempotence.
Import TagPatcher.

(** X25.  Patching is idempotent for a tag without colon: the patch of a
    patched text, for the same identifier and tag, is that text. *)
Theorem patch_is_idempotent content identifier newTag :
  regex_literal identifier = true ->
  forallb is_dot identifier = true ->
  no_dollar newTag = true ->
  forallb is_dot newTag = true ->
  ~ In c_colon newTag ->
  let out := newContent content identifier newTag in
  newContent out identifier newTag = out.
Proof.
  intros _ Hid Hnd Htag Hcolon out.
  pose proof (newContent_rewrites content identifier newTag Hnd) as H1.
  fold out in H1.
  pose proof (newContent_rewrites out identifier newTag Hnd) as H2.
  apply (rewrites_fun identifier newTag out _ H2).
  by eapply rewrites_twice.
Qed.

End Idempotence.

(** A run of [patch_is_idempotent]: two manifests in one text. *)
Lemma patch_is_idempotent_witness :
  let content :=
    TagPatcher.of_string "image: a/svc:v1" ++ [10%N]
    ++ TagPatcher.of_string "  image:   b/svc:v0 # old" in
  let identifier := TagPatcher.of_string "svc" in
  let newTag := TagPatcher.of_string "v2" in
  let out := TagPatcher.newContent content identifier newTag in
  out = TagPatcher.of_string "image: a/svc:v2" ++ [10%N]
        ++ TagPatcher.of_string "  image:   b/svc:v2"
  /\ TagPatcher.newContent out identifier newTag = out.
Proof.
  intros content identifier newTag out. split; [vm_compute; reflexivity|].
  apply patch_is_idempotent; [reflexivity..|].
  vm_compute. intros Hin. repeat (destruct Hin as [Hin|Hin]; [discriminate|]).
  exact Hin.
Defined.

(* ===================================================================== *)
(** * The renderer *)
(* ===================================================================== *)

Section RendererFacts.
Import Renderer.

Lemma call_in_order_more before more k :
  call_in_order before k -> call_in_order (before ++ more) k.
Proof.
  destruct k as [|n u t mp]; [done|]. intros (Hu & Ht & c & Hin & Hc).
  split; [done|]. split; [done|]. exists c. split; [|done].
  apply in_or_app. by left.
Qed.

Lemma invariant_send m r :
  invariant r -> in_order (sent r) m -> invariant (send m r).
Proof.
  intros (Hf & Hw & Hs) Hm. split; [exact Hf|]. split.
  - cbn. eapply Forall_impl; [exact Hw|]. intros k. apply call_in_order_more.
  - intros i m' Hi. cbn in *.
    apply lookup_app_Some in Hi as [Hi|[Hlen Hi]].
    + pose proof (lookup_lt_Some _ _ _ Hi) as Hlt.
      rewrite take_app_le by lia. by apply Hs.
    + destruct (i - length (sent r)) as [|j] eqn:Ej; [|done].
      injection Hi as <-. assert (i = length (sent r)) as -> by lia.
      by rewrite take_app_length.
Qed.

Lemma invariant_quiet r r' :
  serviceFiles r' = serviceFiles r -> waiting r' = waiting r ->
  sent r' = sent r -> invariant r -> invariant r'.
Proof. unfold invariant. by intros -> -> ->. Qed.

Lemma invariant_log n m t time r : invariant r -> invariant (log n m t time r).
Proof. by apply invariant_quiet. Qed.

Lemma invariant_wait k w r :
  w = waiting r -> invariant r -> call_in_order (sent r) k ->
  invariant (set_waiting (w ++ [k]) r).
Proof.
  intros -> (Hf & Hw & Hs) Hk. split; [exact Hf|]. split; [|exact Hs].
  cbn. apply Forall_app. split; [exact Hw|]. by constructor.
Qed.

Lemma invariant_file n p time r :
  invariant r -> invariant (handleFileSelection n p time r).
Proof.
  intros Hr. unfold handleFileSelection.
  destruct (Js.endsWith p ".tar") eqn:Ep; cbn [negb];
    [|by apply invariant_log].
  apply invariant_log. destruct Hr as (Hf & Hw & Hs).
  split; [|by split]. intros n' p'. cbn.
  destruct (decide (n = n')) as [->|Hne].
  - rewrite lookup_insert_eq. by intros [= <-].
  - rewrite lookup_insert_ne by done. apply Hf.
Qed.

Lemma invariant_step r e : invariant r -> invariant (step r e).
Proof.
  intros Hr. destruct e as [loaded|name|name path time|name filePath time
                            |g u p ru rp|name registryUrl tag manifestPath
                            |i ok| |pl time|d time]; cbn [step].
  - by apply (invariant_quiet r).
  - unfold selectService. case_decide; [done|]. by apply (invariant_quiet r).
  - by apply invariant_file.
  - unfold triggerFilePicker. destruct (Registry.truthy filePath); [|done].
    by apply invariant_file.
  - unfold save_global. apply invariant_wait; [done| |done].
    apply invariant_send; [|done]. by apply (invariant_quiet r).
  - unfold deployService.
    destruct (String.eqb_spec registryUrl "") as [|Hu]; cbn [orb].
    { by apply invariant_send. }
    destruct (String.eqb_spec tag "") as [|Ht].
    { by apply invariant_send. }
    set (r1 := selectService name r).
    assert (H1 : invariant r1).
    { subst r1. unfold selectService. case_decide; [done|].
      by apply (invariant_quiet r). }
    set (r2 := set_serviceLogs _ r1).
    assert (H2 : invariant r2) by by apply (invariant_quiet r1).
    destruct (service_configs (globalConfig r2) !! name); [|done].
    apply invariant_wait; [done|..].
    + apply invariant_send; [|done]. by apply (invariant_quiet r2).
    + split; [done|]. split; [done|]. eexists. split.
      * cbn. apply in_or_app. right. by left.
      * cbn. by rewrite lookup_insert_eq.
  - unfold settled. destruct (waiting r !! i) as [k|] eqn:Hk; [|done].
    destruct Hr as (Hf & Hw & Hs).
    assert (Hk' : call_in_order (sent r) k).
    { rewrite Forall_lookup in Hw. by eapply Hw. }
    assert (Hd : invariant (set_waiting (delete i (waiting r)) r)).
    { split; [exact Hf|]. split; [|exact Hs]. cbn. by apply Forall_delete. }
    destruct ok; [|exact Hd].
    destruct k as [|n u t mp]; cbn [resume]; apply invariant_send; try done.
    destruct Hk' as (Hu & Ht & Hc). cbn. split; [done|]. split; [done|].
    split; [|exact Hc]. intros p Hp. apply (Hf n).
    destruct (serviceFiles r !! n) as [x|]; [|done]. cbn in Hp.
    by destruct (String.eqb x ""); simplify_eq.
  - unfold clearLogs. destruct (Registry.truthy (activeService r)); [|done].
    by apply (invariant_quiet r).
  - destruct pl as [s|n m t]; cbn [onLog]; [|by apply invariant_log].
    destruct (Registry.truthy (activeService r)); [|done].
    by apply invariant_log.
  - unfold onDeployComplete.
    destruct (Deploy.success d); (apply invariant_send; [|done]);
      by apply invariant_log.
Qed.

Lemma invariant_play es : forall r, invariant r -> invariant (play es r).
Proof.
  induction es as [|e es IH]; intros r Hr; [done|].
  cbn. apply IH. by apply invariant_step.
Qed.

(** X26.  Whatever happens to the renderer, in whatever order, every
    deployment it asks of the main process is in order: host and tag are
    not empty, the archive it names, if any, has a name that ends in
    [.tar], and the settings of the service with that host, tag and
    manifest path were handed to [saveConfig] before. *)
Theorem deployments_asked_in_order es i m :
  sent (play es start) !! i = Some m ->
  in_order (take i (sent (play es start))) m.
Proof.
  assert (H0 : invariant start).
  { split; [done|]. split; [constructor|done]. }
  destruct (invariant_play es start H0) as (_ & _ & Hs). apply Hs.
Qed.

Lemma last_cons_ne {A} (x : A) l : l <> [] -> last (x :: l) = last l.
Proof. by destruct l. Qed.

Lemma tar_name_not_empty s :
  Js.endsWith s ".tar" = true ->
  exists x, Js.pop (Js.split "/" s) = Some x /\ x <> "".
Proof.
  unfold Js.pop. induction s as [|a s IH]; [done|].
  cbn [Js.endsWith]. intros He. apply orb_true_iff in He as [He|He].
  { apply String.eqb_eq in He as ->. by exists ".tar". }
  destruct (IH He) as (x & Hx & Hne). cbn [Js.split].
  pose proof (split_not_nil s) as Hs.
  destruct (Ascii.eqb a "/").
  - exists x. by rewrite last_cons_ne.
  - destruct (Js.split "/" s) as [|p ps]; [done|].
    destruct ps as [|q ps].
    + cbn in Hx. injection Hx as <-. by eexists.
    + exists x. by rewrite last_cons_ne in * by done.
Qed.

(** X27.  A chosen file is kept for its service only when its name ends
    in [.tar]: another file changes no choice, and neither case sends a
    message or touches the choice or the log of another service.  For a
    file that is kept, the name shown is what follows its last [/], and
    is not empty: the alternative that splits at the backslash is never
    taken. *)
Theorem only_tar_files_are_kept serviceName fullPath time r :
  let r' := handleFileSelection serviceName fullPath time r in
  sent r' = sent r
  /\ waiting r' = waiting r
  /\ (forall n, n <> serviceName ->
        serviceFiles r' !! n = serviceFiles r !! n
        /\ serviceLogs r' !! n = serviceLogs r !! n)
  /\ (Js.endsWith fullPath ".tar" = false -> serviceFiles r' = serviceFiles r)
  /\ (Js.endsWith fullPath ".tar" = true ->
      serviceFiles r' !! serviceName = Some fullPath
      /\ Js.pop (Js.split "/" fullPath) = Some (fileName_of fullPath)
      /\ fileName_of fullPath <> "").
Proof.
  cbv zeta. unfold handleFileSelection.
  destruct (Js.endsWith fullPath ".tar") eqn:Ep; cbn [negb].
  - split; [done|]. split; [done|]. split.
    { intros n Hn. cbn. by rewrite !lookup_insert_ne. }
    split; [done|]. intros _. split; [cbn; by rewrite lookup_insert_eq|].
    destruct (tar_name_not_empty _ Ep) as (x & Hx & Hne).
    unfold fileName_of. rewrite Hx. cbn.
    by destruct (String.eqb_spec x "").
  - split; [done|]. split; [done|]. split; [|done].
    intros n Hn. cbn. by rewrite lookup_insert_ne.
Qed.

(** X28.  The lines the main process sends on [log-output] are texts: the
    renderer stores each of them under the service that is active when it
    arrives, whatever service the deployment is for, and drops it when no
    service is active. *)
Theorem log_lines_follow_the_active_service (lines : list (string * string)) r :
  let r' := play (map (fun l => ev_log (text (fst l)) (snd l)) lines) r in
  match Registry.truthy (activeService r) with
  | Some a =>
      default [] (serviceLogs r' !! a)
      = default [] (serviceLogs r !! a)
        ++ map (fun l => mkLog (fst l) "" (snd l)) lines
      /\ forall b, b <> a -> serviceLogs r' !! b = serviceLogs r !! b
  | None => r' = r
  end.
Proof.
  cbv zeta. revert r. induction lines as [|[l t] lines IH]; intros r.
  { cbn. destruct (Registry.truthy (activeService r)); [|done].
    by rewrite app_nil_r. }
  cbn [map play fold_left step onLog fst snd].
  specialize (IH (match Registry.truthy (activeService r) with
                  | Some a => log a l "" t r
                  | None => r
                  end)).
  unfold play in *.
  destruct (Registry.truthy (activeService r)) as [a|] eqn:Ha.
  - change (activeService (log a l "" t r)) with (activeService r) in IH.
    rewrite Ha in IH. destruct IH as [IH1 IH2]. split.
    + rewrite IH1. cbn. rewrite lookup_insert_eq. cbn.
      by rewrite <- app_assoc.
    + intros b Hb. rewrite (IH2 b Hb). cbn. by rewrite lookup_insert_ne.
  - by rewrite Ha in IH.
Qed.

End RendererFacts.

Section ConfigFileFacts.
Import Renderer ConfigFile.
Context `{Codec}.

(** X29.  What [save-config] wrote is what the next [load-config]
    returns, when the codec reads back what it wrote, and no other file
    has changed; without a configuration file [load-config] returns the
    defaults. *)
Theorem saved_config_is_loaded CONFIG_PATH c root :
  (forall root',
     parse_config (stringify_config c) = Some c ->
     save_config CONFIG_PATH c root = inr root' ->
     load_config CONFIG_PATH root' = inr c
     /\ forall q, q <> CONFIG_PATH -> read_at q root' = read_at q root)
  /\ (exists_at CONFIG_PATH root = false ->
      load_config CONFIG_PATH root = inr default_config).
Proof.
  split.
  - intros root' Hcodec. unfold save_config, load_config.
    destruct (writeFile CONFIG_PATH _ root) as [n|] eqn:Hw; [|done].
    intros [= <-]. pose proof (writeFile_read _ _ _ _ Hw) as Hr.
    split.
    + unfold exists_at. rewrite Hr. unfold read_at in Hr.
      destruct (lookup CONFIG_PATH n); [|done]. by rewrite Hcodec.
    + intros q Hq. by eapply writeFile_read_other.
  - intros Hno. unfold load_config. by rewrite Hno.
Qed.

End ConfigFileFacts.

Section LogWindowFacts.
Import LogWindow.

(** X30.  After a message from the socket the log window holds the last
    101 lines of all it was given, whatever its length was before. *)
Theorem log_window_keeps_last_lines ms prev :
  ms <> [] ->
  fold_left onmessage ms prev
  = drop (length (prev ++ ms) - 101) (prev ++ ms)
  /\ length (fold_left onmessage ms prev) <= 101.
Proof.
  intros Hne.
  assert (Hstep : forall l d,
            onmessage l d = drop (length (l ++ [d]) - 101) (l ++ [d])).
  { intros l d. unfold onmessage, slice_last. rewrite length_app. cbn.
    rewrite drop_app.
    replace (length l + 1 - 101) with (length l - 100) by lia.
    f_equal. replace (length l - 100 - length l) with 0 by lia. done. }
  assert (Hfold : fold_left onmessage ms prev
                  = drop (length (prev ++ ms) - 101) (prev ++ ms)).
  { revert prev. induction ms as [|d ms IH]; intros prev; [done|].
    cbn [fold_left]. destruct ms as [|d' ms'].
    { cbn. apply Hstep. }
    rewrite IH by done. rewrite Hstep.
    set (L := prev ++ [d]). set (M := d' :: ms').
    replace (prev ++ d :: M) with (L ++ M) by (subst L; by rewrite <- app_assoc).
    rewrite !length_app, length_drop.
    rewrite !drop_app, drop_drop, length_drop.
    assert (HM : 1 <= length M) by (subst M; cbn; lia).
    replace (length L - 101 + (length L - (length L - 101) + length M - 101))
      with (length L + length M - 101) by lia.
    f_equal. f_equal. lia. }
  split; [exact Hfold|]. rewrite Hfold, length_drop. lia.
Qed.

End LogWindowFacts.

(** A run of [deployments_asked_in_order]: the configuration is loaded, an
    archive is dropped on the card of the service, the deployment is asked
    for, and [saveConfig] answers. *)
Lemma deployments_asked_witness :
  let loaded :=
    Renderer.mkApp (mkConfig None None "http://git.example/ops.git" None None)
      (list_to_map [("svc", Renderer.mkService None None None)]) in
  let es :=
    [ Renderer.ev_init loaded;
      Renderer.ev_drop "svc" "/home/op/svc.tar" "10:00:00";
      Renderer.ev_deploy "svc" "myhost/ns/svc" "v2.0.0" "k8s";
      Renderer.ev_settled 0 true ] in
  (exists c,
     Renderer.sent (Renderer.play es Renderer.start) !! 1
     = Some (Renderer.runDeploy "svc" "v2.0.0" "myhost/ns/svc" c
               (Some "/home/op/svc.tar") "k8s"))
  /\ forall m,
       Renderer.sent (Renderer.play es Renderer.start) !! 1 = Some m ->
       Renderer.in_order
         (take 1 (Renderer.sent (Renderer.play es Renderer.start))) m.
Proof.
  intros loaded es. split.
  - eexists. vm_compute. reflexivity.
  - intros m Hm. exact (deployments_asked_in_order es 1 m Hm).
Defined.

(** A run of [saved_config_is_loaded], with a codec that knows one
    configuration. *)
Lemma saved_config_witness :
  let C :=
    {| ConfigFile.stringify_config := fun _ => "{}";
       ConfigFile.parse_config := fun _ => Some ConfigFile.default_config |} in
  let root := Dir [("userData", Dir [])] in
  exists root',
    ConfigFile.save_config (H := C) ["userData"; "config.json"]
      ConfigFile.default_config root = inr root'
    /\ ConfigFile.load_config (H := C) ["userData"; "config.json"] root'
       = inr ConfigFile.default_config.
Proof.
  intros C root. eexists. split; [reflexivity|].
  destruct (saved_config_is_loaded (H := C) ["userData"; "config.json"]
              ConfigFile.default_config root) as [Hload _].
  apply Hload; reflexivity.
Defined.

(** A run of [log_window_keeps_last_lines]: two messages in an empty
    window. *)
Lemma log_window_witness :
  fold_left LogWindow.onmessage ["a"; "b"] [] = ["a"; "b"]
  /\ length (fold_left LogWindow.onmessage ["a"; "b"] []) <= 101.
Proof.
  destruct (log_window_keeps_last_lines ["a"; "b"] []) as [E L];
    [discriminate|].
  split; [rewrite E; reflexivity|exact L].
Defined.
